(** * Penguin theme: soft-navigation engine of [theme/js/penguin.js]

    A shallow embedding of the navigation, prefetch, DOM-swap and
    script re-execution code of [penguin.js], and the properties its
    specification states about it.

    Conventions of the embedding.
    - A JavaScript string is a [string]; every [ascii] is one code unit.
    - The browser is a record [World] (live document, location, session
      history, scroll position, module-level variables of the script) that
      the functions thread through an error monad [M]; every call into the
      browser that matters to a reader (a request, a history call, an
      assignment to [location.href], a dispatched event) is also appended
      to the [trace] of the world.
    - What the browser or the network decides is read from a record [Env]:
      the answer to a request, the DOM parser, the URL parser, whether a
      foreign listener cancels an event.
    - An [async] function is run to completion: every awaited promise is
      taken at its settled value. *)

From Stdlib Require Import ZArith Ascii String.
From stdpp Require Import base strings gmap list.

#[local] Set Warnings "-register-all".

Local Open Scope string_scope.
Local Open Scope list_scope.

(* ===================================================================== *)
(** * Strings *)
(* ===================================================================== *)

Module Str.

Definition backslash : ascii := ascii_of_nat 92.
Definition dollar : ascii := ascii_of_nat 36.
Definition ampersand : ascii := ascii_of_nat 38.

(** [s.split(c, 1)[0]]: what precedes the first [c] (all of [s] when
    there is none). *)
Fixpoint beforeChar (c : ascii) (s : string) : string :=
  match s with
  | EmptyString => EmptyString
  | String a r => if Ascii.eqb a c then EmptyString else String a (beforeChar c r)
  end.

(** White space and line terminators of ECMAScript among the code units
    below 256: TAB, LF, VT, FF, CR, SP, NBSP. *)
Definition isWhiteSpace (a : ascii) : bool :=
  existsb (Nat.eqb (nat_of_ascii a)) [9; 10; 11; 12; 13; 32; 160]%nat.

Fixpoint trimStart (s : string) : string :=
  match s with
  | EmptyString => EmptyString
  | String a r => if isWhiteSpace a then trimStart r else s
  end.

Definition revString (s : string) : string :=
  string_of_list_ascii (rev (list_ascii_of_string s)).

Definition trimEnd (s : string) : string := revString (trimStart (revString s)).

Definition trim (s : string) : string := trimEnd (trimStart s).

(** [s.startsWith(p)] *)
Definition startsWith (p s : string) : bool := String.prefix p s.

(** ASCII whitespace of the HTML standard: TAB, LF, FF, CR, SPACE. *)
Definition isHtmlSpace (a : ascii) : bool :=
  existsb (Nat.eqb (nat_of_ascii a)) [9; 10; 12; 13; 32]%nat.

(** Strip and collapse ASCII whitespace: every run of whitespace inside
    the string becomes one space, the runs at its ends go. [started]
    says that a character was kept, [pending] that a run of whitespace
    follows it. *)
Fixpoint collapseFrom (started pending : bool) (s : string) : string :=
  match s with
  | EmptyString => EmptyString
  | String a r =>
      if isHtmlSpace a then collapseFrom started started r
      else if pending then String " " (String a (collapseFrom true false r))
      else String a (collapseFrom true false r)
  end.

Definition stripAndCollapse (s : string) : string := collapseFrom false false s.

(** ASCII lower case. *)
Definition lowerChar (a : ascii) : ascii :=
  let n := nat_of_ascii a in
  if (65 <=? n)%nat && (n <=? 90)%nat then ascii_of_nat (n + 32) else a.

Fixpoint asciiLower (s : string) : string :=
  match s with
  | EmptyString => EmptyString
  | String a r => String (lowerChar a) (asciiLower r)
  end.

(** [/p/.test(s)] for a pattern [p] without metacharacters. *)
Fixpoint contains (p s : string) : bool :=
  String.prefix p s ||
  match s with
  | EmptyString => false
  | String _ r => contains p r
  end.

(** The replacement text of [String.prototype.replace] for a match
    [m]: [$$] stands for a dollar sign and [$&] for the match; the
    patterns that name capture groups or the text around the match are
    not used by the script and are copied as they are. *)
Fixpoint expandTemplate (tmpl m : string) : string :=
  match tmpl with
  | EmptyString => EmptyString
  | String a r =>
      if Ascii.eqb a dollar then
        match r with
        | String b r' =>
            if Ascii.eqb b dollar then String dollar (expandTemplate r' m)
            else if Ascii.eqb b ampersand then String.append m (expandTemplate r' m)
            else String a (expandTemplate r m)
        | EmptyString => String a EmptyString
        end
      else String a (expandTemplate r m)
  end.

(** [s.replace(/[class]/g, tmpl)] for a character class: every code
    unit of the class is a match of length one. *)
Fixpoint replaceClass (cls : ascii -> bool) (tmpl : string) (s : string) : string :=
  match s with
  | EmptyString => EmptyString
  | String a r =>
      String.append
        (if cls a then expandTemplate tmpl (String a EmptyString) else String a EmptyString)
        (replaceClass cls tmpl r)
  end.

End Str.

(* ===================================================================== *)
(** * Search-term helper: [escapeRegExp] *)
(* ===================================================================== *)

Module Search.
Import Str.

(** The class [[.*+?^${}()|[\]\\]] of the source. *)
Definition isRegExpSpecial (c : ascii) : bool :=
  existsb (Ascii.eqb c) (list_ascii_of_string ".*+?^${}()|[]" ++ [backslash]).

(** The replacement string literal of the source: a backslash, eight
    spaces and the five characters [// Ad]. *)
Definition escapeReplacement : string :=
  String backslash "        // Ad".

Definition escapeRegExp (s : string) : string :=
  replaceClass isRegExpSpecial escapeReplacement s.

(** What the specification asks of the helper: every metacharacter is
    preceded by a backslash, that is the replacement [\$&]. *)
Definition escapeRegExp_spec (s : string) : string :=
  replaceClass isRegExpSpecial (String backslash "$&") s.

End Search.

(* ===================================================================== *)
(** * The document object model *)
(* ===================================================================== *)

Module Dom.
Import Str.

(** An attribute: name and value. The attributes of an element are kept
    in the order of [element.attributes]. *)
Definition attr : Type := string * string.

(** The state of a text control ([input], [textarea]) to which selection
    applies: the length of its value and its selection offsets. *)
Record textctl := TextCtl { vlen : nat; selStart : nat; selEnd : nat }.

(** An element: [nid] is the identity of the JavaScript object, [text]
    the text the element holds itself (the code of an inline script),
    [ctl] the text-control state ([None] where selection does not apply:
    [selectionStart] reads [null] there). *)
Record elem := Elem {
  nid : nat;
  tag : string;
  attrs : list attr;
  text : string;
  ctl : option textctl
}.

Inductive node := Node (e : elem) (kids : list node).

(** Induction on a tree together with its lists of children. *)
Fixpoint node_forest_ind (P : node -> Prop) (Q : list node -> Prop)
    (HN : forall e ks, Q ks -> P (Node e ks))
    (H0 : Q [])
    (HC : forall n f, P n -> Q f -> Q (n :: f))
    (n : node) : P n :=
  let 'Node e ks := n in
  HN e ks
    ((fix go (ks : list node) : Q ks :=
        match ks with
        | [] => H0
        | k :: r => HC k r (node_forest_ind P Q HN H0 HC k) (go r)
        end) ks).

Definition nodeElem (n : node) : elem := let 'Node e _ := n in e.
Definition nodeKids (n : node) : list node := let 'Node _ ks := n in ks.

(** ** Attributes *)

Fixpoint getAttribute (name : string) (l : list attr) : option string :=
  match l with
  | [] => None
  | (n, v) :: r => if String.eqb n name then Some v else getAttribute name r
  end.

Fixpoint setAttribute (name value : string) (l : list attr) : list attr :=
  match l with
  | [] => [(name, value)]
  | (n, v) :: r =>
      if String.eqb n name then (n, value) :: r else (n, v) :: setAttribute name value r
  end.

Definition removeAttribute (name : string) (l : list attr) : list attr :=
  List.filter (fun a => negb (String.eqb (fst a) name)) l.

Definition hasAttribute (name : string) (l : list attr) : bool :=
  match getAttribute name l with Some _ => true | None => false end.

Definition attrIs (name value : string) (e : elem) : bool :=
  match getAttribute name (attrs e) with
  | Some v => String.eqb v value
  | None => false
  end.

Definition withAttrs (f : list attr -> list attr) (e : elem) : elem :=
  Elem (nid e) (tag e) (f (attrs e)) (text e) (ctl e).

Definition withCtl (c : option textctl) (e : elem) : elem :=
  Elem (nid e) (tag e) (attrs e) (text e) c.

Definition withText (t : string) (e : elem) : elem :=
  Elem (nid e) (tag e) (attrs e) t (ctl e).

(** ** Trees *)

(** The elements of a subtree in tree order (the order of
    [querySelectorAll]). *)
Fixpoint elts (n : node) : list elem :=
  let 'Node e ks := n in e :: flat_map elts ks.

Definition eltsF (f : list node) : list elem := flat_map elts f.

Definition ids (f : list node) : list nat := map nid (eltsF f).

(** [root.querySelector(sel)] and [root.querySelectorAll(sel)] over the
    descendants of a node, and [document.querySelector(sel)] over the
    whole document; a selector is given by the elements it matches. *)
Definition querySelectorAllIn (sel : elem -> bool) (n : node) : list elem :=
  List.filter sel (eltsF (nodeKids n)).

Definition querySelectorIn (sel : elem -> bool) (n : node) : option elem :=
  List.find sel (eltsF (nodeKids n)).

Definition querySelector (sel : elem -> bool) (d : node) : option elem :=
  List.find sel (elts d).

(** Replace the node whose identity is [i] (the first one in tree order)
    by the nodes [new]: the result is the node taken out and what is left.
    With [new = []] this is [node.remove()]. [substN] works below a root,
    [substF] in a list of siblings. *)
Definition substIn (rec : node -> option (node * node)) (i : nat) (new : list node)
    : list node -> option (node * list node) :=
  fix go (ks : list node) : option (node * list node) :=
    match ks with
    | [] => None
    | k :: r =>
        if Nat.eqb (nid (nodeElem k)) i then Some (k, new ++ r)
        else match rec k with
             | Some (old, k') => Some (old, k' :: r)
             | None =>
                 match go r with
                 | Some (old, r') => Some (old, k :: r')
                 | None => None
                 end
             end
    end.

Fixpoint substN (i : nat) (new : list node) (n : node) : option (node * node) :=
  let 'Node e ks := n in
  match substIn (substN i new) i new ks with
  | Some (old, ks') => Some (old, Node e ks')
  | None => None
  end.

Definition substF (i : nat) (new : list node) : list node -> option (node * list node) :=
  substIn (substN i new) i new.

(** The same in a document, whose root must stay one element. *)
Definition substDoc (i : nat) (new : list node) (d : node) : option (node * node) :=
  match substF i new [d] with
  | Some (old, [d']) => Some (old, d')
  | _ => None
  end.

(** The ancestors of the element [i], outermost first, and the element
    itself at the end. *)
Definition pathIn (rec : node -> option (list elem)) : list node -> option (list elem) :=
  fix go (ks : list node) : option (list elem) :=
    match ks with
    | [] => None
    | k :: r => match rec k with Some p => Some p | None => go r end
    end.

Fixpoint pathN (i : nat) (n : node) : option (list elem) :=
  let 'Node e ks := n in
  if Nat.eqb (nid e) i then Some [e]
  else
    match pathIn (pathN i) ks with
    | Some p => Some (e :: p)
    | None => None
    end.

Definition pathF (i : nat) : list node -> option (list elem) := pathIn (pathN i).

(** Apply [g] to every element whose identity is [i]. *)
Fixpoint updateN (i : nat) (g : elem -> elem) (n : node) : node :=
  let 'Node e ks := n in
  Node (if Nat.eqb (nid e) i then g e else e) (map (updateN i g) ks).

(** Drop every subtree whose root matches [sel]
    ([querySelectorAll(sel).forEach(el => el.remove())]); the root of the
    document stays. *)
Definition pruneIn (rec : node -> node) (sel : elem -> bool) : list node -> list node :=
  fix go (ks : list node) : list node :=
    match ks with
    | [] => []
    | k :: r => if sel (nodeElem k) then go r else rec k :: go r
    end.

Fixpoint pruneN (sel : elem -> bool) (n : node) : node :=
  let 'Node e ks := n in Node e (pruneIn (pruneN sel) sel ks).

(** ** Documents *)

(** A document is its root element. [document.head] is the first [head]
    child of the root, [document.body] its first [body] or [frameset]
    child. *)
Definition isHead (n : node) : bool := String.eqb (tag (nodeElem n)) "head".
Definition isBody (n : node) : bool :=
  String.eqb (tag (nodeElem n)) "body" || String.eqb (tag (nodeElem n)) "frameset".

Definition docHead (d : node) : option node := List.find isHead (nodeKids d).
Definition docBody (d : node) : option node := List.find isBody (nodeKids d).

(** The title element of a document is its first [title] element in
    tree order, and [document.title] the text of that element with its
    whitespace stripped and collapsed, or the empty string. *)
Definition isTitle (e : elem) : bool := String.eqb (tag e) "title".

Definition titleElement (d : node) : option elem := List.find isTitle (elts d).

Definition documentTitle (d : node) : string :=
  match titleElement d with
  | Some t => stripAndCollapse (text t)
  | None => ""
  end.

(** What the setter of [document.title] does to a document that has a
    title element: the element keeps the text [v] and nothing else
    ("string replace all"). [None] when there is no title element. *)
Definition retitleIn (rec : node -> option node) : list node -> option (list node) :=
  fix go (ks : list node) : option (list node) :=
    match ks with
    | [] => None
    | k :: r =>
        match rec k with
        | Some k' => Some (k' :: r)
        | None =>
            match go r with
            | Some r' => Some (k :: r')
            | None => None
            end
        end
    end.

Fixpoint retitleN (v : string) (n : node) : option node :=
  let 'Node e ks := n in
  if isTitle e then Some (Node (withText v e) [])
  else
    match retitleIn (retitleN v) ks with
    | Some ks' => Some (Node e ks')
    | None => None
    end.

(** [parent.append(...new)] for the element [i]. *)
Fixpoint appendN (i : nat) (new : list node) (n : node) : node :=
  let 'Node e ks := n in
  Node e (map (appendN i new) ks ++ (if Nat.eqb (nid e) i then new else [])).

Definition connected (i : nat) (d : node) : bool :=
  existsb (Nat.eqb i) (ids [d]).

(** The selectors of the script. *)
Definition persistAttr : string := "data-mkdocs-persist".
Definition execAttr : string := "data-mkdocs-exec".

(** The script writes some selectors by pasting a value between double
    quotes: [[data-mkdocs-persist="${id}"]] and
    [link[rel=stylesheet][href="${href}"]]. The quoted text is the value
    itself when the value holds no double quote, no backslash, no line
    break (LF, CR, FF, which end a CSS string) and no NUL (which CSS
    replaces). Such a value is called selector-safe; for any other one
    the selector is another one, or none at all ([SyntaxError]), and
    [selPersist] and [selStylesheetHref] below do not describe it. *)
Definition selectorSafe (v : string) : bool :=
  forallb (fun a => negb (existsb (Nat.eqb (nat_of_ascii a)) [0; 10; 12; 13; 34; 92]%nat))
    (list_ascii_of_string v).

(** In an HTML document a selector compares the value of [rel] without
    regard to letter case, in an XML document with it. The two agree on
    the elements whose [rel] is not [stylesheet] in another letter case;
    [selStylesheet] below describes the selector on such elements. *)
Definition plainRel (e : elem) : bool :=
  match getAttribute "rel" (attrs e) with
  | Some v => negb (String.eqb (asciiLower v) "stylesheet") || String.eqb v "stylesheet"
  | None => true
  end.

Definition selPersistAny (e : elem) : bool := hasAttribute persistAttr (attrs e).
Definition selPersist (id : string) (e : elem) : bool := attrIs persistAttr id e.
Definition selEnabledMarker (e : elem) : bool :=
  attrIs "name" "mkdocs-view-transitions-enabled" e.
Definition selFallbackMeta (e : elem) : bool :=
  attrIs "name" "mkdocs-view-transitions-fallback" e.
Definition selStylesheet (e : elem) : bool :=
  String.eqb (tag e) "link" && attrIs "rel" "stylesheet" e.
Definition selStylesheetHref (href : string) (e : elem) : bool :=
  selStylesheet e && attrIs "href" href e.

(** The values of an element that the script pastes into a selector are
    selector-safe: its persistent identifier, and its [href] when it is a
    [link] ([null] is pasted for a missing one). *)
Definition pastesSafely (e : elem) : bool :=
  match getAttribute persistAttr (attrs e) with
  | Some id => selectorSafe id
  | None => true
  end
  && (negb (String.eqb (tag e) "link")
      || match getAttribute "href" (attrs e) with
         | Some h => selectorSafe h
         | None => true
         end).
Definition selScript (e : elem) : bool := String.eqb (tag e) "script".
Definition selNoscript (e : elem) : bool := String.eqb (tag e) "noscript".

(** [head link[rel=stylesheet]]: the stylesheet links below a [head]
    element. *)
Fixpoint headStylesheetsN (inHead : bool) (n : node) : list elem :=
  let 'Node e ks := n in
  (if inHead && selStylesheet e then [e] else [])
    ++ flat_map (headStylesheetsN (inHead || String.eqb (tag e) "head")) ks.

End Dom.

(* ===================================================================== *)
(** * The browser: state, environment and the monad of the script *)
(* ===================================================================== *)

Module Browser.
Import Str Dom.

(** A parsed URL, as the fields the script reads. *)
Record URL := mkURL {
  href : string;
  origin : string;
  pathname : string;
  search : string;
  hash : string
}.

Definition FormData : Type := list (string * string).

(** The state object of a history entry:
    [{ ...callerState, index, scrollX, scrollY }]. *)
Record HState := mkHState {
  index : Z;
  hScrollX : Z;
  hScrollY : Z;
  userState : list (string * string)
}.

Record HEntry := mkHEntry { hstate : option HState; hurl : string }.

(** The session history: the entries behind the current one (nearest
    first), the current entry, and the entries ahead of it. *)
Record History := mkHistory {
  past : list HEntry;
  current : HEntry;
  future : list HEntry
}.

Inductive Direction := dir_forward | dir_back.
Inductive NavigationType := nt_push | nt_replace | nt_traverse.

Definition directionName (d : Direction) : string :=
  match d with dir_forward => "forward" | dir_back => "back" end.

(** A [PageTransition] event with the properties the script hangs on it. *)
Record PageTransition := mkEvent {
  ev_type : string;
  ev_cancelable : bool;
  ev_from : URL;
  ev_to : URL;
  ev_direction : Direction;
  ev_navigationType : NavigationType;
  ev_newDocument : option node;
  ev_defaultPrevented : bool
}.

(** The [options] of a navigation. *)
Record NavOptions := mkNavOptions {
  o_history : option string;
  o_formData : option FormData;
  o_state : list (string * string);
  o_sourceElement : option nat;
  o_info : option string
}.

Definition noOptions : NavOptions := mkNavOptions None None [] None None.

(** The [options] of [prefetchPage]. *)
Record PrefetchOptions := mkPrefetchOptions {
  p_with : option string;
  p_ignoreSlowConnection : option bool
}.

Record Connection := mkConnection { saveData : bool; effectiveType : string }.

(** What [fetch] resolves to: the [content-type] header, the body (or
    [None] when reading it fails), and the redirect flag with the final
    URL. *)
Record Response := mkResponse {
  r_contentType : option string;
  r_text : option string;
  r_redirected : bool;
  r_url : string
}.

(** What [fetchPage] returns when it does not return [null]. *)
Record Page := mkPage {
  pg_html : string;
  pg_redirected : option string;
  pg_mediaType : string
}.

(** Calls into the browser, in the order the script makes them. *)
Inductive Effect :=
| EFetch (url : string) (body : option FormData)
| EAssignHref (h : string)
| EReload
| EPushState (st : HState) (url : string)
| EReplaceState (st : option HState) (url : option string)
| EScrollTo (x y : Z)
| EDispatch (type : string)
| ERunScript (id : nat).

(** What the script does not decide. [network url body] is [None] when
    [fetch] rejects. [parseURL url base] is [new URL(url, base)], [None]
    when it throws. [listenerCancels ev] says whether a listener outside
    the script calls [preventDefault] on a cancelable event.
    [hrefClearsState] says whether a fragment navigation leaves
    [history.state] empty, and [fragmentOffset] where it scrolls to. *)
Record Env := mkEnv {
  onLine : bool;
  connection : option Connection;
  supportsViewTransitions : bool;
  network : string -> option FormData -> option Response;
  parseURL : string -> option string -> option URL;
  parseFromString : string -> string -> node;
  listenerCancels : PageTransition -> bool;
  hrefClearsState : bool;
  fragmentOffset : string -> option (Z * Z)
}.

(** The live page and the module-level variables of the script.
    [navigationIndex] and the [index] of a state are JavaScript numbers
    that hold integers; the script adds one to [navigationIndex], which
    is exact between [-2^53] and [2^53 - 1] ([incrementsExactly]
    below). [currentLocation] is [undefined] until the script assigns it
    when it loads, which it does under the test [navigationInitialised]
    below; the world describes the page from then on. *)
Record World := mkWorld {
  doc : node;
  nextId : nat;
  activeElement : option nat;
  location : URL;
  history : History;
  scrollManual : bool;
  scrollX : Z;
  scrollY : Z;
  navigationIndex : Z;
  currentLocation : URL;
  skipTransition : bool;
  prefetchedPages : gset string;
  trace : list Effect
}.

(** [++n] is [n + 1] for these numbers. *)
Definition incrementsExactly (n : Z) : bool :=
  (Z.leb (- 2 ^ 53) n && Z.ltb n (2 ^ 53))%Z.

Definition setDoc (d : node) (w : World) : World :=
  mkWorld d (nextId w) (activeElement w) (location w) (history w) (scrollManual w)
    (scrollX w) (scrollY w) (navigationIndex w) (currentLocation w) (skipTransition w)
    (prefetchedPages w) (trace w).

Definition setNextId (n : nat) (w : World) : World :=
  mkWorld (doc w) n (activeElement w) (location w) (history w) (scrollManual w)
    (scrollX w) (scrollY w) (navigationIndex w) (currentLocation w) (skipTransition w)
    (prefetchedPages w) (trace w).

Definition setActiveElement (a : option nat) (w : World) : World :=
  mkWorld (doc w) (nextId w) a (location w) (history w) (scrollManual w)
    (scrollX w) (scrollY w) (navigationIndex w) (currentLocation w) (skipTransition w)
    (prefetchedPages w) (trace w).

Definition setLocation (u : URL) (w : World) : World :=
  mkWorld (doc w) (nextId w) (activeElement w) u (history w) (scrollManual w)
    (scrollX w) (scrollY w) (navigationIndex w) (currentLocation w) (skipTransition w)
    (prefetchedPages w) (trace w).

Definition setHistory (h : History) (w : World) : World :=
  mkWorld (doc w) (nextId w) (activeElement w) (location w) h (scrollManual w)
    (scrollX w) (scrollY w) (navigationIndex w) (currentLocation w) (skipTransition w)
    (prefetchedPages w) (trace w).

Definition setScrollManual (b : bool) (w : World) : World :=
  mkWorld (doc w) (nextId w) (activeElement w) (location w) (history w) b
    (scrollX w) (scrollY w) (navigationIndex w) (currentLocation w) (skipTransition w)
    (prefetchedPages w) (trace w).

Definition setScroll (x y : Z) (w : World) : World :=
  mkWorld (doc w) (nextId w) (activeElement w) (location w) (history w) (scrollManual w)
    x y (navigationIndex w) (currentLocation w) (skipTransition w)
    (prefetchedPages w) (trace w).

Definition setNavigationIndex (i : Z) (w : World) : World :=
  mkWorld (doc w) (nextId w) (activeElement w) (location w) (history w) (scrollManual w)
    (scrollX w) (scrollY w) i (currentLocation w) (skipTransition w)
    (prefetchedPages w) (trace w).

Definition setCurrentLocation (u : URL) (w : World) : World :=
  mkWorld (doc w) (nextId w) (activeElement w) (location w) (history w) (scrollManual w)
    (scrollX w) (scrollY w) (navigationIndex w) u (skipTransition w)
    (prefetchedPages w) (trace w).

Definition setSkipTransition (b : bool) (w : World) : World :=
  mkWorld (doc w) (nextId w) (activeElement w) (location w) (history w) (scrollManual w)
    (scrollX w) (scrollY w) (navigationIndex w) (currentLocation w) b
    (prefetchedPages w) (trace w).

Definition setPrefetchedPages (s : gset string) (w : World) : World :=
  mkWorld (doc w) (nextId w) (activeElement w) (location w) (history w) (scrollManual w)
    (scrollX w) (scrollY w) (navigationIndex w) (currentLocation w) (skipTransition w)
    s (trace w).

Definition logEffect (e : Effect) (w : World) : World :=
  mkWorld (doc w) (nextId w) (activeElement w) (location w) (history w) (scrollManual w)
    (scrollX w) (scrollY w) (navigationIndex w) (currentLocation w) (skipTransition w)
    (prefetchedPages w) (trace w ++ [e]).

(** ** The monad: state, and an exception that ends the call *)

Inductive result (A : Type) :=
| Ok (a : A)
| Throw (msg : string).
Arguments Ok {A} a.
Arguments Throw {A} msg.

Definition M (A : Type) : Type := World -> World * result A.

Definition ret {A} (a : A) : M A := fun w => (w, Ok a).

Definition throw {A} (msg : string) : M A := fun w => (w, Throw msg).

Definition bind {A B} (m : M A) (k : A -> M B) : M B :=
  fun w =>
    match m w with
    | (w', Ok a) => k a w'
    | (w', Throw msg) => (w', Throw msg)
    end.

Definition get : M World := fun w => (w, Ok w).
Definition modify (f : World -> World) : M unit := fun w => (f w, Ok tt).
Definition effect (e : Effect) : M unit := modify (logEffect e).

(** A call whose promise nobody awaits: what it throws is lost. *)
Definition detach {A} (m : M A) : M unit :=
  fun w => (fst (m w), Ok tt).

Declare Scope nav_scope.
Delimit Scope nav_scope with nav.
Notation "m >>= k" := (bind m k)
  (at level 60, right associativity) : nav_scope.
Notation "m >> k" := (bind m (fun _ => k))
  (at level 60, right associativity) : nav_scope.

Definition when (b : bool) (m : M unit) : M unit := if b then m else ret tt.

Fixpoint forEach {A} (l : list A) (body : A -> M unit) : M unit :=
  match l with
  | [] => ret tt
  | a :: r => bind (body a) (fun _ => forEach r body)
  end.

End Browser.

(* ===================================================================== *)
(** * The script *)
(* ===================================================================== *)

Module Penguin.
Import Str Dom Browser.
Local Open Scope nav_scope.

Definition BEFORE_PREPARATION : string := "mkdocs:before-preparation".
Definition AFTER_PREPARATION : string := "mkdocs:after-preparation".
Definition BEFORE_SWAP : string := "mkdocs:before-swap".
Definition AFTER_SWAP : string := "mkdocs:after-swap".

Definition isSome {A} (o : option A) : bool :=
  match o with Some _ => true | None => false end.

Definition dispatchEvent (e : string) : M unit := effect (EDispatch e).

(** [event.preventDefault()] *)
Definition preventDefault (ev : PageTransition) : PageTransition :=
  mkEvent (ev_type ev) (ev_cancelable ev) (ev_from ev) (ev_to ev) (ev_direction ev)
    (ev_navigationType ev) (ev_newDocument ev) (ev_cancelable ev || ev_defaultPrevented ev).

Definition setTo (u : URL) (ev : PageTransition) : PageTransition :=
  mkEvent (ev_type ev) (ev_cancelable ev) (ev_from ev) u (ev_direction ev)
    (ev_navigationType ev) (ev_newDocument ev) (ev_defaultPrevented ev).

Definition setNewDocument (d : node) (ev : PageTransition) : PageTransition :=
  mkEvent (ev_type ev) (ev_cancelable ev) (ev_from ev) (ev_to ev) (ev_direction ev)
    (ev_navigationType ev) (Some d) (ev_defaultPrevented ev).

Definition isViewTransitionsEnabled (w : World) : bool :=
  isSome (querySelector selEnabledMarker (doc w)).

(** ** History *)

Definition historyState (w : World) : option HState := hstate (current (history w)).

(** [history.pushState(st, "", url.href)] *)
Definition originalPushState (st : HState) (url : URL) : M unit :=
  get >>= fun w =>
  if negb (String.eqb (origin url) (origin (location w))) then throw "SecurityError"
  else
    modify (fun w =>
      logEffect (EPushState st (href url))
        (setLocation url
           (setHistory
              (mkHistory (current (history w) :: past (history w))
                 (mkHEntry (Some st) (href url)) [])
              w))).

(** [history.replaceState(st, "")] and [history.replaceState(st, "", url.href)] *)
Definition originalReplaceState (st : option HState) (url : option URL) : M unit :=
  get >>= fun w =>
  match url with
  | None =>
      modify (fun w =>
        logEffect (EReplaceState st None)
          (setHistory
             (mkHistory (past (history w)) (mkHEntry st (hurl (current (history w))))
                (future (history w)))
             w))
  | Some u =>
      if negb (String.eqb (origin u) (origin (location w))) then throw "SecurityError"
      else
        modify (fun w =>
          logEffect (EReplaceState st (Some (href u)))
            (setLocation u
               (setHistory
                  (mkHistory (past (history w)) (mkHEntry st (href u)) (future (history w)))
                  w)))
  end.

(** [updateHistoryState({ scrollX: x, scrollY: y })] *)
Definition updateHistoryState (x y : Z) : M unit :=
  get >>= fun w =>
  match historyState w with
  | Some st =>
      modify (setScrollManual true) >>
      originalReplaceState (Some (mkHState (index st) x y (userState st))) None
  | None => ret tt
  end.

Definition scrollTo (x y : Z) : M unit :=
  effect (EScrollTo x y) >> modify (setScroll x y).

(** [location.href = h] where the page is left for another one: the
    assignment is recorded, and the page stays as it is until the browser
    has loaded the other one. The browser answers the assignment inside
    the page instead when [h] is the URL of the page up to its fragment
    and has a fragment ([staysInPage]): that case is [fragmentNavigate]
    below when the URL is the current one, and is not described by
    [assignHref]. *)
Definition assignHref (h : string) : M unit := effect (EAssignHref h).

Definition staysInPage (u : URL) (w : World) : bool :=
  String.eqb (beforeChar "#"%char (href u)) (beforeChar "#"%char (href (location w)))
  && contains "#" (href u).

Definition createElement (t : string) : M elem :=
  fun w => (setNextId (S (nextId w)) w, Ok (Elem (nextId w) t [] "" None)).

(** [document.head.append(n)] *)
Definition appendToHead (n : node) : M unit :=
  get >>= fun w =>
  match docHead (doc w) with
  | Some h => modify (setDoc (appendN (nid (nodeElem h)) [n] (doc w)))
  | None => throw "TypeError"
  end.

(** [document.title = v]: the title element takes the text [v]; a
    document without one gets a new [title] element at the end of its
    head, and nothing happens when it has no head either. *)
Definition setDocumentTitle (v : string) : M unit :=
  get >>= fun w =>
  match retitleN v (doc w) with
  | Some d' => modify (setDoc d')
  | None =>
      match docHead (doc w) with
      | Some _ =>
          createElement "title" >>= fun title =>
          appendToHead (Node (withText v title) [])
      | None => ret tt
      end
  end.

(** [document.body.append(n)] *)
Definition appendToBody (n : node) : M unit :=
  get >>= fun w =>
  match docBody (doc w) with
  | Some b => modify (setDoc (appendN (nid (nodeElem b)) [n] (doc w)))
  | None => throw "TypeError"
  end.

Definition mapRoot (f : elem -> elem) (d : node) : node :=
  let 'Node e ks := d in Node (f e) ks.

(** [document.documentElement.setAttribute(name, value)] *)
Definition setRootAttribute (name value : string) : M unit :=
  modify (fun w => setDoc (mapRoot (withAttrs (setAttribute name value)) (doc w)) w).

Definition removeRootAttribute (name : string) : M unit :=
  modify (fun w => setDoc (mapRoot (withAttrs (removeAttribute name)) (doc w)) w).

Section WithEnv.
Variable E : Env.

(** ** Prefetch *)

Definition isSlowConnection : bool :=
  match connection E with
  | Some c => saveData c || contains "2g" (effectiveType c)
  | None => false
  end.

Definition canPrefetch (url : string) (ignoreSlowConnection : bool) (w : World) : bool :=
  if negb (onLine E) || (negb ignoreSlowConnection && isSlowConnection) then false
  else
    match parseURL E url (Some (href (location w))) with
    | Some targetUrl =>
        String.eqb (origin (location w)) (origin targetUrl)
        && (negb (String.eqb (pathname (location w)) (pathname targetUrl))
            || negb (String.eqb (search (location w)) (search targetUrl)))
        && negb (bool_decide (url ∈ prefetchedPages w))
    | None => false
    end.

(** [options?.ignoreSlowConnection ?? false] and [options?.with ?? "link"] *)
Definition ignoreSlowConnectionOf (options : option PrefetchOptions) : bool :=
  match options with
  | Some o => match p_ignoreSlowConnection o with Some b => b | None => false end
  | None => false
  end.

Definition prefetchWith (options : option PrefetchOptions) : string :=
  match options with
  | Some o => match p_with o with Some s => s | None => "link" end
  | None => "link"
  end.

Definition prefetchPage (url : string) (options : option PrefetchOptions) : M unit :=
  let ignoreSlowConnection := ignoreSlowConnectionOf options in
  get >>= fun w =>
  if negb (canPrefetch url ignoreSlowConnection w) then ret tt
  else
    modify (fun w => setPrefetchedPages ({[ url ]} ∪ prefetchedPages w) w) >>
    if String.eqb (prefetchWith options) "link" then
      createElement "link" >>= fun link =>
      appendToHead
        (Node (withAttrs (fun a => setAttribute "href" url (setAttribute "rel" "prefetch" a)) link) [])
    else effect (EFetch url None).

(** ** Fetching the destination *)

Definition contentTypeOf (header : option string) : string :=
  trim (beforeChar ";"%char (match header with Some h => h | None => "" end)).

Definition fetchPage (url : string) (options : NavOptions) : M (option Page) :=
  effect (EFetch url (o_formData options)) >>
  match network E url (o_formData options) with
  | None => ret None
  | Some response =>
      let contentType := contentTypeOf (r_contentType response) in
      if negb (String.eqb contentType "text/html")
         && negb (String.eqb contentType "application/xhtml+xml")
      then ret None
      else
        match r_text response with
        | Some html =>
            ret (Some (mkPage html
                         (if r_redirected response then Some (r_url response) else None)
                         contentType))
        | None => ret None
        end
  end.

Definition preloadStylesheets (newDocument : node) : M unit :=
  forEach (headStylesheetsN false newDocument) (fun link =>
    let href := match getAttribute "href" (attrs link) with Some h => h | None => "null" end in
    get >>= fun w =>
    if isSome (querySelector (selStylesheetHref href) (doc w)) then ret tt
    else
      createElement "link" >>= fun preloadLink =>
      appendToHead
        (Node (withAttrs (fun a =>
                 setAttribute "href" href
                   (setAttribute "as" "style" (setAttribute "rel" "preload" a)))
                 preloadLink) [])).

(** [event.loader()], as [dispatchBeforePreparation] defines it. *)
Definition loader (event : PageTransition) (options : NavOptions) : M PageTransition :=
  fetchPage (href (ev_to event)) options >>= fun response =>
  match response with
  | None => ret (preventDefault event)
  | Some page =>
      (match pg_redirected page with
       | Some u =>
           if String.eqb u "" then ret event
           else match parseURL E u None with
                | Some to' => ret (setTo to' event)
                | None => throw "TypeError"
                end
       | None => ret event
       end) >>= fun event =>
      let newDocument :=
        pruneN selNoscript (parseFromString E (pg_html page) (pg_mediaType page)) in
      let event := setNewDocument newDocument event in
      if negb (isSome (querySelector selEnabledMarker newDocument))
         && negb (isSome (o_formData options))
      then ret (preventDefault event)
      else preloadStylesheets newDocument >> ret event
  end.

(** The event [dispatchBeforePreparation] constructs. *)
Definition beforePreparationEvent (from to : URL) (direction : Direction)
    (navigationType : NavigationType) : PageTransition :=
  mkEvent BEFORE_PREPARATION true from to direction navigationType None false.

Definition dispatchBeforePreparation (from to : URL) (direction : Direction)
    (navigationType : NavigationType) (options : NavOptions) : M PageTransition :=
  let event := beforePreparationEvent from to direction navigationType in
  effect (EDispatch BEFORE_PREPARATION) >>
  let event := if listenerCancels E event then preventDefault event else event in
  if negb (ev_defaultPrevented event) then
    loader event options >>= fun event =>
    (if negb (ev_defaultPrevented event) then
       dispatchEvent AFTER_PREPARATION >>
       match ev_navigationType event with
       | nt_traverse => ret tt
       | _ => get >>= fun w => updateHistoryState (scrollX w) (scrollY w)
       end
     else ret tt) >>
    ret event
  else ret event.

(** ** The DOM swap *)

(** What [preserveActiveElement] returns: [{ element, start, end }]. *)
Record Saved := mkSaved {
  s_element : option elem;
  s_start : option nat;
  s_end : option nat
}.

(** [element instanceof HTMLInputElement || element instanceof HTMLTextAreaElement] *)
Definition isTextControl (e : elem) : bool :=
  String.eqb (tag e) "input" || String.eqb (tag e) "textarea".

(** The browser's "set the selection range": offsets beyond the value
    point at its end, and an end before the start collapses the range. *)
Definition setSelectionRange (s e : nat) (c : textctl) : textctl :=
  let s' := Nat.min s (vlen c) in
  let e' := Nat.min e (vlen c) in
  TextCtl (vlen c) (Nat.min s' e') e'.

(** [element.selectionStart = v] and [element.selectionEnd = v] *)
Definition setSelectionStart (v : option nat) (c : textctl) : textctl :=
  let s := match v with Some s => s | None => 0 end in
  setSelectionRange s (Nat.max (selEnd c) s) c.

Definition setSelectionEnd (v : option nat) (c : textctl) : textctl :=
  setSelectionRange (selStart c) (match v with Some e => e | None => 0 end) c.

Definition preserveActiveElement (w : World) : Saved :=
  match activeElement w with
  | None => mkSaved None None None
  | Some a =>
      match pathN a (doc w) with
      | Some path =>
          if existsb selPersistAny path then
            match last path with
            | Some el =>
                if isTextControl el then
                  mkSaved (Some el)
                    (match ctl el with Some c => Some (selStart c) | None => None end)
                    (match ctl el with Some c => Some (selEnd c) | None => None end)
                else mkSaved (Some el) None None
            | None => mkSaved None None None
            end
          else mkSaved None None None
      | None => mkSaved None None None
      end
  end.

Definition restoreActiveElement (saved : Saved) : M unit :=
  match s_element saved with
  | None => ret tt
  | Some el =>
      modify (fun w =>
        if connected (nid el) (doc w) then setActiveElement (Some (nid el)) w else w) >>
      if isTextControl el then
        match ctl el with
        | None => throw "InvalidStateError"
        | Some _ =>
            modify (fun w =>
              setDoc (updateN (nid el)
                        (fun e => withCtl (option_map (setSelectionStart (s_start saved)) (ctl e)) e)
                        (doc w)) w) >>
            modify (fun w =>
              setDoc (updateN (nid el)
                        (fun e => withCtl (option_map (setSelectionEnd (s_end saved)) (ctl e)) e)
                        (doc w)) w)
        end
      else ret tt
  end.

(** The attributes of the root after the merge: those of the incoming
    root, then the old ones named [data-mkdocs-...]. *)
Definition mergeRootAttributes (old new : list attr) : list attr :=
  fold_left (fun acc a => setAttribute (fst a) (snd a) acc)
    (new ++ List.filter (fun a => startsWith "data-mkdocs-" (fst a)) old) [].

Definition findMatchingElement (element : elem) (newDocument : node) : M (option elem) :=
  let inNewHead (sel : elem -> bool) : M (option elem) :=
    match docHead newDocument with
    | Some h => ret (querySelectorIn sel h)
    | None => throw "TypeError"
    end in
  let byStylesheet : M (option elem) :=
    if selStylesheet element then
      inNewHead (selStylesheetHref
                   (match getAttribute "href" (attrs element) with
                    | Some h => h
                    | None => "null"
                    end))
    else ret None in
  match getAttribute persistAttr (attrs element) with
  | Some persistId =>
      if String.eqb persistId "" then byStylesheet else inNewHead (selPersist persistId)
  | None => byStylesheet
  end.

(** [el.remove()] for the element [i] of the document [d]. *)
Definition removeFrom (i : nat) (d : node) : node :=
  match substDoc i [] d with
  | Some (_, d') => d'
  | None => d
  end.

(** The loop over the children of the live head; the incoming document
    loses the children that are matched. *)
Fixpoint reconcileHead (children : list elem) (newDocument : node) : M node :=
  match children with
  | [] => ret newDocument
  | child :: rest =>
      findMatchingElement child newDocument >>= fun newChild =>
      match newChild with
      | Some nc => reconcileHead rest (removeFrom (nid nc) newDocument)
      | None =>
          modify (fun w => setDoc (removeFrom (nid child) (doc w)) w) >>
          reconcileHead rest newDocument
      end
  end.

(** Take the element [i] out of where it is now: the document, or the
    nodes that were taken out of it ([detached]). *)
Definition takeOut (i : nat) (d : node) (detached : list node)
    : option (node * node * list node) :=
  match substDoc i [] d with
  | Some (x, d') => Some (x, d', detached)
  | None =>
      match substF i [] detached with
      | Some (x, det') => Some (x, d, det')
      | None => None
      end
  end.

(** The loop over the persistent elements of the old body. *)
Fixpoint restorePersisted (preserved : list elem) (detached : list node) : M unit :=
  match preserved with
  | [] => ret tt
  | p :: rest =>
      get >>= fun w =>
      let id := match getAttribute persistAttr (attrs p) with Some v => v | None => "null" end in
      match querySelector (selPersist id) (doc w) with
      | None => restorePersisted rest detached
      | Some newElement =>
          if Nat.eqb (nid newElement) (nid p) then restorePersisted rest detached
          else
            match takeOut (nid p) (doc w) detached with
            | None => restorePersisted rest detached
            | Some (psub, d1, det1) =>
                match substDoc (nid newElement) [psub] d1 with
                | Some (old, d2) => modify (setDoc d2) >> restorePersisted rest (old :: det1)
                | None => throw "HierarchyRequestError"
                end
            end
      end
  end.

(** [document.body.replaceWith(newBody)]; an element that leaves the
    document loses the focus. *)
Definition replaceBody (oldBody : node) (newBody : option node) : M unit :=
  get >>= fun w =>
  match substDoc (nid (nodeElem oldBody))
          (match newBody with Some b => [b] | None => [] end) (doc w) with
  | Some (_, d') =>
      modify (fun w =>
        setActiveElement
          (match activeElement w with
           | Some a => if connected a d' then Some a else None
           | None => None
           end)
          (setDoc d' w))
  | None => throw "HierarchyRequestError"
  end.

(** [swapDocument(event)]; [None] is a call without the argument. *)
Definition swapDocument (event : option PageTransition) : M unit :=
  match event with
  | None => throw "TypeError"
  | Some event =>
      match ev_newDocument event with
      | None =>
          (* the attributes of the root are removed before the incoming
             document is read *)
          modify (fun w => setDoc (mapRoot (withAttrs (fun _ => [])) (doc w)) w) >>
          throw "TypeError"
      | Some newDocument =>
          modify (fun w =>
            setDoc (mapRoot
                      (withAttrs (fun old =>
                         mergeRootAttributes old (attrs (nodeElem newDocument))))
                      (doc w)) w) >>
          get >>= fun w =>
          match docHead (doc w) with
          | None => throw "TypeError"
          | Some head =>
              reconcileHead (map nodeElem (nodeKids head)) newDocument >>= fun newDocument =>
              get >>= fun w =>
              match docHead (doc w), docHead newDocument with
              | Some head, Some newHead =>
                  modify (setDoc (appendN (nid (nodeElem head)) (nodeKids newHead) (doc w))) >>
                  get >>= fun w =>
                  match docBody (doc w) with
                  | None => throw "TypeError"
                  | Some oldBody =>
                      let activeElement := preserveActiveElement w in
                      replaceBody oldBody (docBody newDocument) >>
                      restorePersisted (querySelectorAllIn selPersistAny oldBody) [oldBody] >>
                      restoreActiveElement activeElement
                  end
              | _, _ => throw "TypeError"
              end
          end
      end
  end.

(** ** Script re-execution *)

(** The loop of [executeScripts] passes over a script that carries the
    marker or whose type is not a script type. *)
Definition skipsScript (script : elem) : bool :=
  attrIs execAttr "" script
  || match getAttribute "type" (attrs script) with
     | Some type =>
         negb (String.eqb type "")
         && negb (String.eqb type "module")
         && negb (String.eqb type "text/javascript")
     | None => false
     end.

(** The element the loop creates in place of [script]. *)
Definition recreatedScript (i : nat) (script : elem) : elem :=
  Elem i "script"
    (setAttribute execAttr ""
       (fold_left (fun acc a => setAttribute (fst a) (snd a) acc) (attrs script) []))
    (text script) None.

Definition executeScript (script : elem) : M unit :=
  if skipsScript script then ret tt
  else
    createElement "script" >>= fun created =>
    let newScript := recreatedScript (nid created) script in
    get >>= fun w =>
    match substDoc (nid script) [Node newScript []] (doc w) with
    | Some (_, d') => modify (setDoc d') >> effect (ERunScript (nid newScript))
    | None => ret tt
    end.

(** [document.scripts] *)
Definition documentScripts (w : World) : list elem :=
  List.filter selScript (elts (doc w)).

Definition executeScripts : M unit :=
  get >>= fun w => forEach (documentScripts w) executeScript.

Definition dispatchPageLoad : M unit := dispatchEvent "mkdocs:page-load".

(** The text of the announcer is set by a timer that is not run here. *)
Definition createRouteAnnouncer : M unit :=
  createElement "div" >>= fun announcer =>
  appendToBody
    (Node (withAttrs (fun a =>
             setAttribute "class" "route-announcer"
               (setAttribute "aria-atomic" "true" (setAttribute "aria-live" "assertive" a)))
             announcer) []).

Definition getFallbackAnimation (w : World) : option string :=
  match querySelector selFallbackMeta (doc w) with
  | Some meta => getAttribute "content" (attrs meta)
  | None => Some "animate"
  end.

(** The test under which the script, when it loads, assigns
    [currentLocation] and registers [handlePopState]:
    [supportsViewTransitions || getFallbackAnimation() !== "none"]. The
    script makes the test once, on the document as it finds it;
    [navigationInitialised w] makes it on the page [w], for a page whose
    declaration of the fallback is as it was then. *)
Definition navigationInitialised (w : World) : bool :=
  supportsViewTransitions E
  || negb (match getFallbackAnimation w with
           | Some f => String.eqb f "none"
           | None => false
           end).

(** [animateTransition(phase)]; the animations it waits for are taken as
    finished. *)
Definition animateTransition (phase : string) : M unit :=
  setRootAttribute "data-mkdocs-transition-fallback" phase.

(** ** Location and history after a navigation *)

(** [location.href = to.href] inside [updateLocation]: the URL is the
    current one, so the browser moves to the fragment. *)
Definition fragmentNavigate (to : URL) : M unit :=
  effect (EAssignHref (href to)) >>
  modify (fun w =>
    let w :=
      if hrefClearsState E then
        setHistory (mkHistory (past (history w))
                      (mkHEntry None (hurl (current (history w))))
                      (future (history w))) w
      else w in
    match fragmentOffset E (href to) with
    | Some (x, y) => setScroll x y w
    | None => w
    end).

Definition historyIsReplace (options : NavOptions) : bool :=
  match o_history options with
  | Some h => String.eqb h "replace"
  | None => false
  end.

Definition updateLocation (to from : URL) (options : NavOptions) (title : string)
    (scrollState : option HState) : M unit :=
  let isSameUrl :=
    String.eqb (pathname from) (pathname to) && String.eqb (search from) (search to) in
  get >>= fun w =>
  let currentTitle := documentTitle (doc w) in
  setDocumentTitle title >>
  get >>= fun w =>
  (if negb (String.eqb (href to) (href (location w))) && negb (isSome scrollState) then
     if historyIsReplace options then
       match historyState w with
       | Some state =>
           originalReplaceState
             (Some (mkHState (index state) (hScrollX state) (hScrollY state) (o_state options)))
             (Some to)
       | None => throw "TypeError"
       end
     else
       modify (fun w => setNavigationIndex (navigationIndex w + 1)%Z w) >>
       get >>= fun w =>
       originalPushState (mkHState (navigationIndex w) 0 0 (o_state options)) to
   else ret tt) >>
  setDocumentTitle currentTitle >>
  modify (setCurrentLocation to) >>
  if isSameUrl then ret tt
  else
    scrollTo 0 0 >>
    (match scrollState with
     | Some s => scrollTo (hScrollX s) (hScrollY s)
     | None =>
         if negb (String.eqb (hash to) "") then
           modify (setScrollManual false) >>
           get >>= fun w =>
           let state := historyState w in
           fragmentNavigate to >>
           get >>= fun w =>
           if isSome (historyState w) then ret tt
           else
             originalReplaceState state None >>
             when isSameUrl (effect (EDispatch "popstate"))
         else ret tt
     end) >>
    modify (setScrollManual true).

(** ** The transition *)

(** [event.swap = swapFn.bind(event)] binds [this] and no argument, and
    [event.swap()] passes none: the parameter of [swapFn] is
    [undefined]. *)
Definition dispatchBeforeSwap (transitionEvent : PageTransition)
    (swapFn : option PageTransition -> M unit) : M PageTransition :=
  let event :=
    mkEvent BEFORE_SWAP false (ev_from transitionEvent) (ev_to transitionEvent)
      (ev_direction transitionEvent) (ev_navigationType transitionEvent)
      (ev_newDocument transitionEvent) false in
  effect (EDispatch BEFORE_SWAP) >>
  swapFn None >>
  ret event.

Definition isAnimate (fallback : option string) : bool :=
  match fallback with
  | Some f => String.eqb f "animate"
  | None => false
  end.

Definition performPageSwap (transitionEvent : PageTransition) (options : NavOptions)
    (scrollState : option HState) (fallback : option string) : M unit :=
  get >>= fun w =>
  (if negb (skipTransition w) then
     setRootAttribute "data-mkdocs-transition" (directionName (ev_direction transitionEvent)) >>
     when (isAnimate fallback) (animateTransition "old")
   else throw "DOMException") >>
  get >>= fun w =>
  let title := documentTitle (doc w) in
  dispatchBeforeSwap transitionEvent swapDocument >>= fun swapEvent =>
  updateLocation (ev_to swapEvent) (ev_from swapEvent) options title scrollState >>
  dispatchEvent AFTER_SWAP >>
  get >>= fun w =>
  when (isAnimate fallback && negb (skipTransition w)) (animateTransition "new").

Definition navigationTypeOf (options : NavOptions) (scrollState : option HState)
    : NavigationType :=
  match scrollState with
  | Some _ => nt_traverse
  | None => if historyIsReplace options then nt_replace else nt_push
  end.

(** The test that sends a navigation inside the page straight to
    [updateLocation]. *)
Definition isHashNavigation (direction : Direction) (fromUrl toUrl : URL) : bool :=
  String.eqb (pathname fromUrl) (pathname toUrl)
  && String.eqb (search fromUrl) (search toUrl)
  && match direction with
     | dir_back => negb (String.eqb (hash fromUrl) "")
     | dir_forward => negb (String.eqb (hash toUrl) "")
     end.

Definition navigateToPage (direction : Direction) (fromUrl toUrl : URL)
    (options : NavOptions) (scrollState : option HState) : M unit :=
  get >>= fun w =>
  if negb (isViewTransitionsEnabled w)
     || negb (String.eqb (origin (location w)) (origin toUrl))
  then assignHref (href toUrl)
  else
    let navigationType := navigationTypeOf options scrollState in
    (match navigationType with
     | nt_traverse => ret tt
     | _ => updateHistoryState (scrollX w) (scrollY w)
     end) >>
    if isHashNavigation direction fromUrl toUrl then
      get >>= fun w =>
      updateLocation toUrl fromUrl options (documentTitle (doc w)) scrollState
    else
      dispatchBeforePreparation fromUrl toUrl direction navigationType options
        >>= fun transitionEvent =>
      if ev_defaultPrevented transitionEvent then assignHref (href toUrl)
      else
        modify (setSkipTransition false) >>
        get >>= fun w =>
        let fallback :=
          if supportsViewTransitions E then None else getFallbackAnimation w in
        performPageSwap transitionEvent options scrollState fallback >>
        (* viewTransition.ready.then(...) *)
        detach (executeScripts >> dispatchPageLoad >> createRouteAnnouncer) >>
        (* viewTransition.finished.then(...) *)
        get >>= fun w =>
        when (supportsViewTransitions E || (isAnimate fallback && negb (skipTransition w)))
          (removeRootAttribute "data-mkdocs-transition" >>
           removeRootAttribute "data-mkdocs-transition-fallback").

Definition navigate (url : string) (options : NavOptions) : M unit :=
  get >>= fun w =>
  match parseURL E url (Some (href (location w))) with
  | Some to => navigateToPage dir_forward (currentLocation w) to options None
  | None => throw "TypeError"
  end.

(** The direction of a traversal, from the index of the entry arrived at
    and the last known index. *)
Definition popDirection (index navigationIndex : Z) : Direction :=
  if Z.gtb index navigationIndex then dir_forward else dir_back.

(** [handlePopState(event)], given [event.state]. *)
Definition handlePopState (eventState : option HState) : M unit :=
  get >>= fun w =>
  if negb (isViewTransitionsEnabled w) && isSome eventState then effect EReload
  else
    match eventState with
    | None => ret tt
    | Some _ =>
        match historyState w with
        | None => throw "TypeError"
        | Some state =>
            let direction := popDirection (index state) (navigationIndex w) in
            modify (setNavigationIndex (index state)) >>
            get >>= fun w =>
            detach (navigateToPage direction (currentLocation w) (location w)
                      noOptions (Some state))
        end
    end.

End WithEnv.

End Penguin.

(* ===================================================================== *)
(** * What an observer of the browser sees *)
(* ===================================================================== *)

Module Observe.
Import Str Dom Browser Penguin.
Local Open Scope nav_scope.

Definition isFetch (e : Effect) : bool :=
  match e with EFetch _ _ => true | _ => false end.

Definition isPush (e : Effect) : bool :=
  match e with EPushState _ _ => true | _ => false end.

Definition isHistoryWrite (e : Effect) : bool :=
  match e with EPushState _ _ | EReplaceState _ _ => true | _ => false end.

(** The requests made so far, and the calls of [pushState] and
    [replaceState] made so far. *)
Definition requests (w : World) : list Effect := List.filter isFetch (trace w).
Definition historyWrites (w : World) : list Effect := List.filter isHistoryWrite (trace w).

(** A computation leaves an observation of the world as it was, however
    it ends. *)
Definition preserves {A B} (obs : World -> B) (m : M A) : Prop :=
  forall w, obs (fst (m w)) = obs w.

(** What a traversal must leave alone: the session history, the
    location, the navigation index and the record of history calls. *)
Definition historyView (w : World) : History * URL * Z * list Effect :=
  (history w, location w, navigationIndex w, historyWrites w).

(** What the history calls leave alone: the document and the record of
    requests. *)
Definition pageView (w : World) : node * list Effect := (doc w, requests w).

(** The world after the scroll snapshot that [navigateToPage] takes
    first, unless the navigation is a traversal. *)
Definition afterScrollSnapshot (options : NavOptions) (scrollState : option HState)
    (w : World) : World :=
  match navigationTypeOf options scrollState with
  | nt_traverse => w
  | _ => fst (updateHistoryState (scrollX w) (scrollY w) w)
  end.

(** The history call of that snapshot. *)
Definition snapshotWrites (scrollState : option HState) (w : World) : list Effect :=
  match scrollState, historyState w with
  | None, Some st =>
      [EReplaceState (Some (mkHState (index st) (scrollX w) (scrollY w) (userState st))) None]
  | _, _ => []
  end.

End Observe.

(* ===================================================================== *)
(** * Well-formed pages *)
(* ===================================================================== *)

Module Shape.
Import Str Dom Browser Penguin.

(** The identities of the elements of a page are distinct, and
    [createElement] hands out identities that are not in use. *)
Definition wellFormed (w : World) : Prop :=
  NoDup (ids [doc w]) /\ Forall (fun i => i < nextId w) (ids [doc w]).

(** [onPath pi e f]: the element [e] stands in the forest [f] below the
    ancestors [pi], outermost first. *)
Inductive onPath : list elem -> elem -> list node -> Prop :=
| onPath_here e ks f1 f2 : onPath [] e (f1 ++ Node e ks :: f2)
| onPath_below a ks f1 f2 pi e :
    onPath pi e ks -> onPath (a :: pi) e (f1 ++ Node a ks :: f2).

(** A document as the HTML parser builds it: the root with a head and a
    body. *)
Definition htmlShape (d : node) (root head : elem) (headKids : list node)
    (body : elem) (bodyKids : list node) : Prop :=
  d = Node root [Node head headKids; Node body bodyKids]
  /\ tag head = "head" /\ tag body = "body".

(** The elements in [pi] carry no persistence marker. *)
Definition persistFree (pi : list elem) : Prop :=
  Forall (fun a => selPersistAny a = false) pi.

(** The state of the loop over the persistent elements: the document [d]
    and the nodes taken out of it ([det]) share no identity; [X], marked
    [x], stands in the document below the unmarked ancestors [PX]; [Y]
    stands among the nodes taken out, below [PY]. *)
Record SwapInv (x : string) (X : elem) (PX : list elem) (Y : elem) (PY : list elem)
    (d : node) (det : list node) : Prop := mkSwapInv {
  inv_nodup : NoDup (ids [d] ++ ids det);
  inv_doc : onPath PX X [d];
  inv_det : onPath PY Y det;
  inv_free : persistFree PX;
  inv_x : selPersist x X = true
}.

(** A persistent element the loop may move without disturbing [X] and
    [Y]: it is marked with another identifier, it is none of the
    elements on their paths, and it is somewhere. *)
Definition Movable (x : string) (X : elem) (PX : list elem) (Y : elem) (PY : list elem)
    (d : node) (det : list node) (p : elem) : Prop :=
  selPersistAny p = true
  /\ selPersist x p = false
  /\ (nid p ∉ map nid (PX ++ X :: (PY ++ [Y])))
  /\ p ∈ elts d ++ eltsF det.

End Shape.

(* ===================================================================== *)
(** * Prefetch strategies *)
(* ===================================================================== *)

Module Strategy.
Import Str Dom Browser Penguin.
Local Open Scope nav_scope.

(** The module-level variables [prefetchAll], [defaultPrefetchStrategy]
    and [prefetchInitialized]. *)
Record PrefetchVars := mkPrefetchVars {
  prefetchAll : bool;
  defaultPrefetchStrategy : string;
  prefetchInitialized : bool
}.

(** Their values when the script is loaded. *)
Definition initialPrefetchVars : PrefetchVars := mkPrefetchVars false "hover" false.

(** The [options] of [initializePrefetch]. *)
Record InitOptions := mkInitOptions {
  i_prefetchAll : option bool;
  i_defaultStrategy : option string
}.

(** The assignments of [initializePrefetch(options)]; the listeners it
    goes on to register are the functions below. *)
Definition initializePrefetch (options : option InitOptions) (v : PrefetchVars)
    : PrefetchVars :=
  if prefetchInitialized v then v
  else
    mkPrefetchVars
      (match options with
       | Some o => match i_prefetchAll o with Some b => b | None => false end
       | None => false
       end)
      (match options with
       | Some o => match i_defaultStrategy o with Some s => s | None => "hover" end
       | None => "hover"
       end)
      true.

(** [element.dataset.mkdocsPrefetch]: [None] is [undefined]. *)
Definition prefetchAttrOf (element : elem) : option string :=
  getAttribute "data-mkdocs-prefetch" (attrs element).

(** [shouldPrefetch(element, strategy)]; [element] is [None] for a
    target that is not an element. The [tag] of an element of the page is
    its local name, so the test [tagName !== "A"] reads [tag <> "a"]. *)
Definition shouldPrefetch (E : Env) (v : PrefetchVars) (element : option elem)
    (strategy : string) : bool :=
  match element with
  | None => false
  | Some el =>
      if negb (String.eqb (tag el) "a") then false
      else
        let prefetchAttr := prefetchAttrOf el in
        if match prefetchAttr with Some a => String.eqb a "false" | None => false end
        then false
        else if String.eqb strategy "tap"
                && (isSome prefetchAttr || prefetchAll v)
                && isSlowConnection E
        then true
        else if (negb (isSome prefetchAttr) && prefetchAll v)
                || match prefetchAttr with Some a => String.eqb a "" | None => false end
        then String.eqb strategy (defaultPrefetchStrategy v)
        else match prefetchAttr with
             | Some a => String.eqb a strategy
             | None => false
             end
  end.

(** [link.href] of an anchor: the [href] attribute resolved against the
    URL of the page (a page without a [base] element); the empty string
    without the attribute, and the attribute as it is when it does not
    parse. *)
Definition anchorHref (E : Env) (w : World) (link : elem) : string :=
  match getAttribute "href" (attrs link) with
  | None => ""
  | Some h =>
      match parseURL E h (Some (href (location w))) with
      | Some u => href u
      | None => h
      end
  end.

(** The listener of [setupTapPrefetch] for [touchstart] and [mousedown]
    on the target [target]. *)
Definition onTap (E : Env) (v : PrefetchVars) (target : option elem) : M unit :=
  if shouldPrefetch E v target "tap" then
    match target with
    | Some link =>
        get >>= fun w =>
        prefetchPage E (anchorHref E w link)
          (Some (mkPrefetchOptions (Some "fetch") (Some true)))
    | None => ret tt
    end
  else ret tt.

(** [document.getElementsByTagName("a")] *)
Definition anchors (w : World) : list elem :=
  List.filter (fun e => String.eqb (tag e) "a") (elts (doc w)).

(** The callback of [setupLoadPrefetch]. *)
Definition loadPrefetch (E : Env) (v : PrefetchVars) : M unit :=
  get >>= fun w =>
  forEach (anchors w) (fun link =>
    if shouldPrefetch E v (Some link) "load" then
      get >>= fun w =>
      prefetchPage E (anchorHref E w link) (Some (mkPrefetchOptions (Some "link") None))
    else ret tt).

(** ** The hover timer *)

(** The variable [hoverTimeout] of [setupHoverPrefetch] ([0] stands for
    its two falsy values, [undefined] and [0]), the timers of the hover
    code that have not fired, each with the [href] its callback
    prefetches, and the identifier the browser hands out next. *)
Record HoverState := mkHoverState {
  hoverTimeout : nat;
  hoverPending : gmap nat string;
  hoverNext : nat
}.

Definition initialHoverState : HoverState := mkHoverState 0 ∅ 1.

(** [clearTimeout(id)] *)
Definition clearHover (id : nat) (h : HoverState) : HoverState :=
  mkHoverState (hoverTimeout h) (delete id (hoverPending h)) (hoverNext h).

(** [handleHover(e)] with [e.target.href = href] *)
Definition handleHover (href : string) (h : HoverState) : HoverState :=
  let h := if Nat.eqb (hoverTimeout h) 0 then h else clearHover (hoverTimeout h) h in
  mkHoverState (hoverNext h) (<[hoverNext h := href]> (hoverPending h)) (S (hoverNext h)).

Definition handleHoverEnd (h : HoverState) : HoverState :=
  if Nat.eqb (hoverTimeout h) 0 then h
  else mkHoverState 0 (delete (hoverTimeout h) (hoverPending h)) (hoverNext h).

(** The listener of [focusin]. *)
Definition onFocusIn (E : Env) (v : PrefetchVars) (w : World) (target : option elem)
    (h : HoverState) : HoverState :=
  if shouldPrefetch E v target "hover" then
    match target with
    | Some link => handleHover (anchorHref E w link) h
    | None => h
    end
  else h.

(** What happens at the hover code, one event after the other: the
    pointer enters a link, it leaves one, or the browser runs the timer
    [id]. *)
Inductive HoverEvent :=
| PointerEnter (href : string)
| PointerLeave
| TimerFires (id : nat).

(** One event: the new state, and the URL that is handed to
    [prefetchPage(href, { with: "fetch" })] when a timer runs. *)
Definition hoverStep (ev : HoverEvent) (h : HoverState) : HoverState * option string :=
  match ev with
  | PointerEnter href => (handleHover href h, None)
  | PointerLeave => (handleHoverEnd h, None)
  | TimerFires id =>
      match hoverPending h !! id with
      | Some href =>
          (mkHoverState (hoverTimeout h) (delete id (hoverPending h)) (hoverNext h),
           Some href)
      | None => (h, None)
      end
  end.

Fixpoint hoverRun (evs : list HoverEvent) (h : HoverState)
    : HoverState * list string :=
  match evs with
  | [] => (h, [])
  | ev :: rest =>
      let '(h1, out) := hoverStep ev h in
      let '(h2, outs) := hoverRun rest h1 in
      (h2, match out with Some u => u :: outs | None => outs end)
  end.

(** What the hover code keeps true of its timers: one that has not
    fired is the one [hoverTimeout] names, and identifiers are positive
    and handed out in increasing order. *)
Definition hoverInv (h : HoverState) : Prop :=
  (forall id href, hoverPending h !! id = Some href -> id = hoverTimeout h /\ 0 < id)
  /\ hoverTimeout h < hoverNext h.

(** The callback of the hover timer. *)
Definition hoverPrefetch (E : Env) (href : string) : M unit :=
  prefetchPage E href (Some (mkPrefetchOptions (Some "fetch") None)).

End Strategy.

(* ===================================================================== *)
(** * The session history over a visit *)
(* ===================================================================== *)

Module Session.
Import Str Dom Browser Penguin.
Local Open Scope nav_scope.

(** The start-up code of the navigation state: a restored entry gives
    the index and the scroll position, a fresh entry of a page that has
    opted in gets its state. *)
Definition initializeNavigation : M unit :=
  get >>= fun w =>
  match historyState w with
  | Some st =>
      modify (setNavigationIndex (index st)) >>
      scrollTo (hScrollX st) (hScrollY st)
  | None =>
      if isViewTransitionsEnabled w then
        originalReplaceState
          (Some (mkHState (navigationIndex w) (scrollX w) (scrollY w) [])) None >>
        modify (setScrollManual true)
      else ret tt
  end.

Definition trackScrollPosition : M unit :=
  get >>= fun w =>
  match historyState w with
  | Some st =>
      if negb (Z.eqb (scrollX w) (hScrollX st)) || negb (Z.eqb (scrollY w) (hScrollY st))
      then updateHistoryState (scrollX w) (scrollY w)
      else ret tt
  | None => ret tt
  end.

(** The variables of the scroll-end detection for browsers without
    [scrollend]: whether [scrollTimer] holds an interval, the last
    position seen, and the index of the entry in which the scrolling
    began ([None] is [undefined]). *)
Record Poll := mkPoll {
  scrollTimer : bool;
  lastScrollX : Z;
  lastScrollY : Z;
  lastIndex : option Z
}.

Definition optionZ_eqb (a b : option Z) : bool :=
  match a, b with
  | Some x, Some y => Z.eqb x y
  | None, None => true
  | _, _ => false
  end.

(** The listener of [scroll]. *)
Definition onScroll (p : Poll) : M Poll :=
  get >>= fun w =>
  if scrollTimer p then ret p
  else
    match historyState w with
    | None => throw "TypeError"
    | Some st => ret (mkPoll true (scrollX w) (scrollY w) (Some (index st)))
    end.

(** [checkScrollEnd], which the interval runs every 50 ms. *)
Definition checkScrollEnd (p : Poll) : M Poll :=
  get >>= fun w =>
  if negb (optionZ_eqb (lastIndex p) (option_map index (historyState w))) then
    ret (mkPoll false (lastScrollX p) (lastScrollY p) (lastIndex p))
  else if Z.eqb (lastScrollY p) (scrollY w) && Z.eqb (lastScrollX p) (scrollX w) then
    trackScrollPosition >>
    ret (mkPoll false (lastScrollX p) (lastScrollY p) (lastIndex p))
  else ret (mkPoll (scrollTimer p) (scrollX w) (scrollY w) (lastIndex p)).

(** ** The indices of the entries *)

Definition entryIndex (e : HEntry) : option Z := option_map index (hstate e).

(** A list of indices, nearest first, that go down from [i], and one
    that goes up from [i]; an entry without a state ([None]) breaks
    either. *)
Fixpoint descending (i : Z) (l : list (option Z)) : bool :=
  match l with
  | [] => true
  | Some j :: r => Z.ltb j i && descending j r
  | None :: _ => false
  end.

Fixpoint ascending (i : Z) (l : list (option Z)) : bool :=
  match l with
  | [] => true
  | Some j :: r => Z.ltb i j && ascending j r
  | None :: _ => false
  end.

(** The indices grow along the session history: they go down over the
    entries behind the current one and up over the entries ahead. *)
Definition ordered (h : History) : bool :=
  match entryIndex (current h) with
  | Some i =>
      descending i (map entryIndex (past h)) && ascending i (map entryIndex (future h))
  | None => false
  end.

(** The variable [navigationIndex] is the index of the current entry. *)
Definition inSync (w : World) : bool :=
  match entryIndex (current (history w)) with
  | Some i => Z.eqb i (navigationIndex w)
  | None => false
  end.

(** The browser moves to the entry behind the current one
    ([history.back()]) or to the one ahead ([history.forward()]), whose
    URL is [u]; the variables of the script stay as they are. [None]
    when there is no such entry. *)
Definition stepBack (u : URL) (w : World) : option World :=
  match past (history w) with
  | e :: r =>
      Some (setLocation u
              (setHistory (mkHistory r e (current (history w) :: future (history w))) w))
  | [] => None
  end.

Definition stepForward (u : URL) (w : World) : option World :=
  match future (history w) with
  | e :: r =>
      Some (setLocation u
              (setHistory (mkHistory (current (history w) :: past (history w)) e r) w))
  | [] => None
  end.

(** What the code that follows a navigation must leave alone for the
    indices to stay in order: the index variable and the indices of the
    entries. *)
Definition indexView (w : World)
    : Z * option Z * list (option Z) * list (option Z) :=
  (navigationIndex w, entryIndex (current (history w)),
   map entryIndex (past (history w)), map entryIndex (future (history w))).

End Session.

(* ===================================================================== *)
(** * Clicks on links *)
(* ===================================================================== *)

Module Links.
Import Str Dom Browser Penguin Strategy.
Local Open Scope nav_scope.

(** A [click] event: its target and the first entry of its composed
    path ([None] for a target that is not an element of the page), and
    the properties the listener reads. *)
Record ClickEvent := mkClickEvent {
  c_target : option nat;
  c_composed : bool;
  c_path0 : option nat;
  c_button : Z;
  c_metaKey : bool;
  c_ctrlKey : bool;
  c_altKey : bool;
  c_shiftKey : bool;
  c_defaultPrevented : bool
}.

(** [element.closest(sel)] for the element [i] of the page: the nearest
    of the element and its ancestors that matches. *)
Definition closest (sel : elem -> bool) (i : nat) (d : node) : option elem :=
  match pathN i d with
  | Some p => List.find sel (rev p)
  | None => None
  end.

(** The selector [a, area]. *)
Definition selLink (e : elem) : bool :=
  String.eqb (tag e) "a" || String.eqb (tag e) "area".

(** The options the listener passes to [navigate]. *)
Definition clickOptions (link : elem) : NavOptions :=
  mkNavOptions
    (Some (if attrIs "data-mkdocs-history" "replace" link then "replace" else "auto"))
    None [] (Some (nid link)) None.

(** The test of the listener that leaves a click to the browser: the
    link asks for a reload or a download, has no URL, opens elsewhere or
    leads to another origin ([u] is its parsed URL), or the click is not
    a plain one. *)
Definition skipsClick (E : Env) (ev : ClickEvent) (w : World) (link : elem) (u : URL)
    : bool :=
  let targetAttribute :=
    match getAttribute "target" (attrs link) with Some t => t | None => "" end in
  hasAttribute "data-mkdocs-reload" (attrs link)
  || hasAttribute "download" (attrs link)
  || String.eqb (anchorHref E w link) ""
  || (negb (String.eqb targetAttribute "") && negb (String.eqb targetAttribute "_self"))
  || negb (String.eqb (origin u) (origin (location w)))
  || negb (Z.eqb (c_button ev) 0)
  || c_metaKey ev || c_ctrlKey ev || c_altKey ev || c_shiftKey ev
  || c_defaultPrevented ev.

(** The element the listener works on: the target of the event, or the
    first entry of its composed path for a composed event. *)
Definition clickTarget (ev : ClickEvent) : option nat :=
  if c_composed ev then c_path0 ev else c_target ev.

(** The listener of [click] on the document; the result says whether it
    called [event.preventDefault()]. The URL of the link is parsed
    before the test, so a link whose URL does not parse makes the
    listener throw. *)
Definition onClick (E : Env) (ev : ClickEvent) : M bool :=
  get >>= fun w =>
  match clickTarget ev with
  | None => ret false
  | Some i =>
      match closest selLink i (doc w) with
      | None => ret false
      | Some link =>
          let href := anchorHref E w link in
          match parseURL E href (Some (Browser.href (location w))) with
          | None => throw "TypeError"
          | Some u =>
              if skipsClick E ev w link u then ret false
              else detach (navigate E href (clickOptions link)) >> ret true
          end
      end
  end.

End Links.

(* ===================================================================== *)
(** * Class lists *)
(* ===================================================================== *)

Module ClassList.
Import Str Dom Browser Penguin.

(** ASCII whitespace, on which the [class] attribute is split: TAB, LF,
    FF, CR and SPACE. *)
Definition isAsciiWhitespace (a : ascii) : bool :=
  existsb (Nat.eqb (nat_of_ascii a)) [9; 10; 12; 13; 32]%nat.

(** Split on ASCII whitespace; [cur] is the token being read. *)
Fixpoint splitTokens (cur : string) (s : string) : list string :=
  match s with
  | EmptyString => if String.eqb cur "" then [] else [cur]
  | String a r =>
      if isAsciiWhitespace a then
        if String.eqb cur "" then splitTokens "" r else cur :: splitTokens "" r
      else splitTokens (String.append cur (String a EmptyString)) r
  end.

(** An ordered set keeps the first of equal tokens. *)
Fixpoint dedupe (seen : list string) (l : list string) : list string :=
  match l with
  | [] => []
  | t :: r =>
      if existsb (String.eqb t) seen then dedupe seen r else t :: dedupe (t :: seen) r
  end.

(** The token set of an attribute value, and the value of a token set:
    the tokens with one space between them. *)
Definition tokensOf (value : string) : list string := dedupe [] (splitTokens "" value).

Fixpoint serialize (l : list string) : string :=
  match l with
  | [] => ""
  | [t] => t
  | t :: r => String.append t (String " " (serialize r))
  end.

(** [element.classList] *)
Definition classTokens (e : elem) : list string :=
  match getAttribute "class" (attrs e) with
  | Some value => tokensOf value
  | None => []
  end.

(** [element.classList.contains(token)] *)
Definition contains (token : string) (e : elem) : bool :=
  existsb (String.eqb token) (classTokens e).

(** The update steps of a class list: an element without the attribute
    and with no token is left alone, otherwise the attribute is set to
    the value of the token set. *)
Definition setClassTokens (l : list string) (e : elem) : elem :=
  match getAttribute "class" (attrs e), l with
  | None, [] => e
  | _, _ => withAttrs (setAttribute "class" (serialize l)) e
  end.

(** [classList.add(token)], [classList.remove(token)] and
    [classList.toggle(token, force)] ([force = None] when the argument is
    not given), for a token that is not empty and holds no whitespace. *)
Definition add (token : string) (e : elem) : elem :=
  let l := classTokens e in
  setClassTokens (if existsb (String.eqb token) l then l else l ++ [token]) e.

Definition remove (token : string) (e : elem) : elem :=
  setClassTokens (List.filter (fun t => negb (String.eqb token t)) (classTokens e)) e.

Definition toggle (token : string) (force : option bool) (e : elem) : elem :=
  if contains token e then
    match force with
    | Some true => e
    | _ => remove token e
    end
  else
    match force with
    | Some false => e
    | _ => add token e
    end.

(** A token that may stand in a class list: it is not empty and holds
    no whitespace. *)
Definition noWhitespace (t : string) : bool :=
  forallb (fun a => negb (isAsciiWhitespace a)) (list_ascii_of_string t).

Definition validToken (t : string) : bool :=
  negb (String.eqb t "") && noWhitespace t.

End ClassList.

(* ===================================================================== *)
(** * The theme switch *)
(* ===================================================================== *)

Module Theme.
Import Str Dom Browser Penguin.

(** The page together with [localStorage] and the [themechange] events
    dispatched so far, each with the [theme] of its detail. *)
Record ThemeState := mkThemeState {
  t_world : World;
  localStorage : gmap string string;
  themeEvents : list string
}.

(** [document.body.classList.<operation>]: the operation on the body of
    the page; [None] without a body, where the script throws. *)
Definition onBody (g : elem -> elem) (d : node) : option node :=
  match docBody d with
  | Some b => Some (updateN (nid (nodeElem b)) g d)
  | None => None
  end.

(** [document.body.classList.contains(token)] *)
Definition bodyContains (token : string) (d : node) : option bool :=
  match docBody d with
  | Some b => Some (ClassList.contains token (nodeElem b))
  | None => None
  end.

Definition toggleTheme (s : ThemeState) : ThemeState * result unit :=
  match onBody (ClassList.toggle "dark-theme" None) (doc (t_world s)) with
  | None => (s, Throw "TypeError")
  | Some d1 =>
      let s1 := mkThemeState (setDoc d1 (t_world s)) (localStorage s) (themeEvents s) in
      match bodyContains "dark-theme" d1 with
      | None => (s1, Throw "TypeError")
      | Some isDark =>
          let theme := if isDark then "dark" else "light" in
          (mkThemeState (t_world s1) (<["theme" := theme]> (localStorage s1))
             (themeEvents s1 ++ [theme]),
           Ok tt)
      end
  end.

(** [!localStorage.getItem('theme')]: no item, or the empty string. *)
Definition noSavedTheme (s : ThemeState) : bool :=
  match localStorage s !! "theme" with
  | Some v => String.eqb v ""
  | None => true
  end.

(** [initializeTheme()], where [prefersDark] is what the media query
    [(prefers-color-scheme: dark)] says. *)
Definition initializeTheme (prefersDark : bool) (s : ThemeState)
    : ThemeState * result unit :=
  if match localStorage s !! "theme" with
     | Some v => String.eqb v "dark"
     | None => false
     end
     || (noSavedTheme s && prefersDark)
  then
    match onBody (ClassList.add "dark-theme") (doc (t_world s)) with
    | Some d1 => (mkThemeState (setDoc d1 (t_world s)) (localStorage s) (themeEvents s), Ok tt)
    | None => (s, Throw "TypeError")
    end
  else (s, Ok tt).

(** The listener [initializeTheme] registers for a change of the media
    query; [matches] is the new answer of the query. *)
Definition onSchemeChange (matches : bool) (s : ThemeState) : ThemeState * result unit :=
  if noSavedTheme s then
    match onBody (ClassList.toggle "dark-theme" (Some matches)) (doc (t_world s)) with
    | Some d1 => (mkThemeState (setDoc d1 (t_world s)) (localStorage s) (themeEvents s), Ok tt)
    | None => (s, Throw "TypeError")
    end
  else (s, Ok tt).

End Theme.

(* ===================================================================== *)
(** * Printing *)
(* ===================================================================== *)

Module Print.
Import Str Dom Browser Penguin.
Local Open Scope nav_scope.

(** Apply [g] to every element of a tree. *)
Fixpoint mapElems (g : elem -> elem) (n : node) : node :=
  let 'Node e ks := n in Node (g e) (map (mapElems g) ks).

Definition wasOpenAttr : string := "data-was-open-for-print".

Definition isDetails (e : elem) : bool := String.eqb (tag e) "details".

(** What the listener of [beforeprint] does to one element: a [details]
    element is opened and marked. *)
Definition openForPrint (e : elem) : elem :=
  if isDetails e
  then withAttrs (fun a => setAttribute wasOpenAttr "true" (setAttribute "open" "" a)) e
  else e.

(** What the listener of [afterprint] does to one element: a marked
    [details] element is closed and loses the mark. *)
Definition closeAfterPrint (e : elem) : elem :=
  if isDetails e && hasAttribute wasOpenAttr (attrs e)
  then withAttrs (fun a => removeAttribute wasOpenAttr (removeAttribute "open" a)) e
  else e.

(** The listener of [beforeprint]: the [details] elements, then the
    class [printing] on the body. *)
Definition onBeforePrint : M unit :=
  modify (fun w => setDoc (mapElems openForPrint (doc w)) w) >>
  get >>= fun w =>
  match Theme.onBody (ClassList.add "printing") (doc w) with
  | Some d => modify (setDoc d)
  | None => throw "TypeError"
  end.

(** The listener of [afterprint]. *)
Definition onAfterPrint : M unit :=
  modify (fun w => setDoc (mapElems closeAfterPrint (doc w)) w) >>
  get >>= fun w =>
  match Theme.onBody (ClassList.remove "printing") (doc w) with
  | Some d => modify (setDoc d)
  | None => throw "TypeError"
  end.

End Print.

(* ===================================================================== *)
(** * Keyboard navigation *)
(* ===================================================================== *)

Module Keys.
Import Str Dom Browser Penguin Strategy Links.
Local Open Scope nav_scope.

(** A [keydown] event: the key and the modifiers the listener reads. *)
Record KeyEvent := mkKeyEvent {
  k_key : string;
  k_altKey : bool;
  k_ctrlKey : bool;
  k_shiftKey : bool
}.

(** [document.querySelectorAll('.navbar a')]: the anchors below an
    element that carries the class [navbar]. *)
Fixpoint navbarLinksN (inNavbar : bool) (n : node) : list elem :=
  let 'Node e ks := n in
  (if inNavbar && String.eqb (tag e) "a" then [e] else [])
    ++ flat_map (navbarLinksN (inNavbar || ClassList.contains "navbar" e)) ks.

Definition navbarLinks (w : World) : list elem := navbarLinksN false (doc w).

(** [array.findIndex(p)]: the position of the first element that
    satisfies [p], and [-1] when there is none. *)
Fixpoint findIndex {A} (p : A -> bool) (l : list A) : Z :=
  match l with
  | [] => (-1)%Z
  | a :: r =>
      if p a then 0%Z
      else
        let i := findIndex p r in
        if Z.ltb i 0 then (-1)%Z else (i + 1)%Z
  end.

(** The test of the listener for the link of the current page. *)
Definition isCurrentLink (E : Env) (w : World) (link : elem) : bool :=
  ClassList.contains "active" link || String.eqb (anchorHref E w link) (href (location w)).

(** [navLinks[i]] for a number [i]: [None] is [undefined]. *)
Definition at_ {A} (l : list A) (i : Z) : option A :=
  if Z.ltb i 0 then None else nth_error l (Z.to_nat i).

(** The link that Alt with an arrow key goes to: the listener calls
    [preventDefault] and [click()] on it. [Some None] stands for the
    call of [click] on [undefined], which throws; [None] for a key press
    the listener does nothing about. *)
Definition arrowTarget (E : Env) (ev : KeyEvent) (w : World) : option (option elem) :=
  if k_altKey ev && negb (k_ctrlKey ev) && negb (k_shiftKey ev) then
    let navLinks := navbarLinks w in
    let currentIndex := findIndex (isCurrentLink E w) navLinks in
    if String.eqb (k_key ev) "ArrowLeft" && Z.ltb 0 currentIndex then
      Some (at_ navLinks (currentIndex - 1))
    else if String.eqb (k_key ev) "ArrowRight"
            && Z.ltb currentIndex (Z.of_nat (length navLinks) - 1) then
      Some (at_ navLinks (currentIndex + 1))
    else None
  else None.

End Keys.

(* ===================================================================== *)
(** * The scripts of a page *)
(* ===================================================================== *)

Module Scripts.
Import Str Dom Browser Penguin.

(** In a parsed page a [script] element has no element below it: what
    it holds is text. *)
Fixpoint scriptsAreLeaves (n : node) : bool :=
  let 'Node e ks := n in
  (negb (selScript e) || match ks with [] => true | _ :: _ => false end)
  && forallb scriptsAreLeaves ks.

(** The scripts of the page that the loop of [executeScripts] does not
    pass over, in the order of the page. *)
Definition pendingScripts (w : World) : list elem :=
  List.filter (fun s => negb (skipsScript s)) (documentScripts w).

End Scripts.

(* ===================================================================== *)
(** * Preloading the stylesheets of the destination *)
(* ===================================================================== *)

Module Preload.
Import Str Dom Browser Penguin.

(** [link.getAttribute("href")] inside the template string of the
    selector: a missing attribute reads [null]. *)
Definition hrefInSelector (link : elem) : string :=
  match getAttribute "href" (attrs link) with Some h => h | None => "null" end.

(** The stylesheets of the head of [newDocument] for which the page [w]
    has no stylesheet with the same [href]; a stylesheet that the head
    lists twice is here twice. *)
Definition missingStylesheets (newDocument : node) (w : World) : list elem :=
  List.filter
    (fun link => negb (isSome (querySelector (selStylesheetHref (hrefInSelector link)) (doc w))))
    (headStylesheetsN false newDocument).

(** The [preloadLink] of [preloadStylesheets] when its three attributes
    are set. *)
Definition preloadLink (i : nat) (href : string) : elem :=
  Elem i "link" [("rel", "preload"); ("as", "style"); ("href", href)] "" None.

End Preload.

(* ===================================================================== *)
(** * A sample site, for evaluating the script on concrete inputs *)
(* ===================================================================== *)

Module Sample.
Import Str Dom Browser Penguin.

Definition siteOrigin : string := "https://penguin.example".

Definition siteURL (path query fragment : string) : URL :=
  mkURL (String.append siteOrigin (String.append path (String.append query fragment)))
    siteOrigin path query fragment.

Definition pageIntro : URL := siteURL "/docs/page" "?a=1" "#intro".
Definition pageUsage : URL := siteURL "/docs/page" "?a=1" "#usage".
Definition pagePlain : URL := siteURL "/docs/page" "?a=1" "".
Definition pageOther : URL := siteURL "/docs/other" "" "".
Definition pageData : URL := siteURL "/api/data" "" "".
Definition pageSubmit : URL := siteURL "/submit" "" "".
Definition pageElsewhere : URL :=
  mkURL "https://elsewhere.example/" "https://elsewhere.example" "/" "" "".

(** A URL parser that knows the absolute URLs above and rejects every
    other string. *)
Definition parseKnown (url : string) (base : option string) : option URL :=
  List.find (fun u => String.eqb (href u) url)
    [pageIntro; pageUsage; pagePlain; pageOther; pageData; pageSubmit; pageElsewhere].

Definition el (i : nat) (t : string) (a : list attr) : elem := Elem i t a "" None.

Definition enabledMeta (i : nat) : node :=
  Node (el i "meta" [("name", "mkdocs-view-transitions-enabled")]) [].

(** The live page. *)
Definition liveDocument : node :=
  Node (el 0 "html" [("lang", "en")])
    [ Node (el 1 "head" [])
        [ enabledMeta 2;
          Node (el 3 "link" [("rel", "stylesheet"); ("href", "/css/site.css")]) [] ];
      Node (el 4 "body" [])
        [ Node (el 5 "h1" []) [];
          Node (Elem 6 "script" [("src", "/js/penguin.js"); ("data-mkdocs-exec", "")] "" None) [] ] ].

(** A destination that opts in, and one that does not. *)
Definition otherDocument : node :=
  Node (el 20 "html" [])
    [ Node (el 21 "head" [])
        [ enabledMeta 22;
          Node (el 23 "link" [("rel", "stylesheet"); ("href", "/css/other.css")]) [] ];
      Node (el 24 "body" []) [ Node (el 25 "p" []) [] ] ].

Definition plainDocument : node :=
  Node (el 30 "html" [])
    [ Node (el 31 "head" []) [];
      Node (el 32 "body" []) [ Node (el 33 "p" []) [] ] ].

Definition htmlResponse (body : string) : Response :=
  mkResponse (Some "text/html; charset=utf-8") (Some body) false "".

Definition siteNetwork (url : string) (body : option FormData) : option Response :=
  if String.eqb url (href pageData) then
    Some (mkResponse (Some "application/json") (Some "{}") false "")
  else if String.eqb url (href pageOther) then Some (htmlResponse "other")
  else if String.eqb url (href pagePlain) then Some (htmlResponse "other")
  else if String.eqb url (href pageSubmit) then Some (htmlResponse "plain")
  else None.

Definition siteParser (html mediaType : string) : node :=
  if String.eqb html "other" then otherDocument else plainDocument.

Definition siteEnv : Env :=
  mkEnv true None false siteNetwork parseKnown siteParser (fun _ => false) true
    (fun _ => None).

(** The same site over a connection that reports [2g]. *)
Definition slowEnv : Env :=
  mkEnv true (Some (mkConnection false "2g")) false siteNetwork parseKnown siteParser
    (fun _ => false) true (fun _ => None).

Definition entry0 : HEntry := mkHEntry (Some (mkHState 0 0 0 [])) (href pageIntro).

(** The page at [/docs/page?a=1#intro], scrolled down by 100. *)
Definition world0 : World :=
  mkWorld liveDocument 100 None pageIntro (mkHistory [] entry0 []) true 0 100 0 pageIntro
    false ∅ [].

Definition hoverOptions : option PrefetchOptions :=
  Some (mkPrefetchOptions (Some "fetch") None).
Definition tapOptions : option PrefetchOptions :=
  Some (mkPrefetchOptions (Some "fetch") (Some true)).

Definition formOptions : NavOptions :=
  mkNavOptions None (Some [("q", "penguin")]) [] None None.

(** The page after a swap brought in three scripts: an inline one, one
    that is data, and one that ran at the first load. *)
Definition scriptDocument : node :=
  Node (el 0 "html" [])
    [ Node (el 1 "head" []) [ enabledMeta 2 ];
      Node (el 4 "body" [])
        [ Node (Elem 7 "script" [] "console.log(1)" None) [];
          Node (Elem 8 "script" [("type", "application/json")] "{}" None) [];
          Node (Elem 6 "script" [("src", "/js/penguin.js"); ("data-mkdocs-exec", "")] "" None) [] ] ].

Definition scriptWorld : World :=
  mkWorld scriptDocument 100 None pageIntro (mkHistory [] entry0 []) true 0 0 0 pageIntro
    false ∅ [].

(** A page whose search box has the focus, with part of its text
    selected, and the page that is to take its place: both mark the
    search box and the menu as persistent, the live one its footer too. *)
Definition searchInput : elem :=
  Elem 47 "input" [("type", "search"); ("data-mkdocs-persist", "x")] ""
    (Some (TextCtl 7 2 5)).

Definition incomingInput : elem :=
  Elem 67 "input" [("type", "search"); ("data-mkdocs-persist", "x")] ""
    (Some (TextCtl 0 0 0)).

Definition searchDocument : node :=
  Node (el 40 "html" [("lang", "en"); ("data-mkdocs-color", "dark")])
    [ Node (el 41 "head" [])
        [ enabledMeta 42;
          Node (el 43 "link" [("rel", "stylesheet"); ("href", "/css/site.css")]) [] ];
      Node (el 44 "body" [])
        [ Node (el 45 "nav" [("data-mkdocs-persist", "menu")]) [];
          Node (el 46 "div" []) [ Node searchInput [] ];
          Node (el 48 "footer" [("data-mkdocs-persist", "foot")]) [] ] ].

Definition incomingDocument : node :=
  Node (el 60 "html" [("lang", "en")])
    [ Node (el 61 "head" [])
        [ enabledMeta 62;
          Node (el 63 "link" [("rel", "stylesheet"); ("href", "/css/site.css")]) [] ];
      Node (el 64 "body" [])
        [ Node (el 65 "nav" [("data-mkdocs-persist", "menu")]) [];
          Node (el 66 "section" []) [ Node incomingInput [] ] ] ].

Definition searchWorld : World :=
  mkWorld searchDocument 100 (Some 47) pageIntro (mkHistory [] entry0 []) true 0 0 0 pageIntro
    false ∅ [].

Definition swapEvent : PageTransition :=
  mkEvent Penguin.BEFORE_SWAP false pageIntro pageOther dir_forward nt_push
    (Some incomingDocument) false.

(** The same search box on a page that also marks a panel as
    persistent, and an incoming page that has its search box inside the
    panel. *)
Definition panelDocument : node :=
  Node (el 40 "html" [("lang", "en")])
    [ Node (el 41 "head" []) [ enabledMeta 42 ];
      Node (el 44 "body" [])
        [ Node (el 45 "div" [("data-mkdocs-persist", "panel")]) [];
          Node (el 46 "div" []) [ Node searchInput [] ] ] ].

Definition nestedDocument : node :=
  Node (el 60 "html" [("lang", "en")])
    [ Node (el 61 "head" []) [ enabledMeta 62 ];
      Node (el 64 "body" [])
        [ Node (el 65 "div" [("data-mkdocs-persist", "panel")])
            [ Node incomingInput [] ] ] ].

Definition panelWorld : World :=
  mkWorld panelDocument 100 (Some 47) pageIntro (mkHistory [] entry0 []) true 0 0 0 pageIntro
    false ∅ [].

Definition nestedSwapEvent : PageTransition :=
  mkEvent Penguin.BEFORE_SWAP false pageIntro pageOther dir_forward nt_push
    (Some nestedDocument) false.

End Sample.

(* ===================================================================== *)
(** * More of the sample site *)
(* ===================================================================== *)

Module Site.
Import Str Dom Browser Penguin Strategy Links Theme.

(** The variables of the prefetch code after the call
    [initializePrefetch({ prefetchAll: true })] of the script. *)
Definition sitePrefetchVars : PrefetchVars :=
  initializePrefetch (Some (mkInitOptions (Some true) None)) initialPrefetchVars.

(** The same, with [load] as the default strategy. *)
Definition loadPrefetchVars : PrefetchVars :=
  initializePrefetch (Some (mkInitOptions (Some true) (Some "load"))) initialPrefetchVars.

(** A link without the attribute, one that asks for the viewport
    strategy and one that opts out. *)
Definition plainLink : elem :=
  Sample.el 50 "a" [("href", "https://penguin.example/docs/other")].
Definition viewportLink : elem :=
  Sample.el 51 "a" [("href", "https://penguin.example/docs/other");
                    ("data-mkdocs-prefetch", "viewport")].
Definition optOutLink : elem :=
  Sample.el 52 "a" [("href", "https://penguin.example/docs/other");
                    ("data-mkdocs-prefetch", "false")].

(** The live page of the sample with these links in its body. *)
Definition linkDocument : node :=
  Node (Sample.el 0 "html" [("lang", "en")])
    [ Node (Sample.el 1 "head" []) [ Sample.enabledMeta 2 ];
      Node (Sample.el 4 "body" [])
        [ Node plainLink []; Node viewportLink []; Node optOutLink [] ] ].

Definition linkWorld : World :=
  mkWorld linkDocument 100 None Sample.pageIntro (mkHistory [] Sample.entry0 []) true 0 0 0
    Sample.pageIntro false ∅ [].

(** The sample page after one navigation inside it, to the fragment
    [#usage]: two entries, the second one current. *)
Definition usageEntry : HEntry :=
  mkHEntry (Some (mkHState 1 0 0 [])) (href Sample.pageUsage).

Definition visitedWorld : World :=
  mkWorld Sample.liveDocument 100 None Sample.pageUsage
    (mkHistory [Sample.entry0] usageEntry []) true 0 0 1 Sample.pageUsage false ∅ [].

(** A page with a link to another place in it, which wraps a [span],
    and a link to another page. *)
Definition usageLink : elem := Sample.el 54 "a" [("href", href Sample.pageUsage)].

Definition clickDocument : node :=
  Node (Sample.el 0 "html" [("lang", "en")])
    [ Node (Sample.el 1 "head" []) [ Sample.enabledMeta 2 ];
      Node (Sample.el 4 "body" [])
        [ Node usageLink [ Node (Sample.el 55 "span" []) [] ];
          Node plainLink [] ] ].

Definition clickWorld : World :=
  mkWorld clickDocument 100 None Sample.pageIntro (mkHistory [] Sample.entry0 []) true 0 100 0
    Sample.pageIntro false ∅ [].

(** A plain click with the main button on the element [i]. *)
Definition plainClick (i : nat) : ClickEvent :=
  mkClickEvent (Some i) true (Some i) 0 false false false false false.

(** A page whose body carries a class, with two [details] elements, one
    of them open; nothing is stored for the theme. *)
Definition themeBody : node :=
  Node (Sample.el 4 "body" [("class", "wide")])
    [ Node (Sample.el 56 "details" [("open", "")]) [];
      Node (Sample.el 57 "details" []) [] ].

Definition themeDocument : node :=
  Node (Sample.el 0 "html" [("lang", "en")])
    [ Node (Sample.el 1 "head" []) [ Sample.enabledMeta 2 ]; themeBody ].

Definition themeWorld : World :=
  mkWorld themeDocument 100 None Sample.pageIntro (mkHistory [] Sample.entry0 []) true 0 0 0
    Sample.pageIntro false ∅ [].

Definition themeState : ThemeState := mkThemeState themeWorld ∅ [].

End Site.

(* ===================================================================== *)
(** * Properties *)
(* ===================================================================== *)

Import Str Dom Browser Penguin.
Local Open Scope nav_scope.

(** ** [escapeRegExp] *)

Lemma replaceClass_plain cls tmpl s :
  (forall c, In c (list_ascii_of_string s) -> cls c = false) ->
  replaceClass cls tmpl s = s.
Proof.
  induction s as [|a r IH]; simpl; intros H; [reflexivity|].
  rewrite (H a) by (left; reflexivity). simpl.
  f_equal. apply IH. intros c Hc. apply H. right. exact Hc.
Qed.

(** A string without metacharacters is returned as it is. *)
Lemma escapeRegExp_plain s :
  (forall c, In c (list_ascii_of_string s) -> Search.isRegExpSpecial c = false) ->
  Search.escapeRegExp s = s.
Proof. apply replaceClass_plain. Qed.

(** Every metacharacter is replaced by the same thirteen characters,
    whichever it is. *)
Lemma escapeRegExp_special c s :
  Search.isRegExpSpecial c = true ->
  Search.escapeRegExp (String c s)
  = String.append Search.escapeReplacement (Search.escapeRegExp s).
Proof.
  intros H. unfold Search.escapeRegExp. simpl. rewrite H. reflexivity.
Qed.

(** C8. [escapeRegExp] does not escape: on the input [a.b] it returns
    [a], a backslash, eight spaces, [// Ad] and [b], where escaping asks
    for [a], a backslash, [.] and [b]. *)
Theorem escapeRegExp_drops_metacharacter :
  Search.escapeRegExp "a.b" = String "a" (String backslash "        // Adb")
  /\ Search.escapeRegExp_spec "a.b" = String "a" (String backslash ".b")
  /\ Search.escapeRegExp "a.b" <> Search.escapeRegExp_spec "a.b".
Proof.
  split; [reflexivity|]. split; [reflexivity|]. discriminate.
Qed.

(** ** Prefetch *)

Lemma canPrefetch_member E url b w :
  url ∈ prefetchedPages w -> canPrefetch E url b w = false.
Proof.
  intros Hin. unfold canPrefetch.
  destruct (negb (onLine E) || negb b && isSlowConnection E); [reflexivity|].
  destruct (parseURL E url (Some (href (location w)))); [|reflexivity].
  rewrite (bool_decide_eq_true_2 _ Hin). simpl.
  apply andb_false_r.
Qed.

Lemma prefetchPage_rejected E url options w :
  canPrefetch E url (ignoreSlowConnectionOf options) w = false ->
  prefetchPage E url options w = (w, Ok tt).
Proof.
  intros H. unfold prefetchPage, bind, get. simpl. rewrite H. reflexivity.
Qed.

Lemma prefetchPage_accepted_set E url options w :
  canPrefetch E url (ignoreSlowConnectionOf options) w = true ->
  prefetchedPages (fst (prefetchPage E url options w)) = {[ url ]} ∪ prefetchedPages w.
Proof.
  intros H. unfold prefetchPage, bind, get. simpl. rewrite H. simpl.
  destruct (String.eqb (prefetchWith options) "link"); [|reflexivity].
  unfold appendToHead, bind, get. simpl.
  destruct (docHead (doc w)); reflexivity.
Qed.

(** The set of prefetched pages only grows. *)
Lemma prefetchPage_grows E url options w :
  prefetchedPages w ⊆ prefetchedPages (fst (prefetchPage E url options w)).
Proof.
  destruct (canPrefetch E url (ignoreSlowConnectionOf options) w) eqn:H.
  - rewrite prefetchPage_accepted_set by exact H. set_solver.
  - rewrite prefetchPage_rejected by exact H. reflexivity.
Qed.

(** C6, as amended. When the first call passes [canPrefetch], the URL is
    in the prefetched set afterwards, [canPrefetch] then refuses it
    whatever the connection and the flag, and a second call changes
    nothing: the set, the document and the list of requests stay as they
    are. *)
Theorem prefetch_again_is_noop E1 E2 url o1 o2 w :
  canPrefetch E1 url (ignoreSlowConnectionOf o1) w = true ->
  let w1 := fst (prefetchPage E1 url o1 w) in
  url ∈ prefetchedPages w1
  /\ (forall b, canPrefetch E2 url b w1 = false)
  /\ prefetchPage E2 url o2 w1 = (w1, Ok tt).
Proof.
  intros H w1.
  assert (Hin : url ∈ prefetchedPages w1).
  { unfold w1. rewrite prefetchPage_accepted_set by exact H. set_solver. }
  split; [exact Hin|]. split.
  - intros b. apply canPrefetch_member. exact Hin.
  - apply prefetchPage_rejected. apply canPrefetch_member. exact Hin.
Qed.

Lemma prefetch_again_is_noop_witness :
  canPrefetch Sample.siteEnv (href Sample.pageOther)
    (ignoreSlowConnectionOf Sample.hoverOptions) Sample.world0 = true
  /\ prefetchPage Sample.slowEnv (href Sample.pageOther) Sample.tapOptions
       (fst (prefetchPage Sample.siteEnv (href Sample.pageOther) Sample.hoverOptions
               Sample.world0))
     = (fst (prefetchPage Sample.siteEnv (href Sample.pageOther) Sample.hoverOptions
               Sample.world0), Ok tt).
Proof.
  split; [vm_compute; reflexivity|].
  apply (prefetch_again_is_noop Sample.siteEnv Sample.slowEnv (href Sample.pageOther)
           Sample.hoverOptions Sample.tapOptions Sample.world0).
  vm_compute; reflexivity.
Defined.

(** C6, as stated, fails: over a slow connection a first call without
    [ignoreSlowConnection] (the hover strategy) is refused and leaves the
    URL out of the set, and the second call (the tap strategy, which sets
    the flag) requests the page and adds the URL. *)
Lemma prefetch_after_refusal_fetches :
  let url := href Sample.pageOther in
  let w1 := fst (prefetchPage Sample.slowEnv url Sample.hoverOptions Sample.world0) in
  let w2 := fst (prefetchPage Sample.slowEnv url Sample.tapOptions w1) in
  w1 = Sample.world0
  /\ bool_decide (url ∈ prefetchedPages w1) = false
  /\ trace w2 = trace w1 ++ [EFetch url None]
  /\ bool_decide (url ∈ prefetchedPages w2) = true.
Proof.
  repeat split; vm_compute; reflexivity.
Qed.

(** C10. A string that does not parse as a URL is refused by
    [canPrefetch], and [prefetchPage] returns with the world as it was:
    nothing is added to the set, nothing is requested, the document gets
    no link. *)
Theorem prefetch_unparsable_url E url w :
  parseURL E url (Some (href (location w))) = None ->
  (forall b, canPrefetch E url b w = false)
  /\ (forall options, prefetchPage E url options w = (w, Ok tt)).
Proof.
  intros H.
  assert (Hc : forall b, canPrefetch E url b w = false).
  { intros b. unfold canPrefetch. rewrite H.
    destruct (negb (onLine E) || negb b && isSlowConnection E); reflexivity. }
  split; [exact Hc|].
  intros options. apply prefetchPage_rejected. apply Hc.
Qed.

Lemma prefetch_unparsable_url_witness :
  parseURL Sample.siteEnv "http://[" (Some (href (location Sample.world0))) = None
  /\ prefetchPage Sample.siteEnv "http://[" Sample.tapOptions Sample.world0
     = (Sample.world0, Ok tt).
Proof.
  split; [reflexivity|].
  apply (prefetch_unparsable_url Sample.siteEnv "http://[" Sample.world0).
  reflexivity.
Defined.

(** ** Reasoning about the monad *)

Import Observe.

Lemma bind_ok {A B} (m : M A) (k : A -> M B) w w' a :
  m w = (w', Ok a) -> (m >>= k) w = k a w'.
Proof. intros H. unfold bind. rewrite H. reflexivity. Qed.

Lemma bind_throw {A B} (m : M A) (k : A -> M B) w w' msg :
  m w = (w', Throw msg) -> (m >>= k) w = (w', Throw msg).
Proof. intros H. unfold bind. rewrite H. reflexivity. Qed.

Lemma get_bind {A} (k : World -> M A) w : (get >>= k) w = k w w.
Proof. reflexivity. Qed.

Lemma then_setCurrentLocation (m : M unit) to w :
  snd ((m >> modify (setCurrentLocation to) >> ret tt) w) = Ok tt ->
  currentLocation (fst ((m >> modify (setCurrentLocation to) >> ret tt) w)) = to.
Proof.
  unfold bind, modify, ret. destruct (m w) as [w2 [[]|msg]]; simpl;
    [reflexivity|discriminate].
Qed.

Section Preserves.
Context {B : Type} (obs : World -> B).

Lemma preserves_ret {A} (a : A) : preserves obs (ret a).
Proof. intros w. reflexivity. Qed.

Lemma preserves_throw {A} msg : preserves obs (@throw A msg).
Proof. intros w. reflexivity. Qed.

Lemma preserves_get : preserves obs get.
Proof. intros w. reflexivity. Qed.

Lemma preserves_bind {A C} (m : M A) (k : A -> M C) :
  preserves obs m -> (forall a, preserves obs (k a)) -> preserves obs (m >>= k).
Proof.
  intros Hm Hk w. unfold bind.
  specialize (Hm w). destruct (m w) as [w1 [a|msg]]; simpl in *.
  - rewrite (Hk a w1). exact Hm.
  - exact Hm.
Qed.

Lemma preserves_bind_post {A C} (m : M A) (k : A -> M C) (Q : A -> Prop) :
  preserves obs m ->
  (forall w w' a, m w = (w', Ok a) -> Q a) ->
  (forall a, Q a -> preserves obs (k a)) ->
  preserves obs (m >>= k).
Proof.
  intros Hm HQ Hk w. unfold bind.
  specialize (Hm w). specialize (HQ w).
  destruct (m w) as [w1 [a|msg]]; simpl in *.
  - rewrite (Hk a (HQ w1 a eq_refl) w1). exact Hm.
  - exact Hm.
Qed.

Lemma preserves_modify (f : World -> World) :
  (forall w, obs (f w) = obs w) -> preserves obs (modify f).
Proof. intros H w. apply H. Qed.

Lemma preserves_effect e :
  (forall w, obs (logEffect e w) = obs w) -> preserves obs (effect e).
Proof. intros H w. apply H. Qed.

Lemma preserves_detach {A} (m : M A) : preserves obs m -> preserves obs (detach m).
Proof. intros H w. apply H. Qed.

Lemma preserves_when b (m : M unit) : preserves obs m -> preserves obs (when b m).
Proof. intros H. destruct b; [exact H | apply preserves_ret]. Qed.

Lemma preserves_forEach {A} (l : list A) (body : A -> M unit) :
  (forall a, preserves obs (body a)) -> preserves obs (forEach l body).
Proof.
  intros H. induction l as [|a r IH]; simpl.
  - apply preserves_ret.
  - apply preserves_bind; [apply H | intros _; exact IH].
Qed.

End Preserves.

Lemma historyWrites_log e w :
  isHistoryWrite e = false -> historyWrites (logEffect e w) = historyWrites w.
Proof.
  intros H. unfold historyWrites. simpl. rewrite List.filter_app. simpl. rewrite H.
  apply app_nil_r.
Qed.

Lemma requests_log e w :
  isFetch e = false -> requests (logEffect e w) = requests w.
Proof.
  intros H. unfold requests. simpl. rewrite List.filter_app. simpl. rewrite H.
  apply app_nil_r.
Qed.

(** One step of a proof that a computation preserves an observation:
    split a bind, a branch or a match, or close a leaf. *)
Ltac preserves_step :=
  match goal with
  | |- preserves _ (bind _ _) => apply preserves_bind; [|intros ?]
  | |- preserves _ (ret _) => apply preserves_ret
  | |- preserves _ (throw _) => apply preserves_throw
  | |- preserves _ get => apply preserves_get
  | |- preserves _ (when _ _) => apply preserves_when
  | |- preserves _ (detach _) => apply preserves_detach
  | |- preserves _ (forEach _ _) => apply preserves_forEach; intros ?
  | |- preserves _ (modify _) =>
      apply preserves_modify; intros ?; unfold historyView, pageView;
      rewrite ?historyWrites_log, ?requests_log by reflexivity; reflexivity
  | |- preserves _ (effect _) =>
      apply preserves_effect; intros ?; unfold historyView, pageView;
      rewrite ?historyWrites_log, ?requests_log by reflexivity; reflexivity
  | |- preserves _ (if ?c then _ else _) => destruct c
  | |- preserves _ (match ?c with _ => _ end) => destruct c
  end.

Ltac preserves_auto := repeat preserves_step.

Lemma createElement_history t : preserves historyView (createElement t).
Proof. intros w. reflexivity. Qed.

Lemma appendToHead_history n : preserves historyView (appendToHead n).
Proof. unfold appendToHead. preserves_auto. Qed.

Lemma appendToBody_history n : preserves historyView (appendToBody n).
Proof. unfold appendToBody. preserves_auto. Qed.

Lemma setRootAttribute_history n v : preserves historyView (setRootAttribute n v).
Proof. unfold setRootAttribute. preserves_auto. Qed.

Lemma removeRootAttribute_history n : preserves historyView (removeRootAttribute n).
Proof. unfold removeRootAttribute. preserves_auto. Qed.

Lemma scrollTo_history x y : preserves historyView (scrollTo x y).
Proof. unfold scrollTo. preserves_auto. Qed.

Lemma fetchPage_history E url options : preserves historyView (fetchPage E url options).
Proof. unfold fetchPage. preserves_auto. Qed.

Lemma preloadStylesheets_history d : preserves historyView (preloadStylesheets d).
Proof.
  unfold preloadStylesheets. preserves_auto.
  - apply createElement_history.
  - apply appendToHead_history.
Qed.

Lemma loader_history E ev options : preserves historyView (loader E ev options).
Proof.
  unfold loader. preserves_auto;
    first [apply fetchPage_history | apply preloadStylesheets_history].
Qed.

Lemma loader_navigationType E ev options w w' ev' :
  loader E ev options w = (w', Ok ev') ->
  ev_navigationType ev' = ev_navigationType ev.
Proof.
  unfold loader, bind, ret, throw. intros H.
  repeat case_match; simplify_eq; reflexivity.
Qed.

Lemma dispatchBeforePreparation_traverse_history E from to direction options :
  preserves historyView (dispatchBeforePreparation E from to direction nt_traverse options).
Proof.
  unfold dispatchBeforePreparation. cbv zeta.
  apply preserves_bind; [preserves_auto|intros _].
  destruct (negb _); [|apply preserves_ret].
  apply preserves_bind_post with
    (Q := fun ev' => ev_navigationType ev' = nt_traverse).
  - apply loader_history.
  - intros w w' ev' H. apply loader_navigationType in H. rewrite H.
    destruct (listenerCancels _ _); reflexivity.
  - intros ev' Hnt. rewrite Hnt.
    unfold dispatchEvent. preserves_auto.
Qed.

Lemma executeScripts_history : preserves historyView executeScripts.
Proof.
  unfold executeScripts, executeScript. preserves_auto.
  apply createElement_history.
Qed.

Lemma createRouteAnnouncer_history : preserves historyView createRouteAnnouncer.
Proof.
  unfold createRouteAnnouncer. preserves_auto;
    first [apply createElement_history | apply appendToBody_history].
Qed.

Lemma setDocumentTitle_history v : preserves historyView (setDocumentTitle v).
Proof.
  unfold setDocumentTitle. preserves_auto;
    first [apply createElement_history | apply appendToHead_history].
Qed.

Lemma updateLocation_traverse_history E to from options title s :
  preserves historyView (updateLocation E to from options title (Some s)).
Proof.
  unfold updateLocation. cbv zeta.
  apply preserves_bind; [apply preserves_get|intros w0].
  apply preserves_bind; [apply setDocumentTitle_history|intros _].
  apply preserves_bind; [apply preserves_get|intros w1].
  simpl isSome. simpl negb. rewrite andb_false_r.
  apply preserves_bind; [apply preserves_ret|intros _].
  apply preserves_bind; [apply setDocumentTitle_history|intros _].
  apply preserves_bind; [preserves_auto|intros _].
  destruct (_ && _); [apply preserves_ret|].
  apply preserves_bind; [apply scrollTo_history|intros _].
  apply preserves_bind; [apply scrollTo_history|intros _].
  preserves_auto.
Qed.

Lemma performPageSwap_traverse_history E ev options s fallback :
  preserves historyView (performPageSwap E ev options (Some s) fallback).
Proof.
  unfold performPageSwap, dispatchBeforeSwap, animateTransition, dispatchEvent. cbv zeta.
  preserves_auto;
    first [ apply setRootAttribute_history
          | apply updateLocation_traverse_history
          | simpl; apply preserves_throw ].
Qed.

(** A traversal writes nothing to the history: [navigateToPage] with a
    scroll state leaves the session history, the location, the
    navigation index and the record of history calls as they were. *)
Lemma navigateToPage_traverse_history E direction fromUrl toUrl options s :
  preserves historyView (navigateToPage E direction fromUrl toUrl options (Some s)).
Proof.
  unfold navigateToPage, assignHref. cbv zeta. simpl navigationTypeOf.
  apply preserves_bind; [apply preserves_get|intros w0].
  destruct (_ || _); [preserves_auto|].
  apply preserves_bind; [apply preserves_ret|intros _].
  destruct (isHashNavigation _ _ _).
  { apply preserves_bind; [apply preserves_get|intros w1].
    apply updateLocation_traverse_history. }
  apply preserves_bind;
    [apply dispatchBeforePreparation_traverse_history|intros ev].
  destruct (ev_defaultPrevented ev); [preserves_auto|].
  unfold dispatchPageLoad, dispatchEvent.
  preserves_auto;
    first [ apply performPageSwap_traverse_history
          | apply executeScripts_history
          | apply createRouteAnnouncer_history
          | apply removeRootAttribute_history ].
Qed.

(** ** Back and forward *)

Lemma historyView_inv w' w :
  historyView w' = historyView w ->
  history w' = history w /\ location w' = location w
  /\ navigationIndex w' = navigationIndex w /\ historyWrites w' = historyWrites w.
Proof. unfold historyView. intros H. injection H. auto. Qed.

Lemma traversal_inv E direction fromUrl toUrl options s w :
  let w' := fst (navigateToPage E direction fromUrl toUrl options (Some s) w) in
  history w' = history w /\ location w' = location w
  /\ navigationIndex w' = navigationIndex w /\ historyWrites w' = historyWrites w.
Proof.
  apply historyView_inv. apply navigateToPage_traverse_history.
Qed.

Lemma handlePopState_enabled E st w :
  isViewTransitionsEnabled w = true ->
  historyState w = Some st ->
  handlePopState E (Some st) w
  = detach
      (navigateToPage E (popDirection (index st) (navigationIndex w))
         (currentLocation w) (location w) noOptions (Some st))
      (setNavigationIndex (index st) w).
Proof.
  intros Hen Hst. unfold handlePopState, bind, get. simpl.
  rewrite Hen, Hst. reflexivity.
Qed.

Lemma handlePopState_disabled E st w :
  isViewTransitionsEnabled w = false ->
  handlePopState E (Some st) w = (logEffect EReload w, Ok tt).
Proof.
  intros Hen. unfold handlePopState, bind, get. simpl.
  rewrite Hen. reflexivity.
Qed.

(** C4. With soft navigation enabled, a popstate event whose state is
    the state of the entry arrived at is handled as a traversal in the
    direction [forward] when the index of the state is greater than the
    last known index and [back] otherwise; the traversal leaves the
    session history as it was and calls neither [pushState] nor
    [replaceState], and so does every run of [updateLocation] that is
    given a scroll state. *)
Theorem popstate_direction_and_history E st w :
  isViewTransitionsEnabled w = true ->
  historyState w = Some st ->
  handlePopState E (Some st) w
  = detach
      (navigateToPage E (popDirection (index st) (navigationIndex w))
         (currentLocation w) (location w) noOptions (Some st))
      (setNavigationIndex (index st) w)
  /\ ((navigationIndex w < index st)%Z ->
      popDirection (index st) (navigationIndex w) = dir_forward)
  /\ ((index st <= navigationIndex w)%Z ->
      popDirection (index st) (navigationIndex w) = dir_back)
  /\ history (fst (handlePopState E (Some st) w)) = history w
  /\ historyWrites (fst (handlePopState E (Some st) w)) = historyWrites w
  /\ (forall to from options title s w0,
        history (fst (updateLocation E to from options title (Some s) w0)) = history w0
        /\ historyWrites (fst (updateLocation E to from options title (Some s) w0))
           = historyWrites w0).
Proof.
  intros Hen Hst.
  split; [apply handlePopState_enabled; assumption|].
  split; [intros Hlt; unfold popDirection;
          destruct (Z.gtb_spec (index st) (navigationIndex w)); [reflexivity|lia]|].
  split; [intros Hle; unfold popDirection;
          destruct (Z.gtb_spec (index st) (navigationIndex w)); [lia|reflexivity]|].
  rewrite handlePopState_enabled by assumption.
  destruct (traversal_inv E (popDirection (index st) (navigationIndex w))
              (currentLocation w) (location w) noOptions st
              (setNavigationIndex (index st) w)) as (Hh & _ & _ & Hw).
  unfold detach. simpl fst.
  split; [exact Hh|]. split; [exact Hw|].
  intros to from options title s w0.
  destruct (historyView_inv _ _
              (updateLocation_traverse_history E to from options title s w0))
    as (Hh' & _ & _ & Hw').
  split; assumption.
Qed.

Lemma popstate_direction_and_history_witness :
  isViewTransitionsEnabled Sample.world0 = true
  /\ historyState Sample.world0 = Some (mkHState 0 0 0 [])
  /\ history (fst (handlePopState Sample.siteEnv (Some (mkHState 0 0 0 [])) Sample.world0))
     = history Sample.world0.
Proof.
  split; [reflexivity|]. split; [reflexivity|].
  destruct (popstate_direction_and_history Sample.siteEnv (mkHState 0 0 0 [])
              Sample.world0 eq_refl eq_refl) as (_ & _ & _ & H & _).
  exact H.
Defined.

(** What one call of the handler does to the history state and to the
    navigation index. *)
Lemma handlePopState_index E st w :
  historyState w = Some st ->
  let w1 := fst (handlePopState E (Some st) w) in
  historyState w1 = Some st
  /\ navigationIndex w1
     = if isViewTransitionsEnabled w then index st else navigationIndex w.
Proof.
  intros Hst w1. unfold w1. destruct (isViewTransitionsEnabled w) eqn:Hen.
  - rewrite handlePopState_enabled by assumption.
    destruct (traversal_inv E (popDirection (index st) (navigationIndex w))
                (currentLocation w) (location w) noOptions st
                (setNavigationIndex (index st) w)) as (Hh & _ & Hn & _).
    unfold detach. simpl fst. unfold historyState. rewrite Hh. split; [exact Hst|exact Hn].
  - rewrite handlePopState_disabled by assumption. split; [exact Hst|reflexivity].
Qed.

(** C5. Handling the same popstate twice does not count the index twice:
    the second call leaves the navigation index where the first one put
    it, and with soft navigation enabled that is the index of the state. *)
Theorem popstate_twice_same_index E1 E2 st w :
  historyState w = Some st ->
  let w1 := fst (handlePopState E1 (Some st) w) in
  let w2 := fst (handlePopState E2 (Some st) w1) in
  navigationIndex w2 = navigationIndex w1
  /\ (isViewTransitionsEnabled w = true ->
      navigationIndex w1 = index st /\ navigationIndex w2 = index st).
Proof.
  intros Hst w1 w2.
  destruct (handlePopState_index E1 st w Hst) as [Hst1 Hn1].
  destruct (handlePopState_index E2 st w1 Hst1) as [_ Hn2].
  fold w1 in Hn1, Hn2. fold w2 in Hn2.
  destruct (isViewTransitionsEnabled w) eqn:Hen.
  - assert (Heq : navigationIndex w2 = index st).
    { rewrite Hn2. destruct (isViewTransitionsEnabled w1); [reflexivity|exact Hn1]. }
    split; [congruence|]. intros _. split; assumption.
  - split; [|discriminate].
    assert (Hen1 : isViewTransitionsEnabled w1 = false).
    { unfold w1. rewrite handlePopState_disabled by assumption. exact Hen. }
    rewrite Hn2, Hen1. reflexivity.
Qed.

Lemma popstate_twice_same_index_witness :
  historyState Sample.world0 = Some (mkHState 0 0 0 [])
  /\ navigationIndex
       (fst (handlePopState Sample.siteEnv (Some (mkHState 0 0 0 []))
               (fst (handlePopState Sample.siteEnv (Some (mkHState 0 0 0 []))
                       Sample.world0))))
     = navigationIndex
         (fst (handlePopState Sample.siteEnv (Some (mkHState 0 0 0 [])) Sample.world0)).
Proof.
  split; [reflexivity|].
  destruct (popstate_twice_same_index Sample.siteEnv Sample.siteEnv (mkHState 0 0 0 [])
              Sample.world0 eq_refl) as [H _].
  exact H.
Defined.

(** ** Falling back to a full load *)

Lemma updateHistoryState_ok x y w :
  updateHistoryState x y w = (fst (updateHistoryState x y w), Ok tt).
Proof.
  unfold updateHistoryState, bind, get. simpl.
  destruct (historyState w); reflexivity.
Qed.

Lemma scroll_snapshot_ok options scrollState w :
  (match navigationTypeOf options scrollState with
   | nt_traverse => ret tt
   | _ => updateHistoryState (scrollX w) (scrollY w)
   end) w
  = (afterScrollSnapshot options scrollState w, Ok tt).
Proof.
  unfold afterScrollSnapshot.
  destruct (navigationTypeOf options scrollState);
    first [apply updateHistoryState_ok | reflexivity].
Qed.

(** The scroll snapshot keeps the entries, the URL and the index of the
    current entry; it rewrites the scroll offsets of its state, by one
    call of [replaceState]. *)
Lemma afterScrollSnapshot_facts options scrollState w :
  let w0 := afterScrollSnapshot options scrollState w in
  past (history w0) = past (history w)
  /\ future (history w0) = future (history w)
  /\ hurl (current (history w0)) = hurl (current (history w))
  /\ location w0 = location w
  /\ navigationIndex w0 = navigationIndex w
  /\ doc w0 = doc w
  /\ historyState w0
     = match scrollState with
       | Some _ => historyState w
       | None =>
           option_map
             (fun st => mkHState (index st) (scrollX w) (scrollY w) (userState st))
             (historyState w)
       end
  /\ trace w0 = trace w ++ snapshotWrites scrollState w.
Proof.
  unfold afterScrollSnapshot, navigationTypeOf, snapshotWrites.
  destruct scrollState as [s|]; simpl.
  { rewrite app_nil_r. repeat split; reflexivity. }
  assert (H : let w0 := fst (updateHistoryState (scrollX w) (scrollY w) w) in
              past (history w0) = past (history w)
              /\ future (history w0) = future (history w)
              /\ hurl (current (history w0)) = hurl (current (history w))
              /\ location w0 = location w
              /\ navigationIndex w0 = navigationIndex w
              /\ doc w0 = doc w
              /\ historyState w0
                 = option_map
                     (fun st => mkHState (index st) (scrollX w) (scrollY w) (userState st))
                     (historyState w)
              /\ trace w0
                 = trace w
                   ++ match historyState w with
                      | Some st =>
                          [EReplaceState
                             (Some (mkHState (index st) (scrollX w) (scrollY w) (userState st)))
                             None]
                      | None => []
                      end).
  { unfold updateHistoryState, bind, get. simpl.
    destruct (historyState w) as [st|] eqn:Hst; simpl.
    - repeat split; reflexivity.
    - rewrite app_nil_r. repeat split; try reflexivity. exact Hst. }
  destruct (historyIsReplace options); exact H.
Qed.

Lemma snapshotWrites_filters scrollState w :
  List.filter isFetch (snapshotWrites scrollState w) = []
  /\ List.filter isPush (snapshotWrites scrollState w) = []
  /\ List.filter isHistoryWrite (snapshotWrites scrollState w) = snapshotWrites scrollState w.
Proof.
  unfold snapshotWrites. destruct scrollState; [repeat split; reflexivity|].
  destruct (historyState w); repeat split; reflexivity.
Qed.

Lemma fetchPage_not_html E url options response w :
  network E url (o_formData options) = Some response ->
  contentTypeOf (r_contentType response) <> "text/html" ->
  contentTypeOf (r_contentType response) <> "application/xhtml+xml" ->
  fetchPage E url options w = (logEffect (EFetch url (o_formData options)) w, Ok None).
Proof.
  intros Hnet H1 H2. unfold fetchPage, bind, effect, modify. simpl. rewrite Hnet.
  apply String.eqb_neq in H1. apply String.eqb_neq in H2.
  rewrite H1, H2. reflexivity.
Qed.

(** The world in which a navigation that fetched something other than
    HTML ends. *)
Lemma navigateToPage_not_html E direction fromUrl toUrl options scrollState response w :
  isViewTransitionsEnabled w = true ->
  origin (location w) = origin toUrl ->
  isHashNavigation direction fromUrl toUrl = false ->
  listenerCancels E
    (beforePreparationEvent fromUrl toUrl direction (navigationTypeOf options scrollState))
  = false ->
  network E (href toUrl) (o_formData options) = Some response ->
  contentTypeOf (r_contentType response) <> "text/html" ->
  contentTypeOf (r_contentType response) <> "application/xhtml+xml" ->
  navigateToPage E direction fromUrl toUrl options scrollState w
  = (logEffect (EAssignHref (href toUrl))
       (logEffect (EFetch (href toUrl) (o_formData options))
          (logEffect (EDispatch BEFORE_PREPARATION)
             (afterScrollSnapshot options scrollState w))),
     Ok tt).
Proof.
  intros Hen Hor Hhash Hlis Hnet H1 H2.
  unfold navigateToPage. unfold bind at 1. unfold get at 1.
  rewrite Hen, Hor, String.eqb_refl. simpl.
  rewrite (bind_ok _ _ _ _ _ (scroll_snapshot_ok options scrollState w)).
  rewrite Hhash.
  set (w0 := afterScrollSnapshot options scrollState w).
  assert (Hd : dispatchBeforePreparation E fromUrl toUrl direction
                 (navigationTypeOf options scrollState) options w0
               = (logEffect (EFetch (href toUrl) (o_formData options))
                    (logEffect (EDispatch BEFORE_PREPARATION) w0),
                  Ok (preventDefault
                        (beforePreparationEvent fromUrl toUrl direction
                           (navigationTypeOf options scrollState))))).
  { unfold dispatchBeforePreparation. cbv zeta. rewrite Hlis.
    unfold bind at 1. simpl.
    unfold loader.
    rewrite (bind_ok _ _ _ _ _
               (bind_ok _ _ _ _ _
                  (fetchPage_not_html E (href toUrl) options response
                     (logEffect (EDispatch BEFORE_PREPARATION) w0) Hnet H1 H2))).
    reflexivity. }
  rewrite (bind_ok _ _ _ _ _ Hd). reflexivity.
Qed.

(** C1, as amended. A navigation that reaches the request and gets a
    content type other than [text/html] and [application/xhtml+xml]:
    [fetchPage] returns [null], the loader cancels the event, and
    [navigateToPage] ends by assigning [location.href]. When the
    destination is not the URL of the page with a fragment (an
    assignment that the browser answers inside the page, by a new
    entry), the page is left for the destination and until then no entry
    is pushed; the entries, the URL and the index of the current entry
    are as before. The one history call there can be is the scroll
    snapshot that [navigateToPage] takes before the request, when the
    navigation is not a traversal and the entry has a state: it replaces
    the scroll offsets in the state of the current entry. *)
Theorem non_html_response_falls_back
    E direction fromUrl toUrl options scrollState response w :
  isViewTransitionsEnabled w = true ->
  origin (location w) = origin toUrl ->
  isHashNavigation direction fromUrl toUrl = false ->
  listenerCancels E
    (beforePreparationEvent fromUrl toUrl direction (navigationTypeOf options scrollState))
  = false ->
  network E (href toUrl) (o_formData options) = Some response ->
  contentTypeOf (r_contentType response) <> "text/html" ->
  contentTypeOf (r_contentType response) <> "application/xhtml+xml" ->
  staysInPage toUrl w = false ->
  let w' := fst (navigateToPage E direction fromUrl toUrl options scrollState w) in
  (forall w1, snd (fetchPage E (href toUrl) options w1) = Ok None)
  /\ (forall ev w1,
        ev_cancelable ev = true ->
        ev_to ev = toUrl ->
        exists ev', snd (loader E ev options w1) = Ok ev' /\ ev_defaultPrevented ev' = true)
  /\ snd (navigateToPage E direction fromUrl toUrl options scrollState w) = Ok tt
  /\ trace w'
     = trace w ++ snapshotWrites scrollState w
       ++ [EDispatch BEFORE_PREPARATION; EFetch (href toUrl) (o_formData options);
           EAssignHref (href toUrl)]
  /\ List.filter isPush (trace w') = List.filter isPush (trace w)
  /\ historyWrites w' = historyWrites w ++ snapshotWrites scrollState w
  /\ past (history w') = past (history w)
  /\ future (history w') = future (history w)
  /\ hurl (current (history w')) = hurl (current (history w))
  /\ option_map index (historyState w') = option_map index (historyState w)
  /\ option_map userState (historyState w') = option_map userState (historyState w)
  /\ location w' = location w
  /\ navigationIndex w' = navigationIndex w.
Proof.
  intros Hen Hor Hhash Hlis Hnet H1 H2 _ w'.
  pose proof (navigateToPage_not_html E direction fromUrl toUrl options scrollState
                response w Hen Hor Hhash Hlis Hnet H1 H2) as Hnav.
  destruct (afterScrollSnapshot_facts options scrollState w)
    as (Hp & Hf & Hu & Hl & Hn & _ & Hs & Ht).
  destruct (snapshotWrites_filters scrollState w) as (_ & Fp & Fh).
  split.
  { intros w1. rewrite (fetchPage_not_html E (href toUrl) options response w1 Hnet H1 H2).
    reflexivity. }
  split.
  { intros ev w1 Hc Hto. exists (preventDefault ev). unfold loader. rewrite Hto.
    rewrite (bind_ok _ _ _ _ _
               (fetchPage_not_html E (href toUrl) options response w1 Hnet H1 H2)).
    split; [reflexivity|]. simpl. rewrite Hc. reflexivity. }
  unfold w'. rewrite Hnav. simpl fst. simpl snd.
  split; [reflexivity|].
  assert (Htr : trace
                  (logEffect (EAssignHref (href toUrl))
                     (logEffect (EFetch (href toUrl) (o_formData options))
                        (logEffect (EDispatch BEFORE_PREPARATION)
                           (afterScrollSnapshot options scrollState w))))
                = trace w ++ snapshotWrites scrollState w
                  ++ [EDispatch BEFORE_PREPARATION;
                      EFetch (href toUrl) (o_formData options);
                      EAssignHref (href toUrl)]).
  { simpl. rewrite Ht. rewrite <- !app_assoc. reflexivity. }
  split; [exact Htr|].
  split; [rewrite Htr, !List.filter_app, Fp; simpl; rewrite app_nil_r; reflexivity|].
  split; [unfold historyWrites; rewrite Htr, !List.filter_app, Fh; simpl;
          rewrite app_nil_r; reflexivity|].
  simpl. unfold historyState in *. simpl.
  split; [exact Hp|]. split; [exact Hf|]. split; [exact Hu|].
  split; [rewrite Hs; destruct scrollState; [reflexivity|];
          destruct (hstate (current (history w))); reflexivity|].
  split; [rewrite Hs; destruct scrollState; [reflexivity|];
          destruct (hstate (current (history w))); reflexivity|].
  split; [exact Hl|exact Hn].
Qed.

Lemma non_html_response_falls_back_witness :
  contentTypeOf (Some "application/json") <> "text/html"
  /\ contentTypeOf (Some "application/json") <> "application/xhtml+xml"
  /\ staysInPage Sample.pageData Sample.world0 = false
  /\ snd (navigateToPage Sample.siteEnv dir_forward Sample.pageIntro Sample.pageData
            noOptions None Sample.world0) = Ok tt.
Proof.
  split; [discriminate|]. split; [discriminate|]. split; [reflexivity|].
  destruct (non_html_response_falls_back Sample.siteEnv dir_forward Sample.pageIntro
              Sample.pageData noOptions None
              (mkResponse (Some "application/json") (Some "{}") false "")
              Sample.world0 eq_refl eq_refl eq_refl eq_refl eq_refl)
    as (_ & _ & H & _); [discriminate|discriminate|reflexivity|].
  exact H.
Defined.

(** C1, as stated, fails: the navigation from the sample page, scrolled
    down by 100, to a JSON resource ends with the state of the current
    history entry replaced (its scroll offset is now 100). *)
Lemma non_html_fallback_replaces_state :
  let w' :=
    fst (navigateToPage Sample.siteEnv dir_forward Sample.pageIntro Sample.pageData
           noOptions None Sample.world0) in
  snd (fetchPage Sample.siteEnv (href Sample.pageData) noOptions Sample.world0) = Ok None
  /\ trace w'
     = [EReplaceState (Some (mkHState 0 0 100 [])) None;
        EDispatch BEFORE_PREPARATION;
        EFetch (href Sample.pageData) None;
        EAssignHref (href Sample.pageData)]
  /\ historyState Sample.world0 = Some (mkHState 0 0 0 [])
  /\ historyState w' = Some (mkHState 0 0 100 [])
  /\ history w' <> history Sample.world0.
Proof.
  repeat split; try (vm_compute; reflexivity).
  vm_compute. discriminate.
Qed.

(** ** Navigation inside the page *)

Lemma originalPushState_page st url : preserves pageView (originalPushState st url).
Proof. unfold originalPushState. preserves_auto. Qed.

Lemma originalReplaceState_page st url : preserves pageView (originalReplaceState st url).
Proof. unfold originalReplaceState. preserves_auto. Qed.

Lemma updateHistoryState_page x y : preserves pageView (updateHistoryState x y).
Proof.
  unfold updateHistoryState. preserves_auto. apply originalReplaceState_page.
Qed.

Lemma fragmentNavigate_page E to : preserves pageView (fragmentNavigate E to).
Proof.
  unfold fragmentNavigate.
  apply preserves_bind; [preserves_auto|intros _].
  apply preserves_modify. intros w.
  destruct (hrefClearsState E), (fragmentOffset E (href to)) as [[x y]|]; reflexivity.
Qed.

(** ** The title of the document *)

Lemma retitleN_eq v e ks :
  retitleN v (Node e ks)
  = if isTitle e then Some (Node (withText v e) [])
    else match retitleIn (retitleN v) ks with
         | Some ks' => Some (Node e ks')
         | None => None
         end.
Proof. reflexivity. Qed.

Lemma retitleIn_cons v k r :
  retitleIn (retitleN v) (k :: r)
  = match retitleN v k with
    | Some k' => Some (k' :: r)
    | None =>
        match retitleIn (retitleN v) r with
        | Some r' => Some (k :: r')
        | None => None
        end
    end.
Proof. reflexivity. Qed.

Lemma tree_forest_both (P : node -> Prop) (Q : list node -> Prop) :
  (forall e ks, Q ks -> P (Node e ks)) ->
  Q [] ->
  (forall n f, P n -> Q f -> Q (n :: f)) ->
  (forall n, P n) /\ (forall f, Q f).
Proof.
  intros HN H0 HC.
  assert (HP : forall n, P n) by (apply (node_forest_ind P Q); assumption).
  split; [exact HP|].
  induction f as [|n f IH]; [exact H0|apply HC; [apply HP|exact IH]].
Qed.

(** Writing the title a second time changes nothing. *)
Lemma retitle_again v :
  (forall n n', retitleN v n = Some n' -> retitleN v n' = Some n')
  /\ (forall f f',
        retitleIn (retitleN v) f = Some f' -> retitleIn (retitleN v) f' = Some f').
Proof.
  apply tree_forest_both.
  - intros e ks IH n'. rewrite retitleN_eq.
    destruct (isTitle e) eqn:Ht.
    + intros [= <-]. rewrite retitleN_eq. unfold isTitle in *. simpl. rewrite Ht. reflexivity.
    + destruct (retitleIn (retitleN v) ks) as [ks'|] eqn:Hk; [|discriminate].
      intros [= <-]. rewrite retitleN_eq, Ht, (IH _ eq_refl). reflexivity.
  - intros f'. discriminate.
  - intros k r IHk IHr f'. rewrite retitleIn_cons.
    destruct (retitleN v k) as [k'|] eqn:Hk.
    + intros [= <-]. rewrite retitleIn_cons, (IHk _ eq_refl). reflexivity.
    + destruct (retitleIn (retitleN v) r) as [r'|] eqn:Hr; [|discriminate].
      intros [= <-]. rewrite retitleIn_cons, Hk, (IHr _ eq_refl). reflexivity.
Qed.

Lemma retitleIn_app_some v f f' x :
  retitleIn (retitleN v) f = Some f' -> retitleIn (retitleN v) (f ++ x) = Some (f' ++ x).
Proof.
  revert f'. induction f as [|k r IH]; intros f'; [discriminate|].
  cbn [app]. rewrite !retitleIn_cons.
  destruct (retitleN v k) as [k'|]; [intros [= <-]; reflexivity|].
  destruct (retitleIn (retitleN v) r) as [r'|]; [|discriminate].
  intros [= <-]. rewrite (IH _ eq_refl). reflexivity.
Qed.

Lemma retitleIn_app_none v f x :
  retitleIn (retitleN v) f = None ->
  retitleIn (retitleN v) (f ++ x) = option_map (app f) (retitleIn (retitleN v) x).
Proof.
  induction f as [|k r IH]; intros H; cbn [app].
  - destruct (retitleIn (retitleN v) x); reflexivity.
  - rewrite retitleIn_cons in *.
    destruct (retitleN v k) as [k'|]; [discriminate|].
    destruct (retitleIn (retitleN v) r) as [r'|]; [discriminate|].
    rewrite (IH eq_refl). destruct (retitleIn (retitleN v) x); reflexivity.
Qed.

Lemma ids_cons_node e ks f : ids (Node e ks :: f) = nid e :: ids ks ++ ids f.
Proof. unfold ids, eltsF. simpl. rewrite map_app. reflexivity. Qed.

Lemma ids_nil : ids [] = [].
Proof. reflexivity. Qed.

Lemma appendN_unfold i new e ks :
  appendN i new (Node e ks)
  = Node e (map (appendN i new) ks ++ (if Nat.eqb (nid e) i then new else [])).
Proof. reflexivity. Qed.

(** A title element appended to a document that has none is the title
    element of the document. *)
Lemma retitle_appended v i t :
  isTitle t = true -> withText v t = t ->
  (forall n,
     retitleN v n = None ->
     (i ∈ ids [n] ->
      retitleN v (appendN i [Node t []] n) = Some (appendN i [Node t []] n))
     /\ (i ∉ ids [n] -> appendN i [Node t []] n = n))
  /\ (forall f,
        retitleIn (retitleN v) f = None ->
        (i ∈ ids f ->
         retitleIn (retitleN v) (map (appendN i [Node t []]) f)
         = Some (map (appendN i [Node t []]) f))
        /\ (i ∉ ids f -> map (appendN i [Node t []]) f = f)).
Proof.
  intros Ht Hv.
  assert (HT : retitleN v (Node t []) = Some (Node t [])).
  { rewrite retitleN_eq, Ht, Hv. reflexivity. }
  apply tree_forest_both.
  - intros e ks IH. rewrite retitleN_eq.
    destruct (isTitle e) eqn:He; [discriminate|].
    destruct (retitleIn (retitleN v) ks) as [ks'|] eqn:Hk; [discriminate|].
    intros _. destruct (IH eq_refl) as [IH1 IH2].
    rewrite ids_cons_node, ids_nil, app_nil_r, appendN_unfold, retitleN_eq, He.
    split.
    + intros Hin.
      destruct (decide (i ∈ ids ks)) as [Hks|Hks].
      * rewrite (retitleIn_app_some _ _ _ _ (IH1 Hks)). reflexivity.
      * apply elem_of_cons in Hin as [->|Hin]; [|contradiction].
        rewrite (IH2 Hks), Nat.eqb_refl, (retitleIn_app_none _ _ _ Hk).
        rewrite retitleIn_cons, HT. reflexivity.
    + intros Hnot. apply not_elem_of_cons in Hnot as [Hne Hks].
      rewrite (IH2 Hks). destruct (Nat.eqb_spec (nid e) i) as [Heq|_]; [congruence|].
      rewrite app_nil_r. reflexivity.
  - intros _. split; [intros H; inversion H|reflexivity].
  - intros k r IHk IHr. rewrite retitleIn_cons.
    destruct (retitleN v k) as [k'|] eqn:Hk; [discriminate|].
    destruct (retitleIn (retitleN v) r) as [r'|] eqn:Hr; [discriminate|].
    intros _. destruct (IHk eq_refl) as [K1 K2]. destruct (IHr eq_refl) as [R1 R2].
    assert (Hids : ids (k :: r) = ids [k] ++ ids r).
    { unfold ids, eltsF. simpl. rewrite app_nil_r, map_app. reflexivity. }
    rewrite Hids. cbn [map]. split.
    + intros Hin. rewrite retitleIn_cons.
      destruct (decide (i ∈ ids [k])) as [Hk'|Hk'].
      * rewrite (K1 Hk'). reflexivity.
      * apply elem_of_app in Hin as [Hin|Hin]; [contradiction|].
        rewrite (K2 Hk'), Hk, (R1 Hin). reflexivity.
    + intros Hnot. apply not_elem_of_app in Hnot as [Hk' Hr'].
      rewrite (K2 Hk'), (R2 Hr'). reflexivity.
Qed.

Lemma docHead_id d h : docHead d = Some h -> nid (nodeElem h) ∈ ids [d].
Proof.
  destruct d as [e ks]. unfold docHead. simpl. intros H.
  apply find_some in H as [H _]. rewrite ids_cons_node, ids_nil, app_nil_r.
  apply list_elem_of_further. apply list_elem_of_In in H.
  induction ks as [|k r IH]; [inversion H|].
  destruct k as [a ka]. rewrite ids_cons_node.
  apply elem_of_cons in H as [->|H].
  - apply list_elem_of_here.
  - apply list_elem_of_further, elem_of_app. right. apply IH. exact H.
Qed.

Lemma world_eta w :
  w = mkWorld (doc w) (nextId w) (activeElement w) (location w) (history w) (scrollManual w)
        (scrollX w) (scrollY w) (navigationIndex w) (currentLocation w) (skipTransition w)
        (prefetchedPages w) (trace w).
Proof. destruct w. reflexivity. Qed.

Lemma createTitle_run v w h :
  docHead (doc w) = Some h ->
  (createElement "title" >>= fun title => appendToHead (Node (withText v title) [])) w
  = (setDoc (appendN (nid (nodeElem h))
               [Node (withText v (Elem (nextId w) "title" [] "" None)) []] (doc w))
       (setNextId (S (nextId w)) w), Ok tt).
Proof.
  intros Hh. unfold bind at 1. unfold createElement at 1.
  unfold appendToHead. rewrite get_bind.
  change (doc (setNextId (S (nextId w)) w)) with (doc w). rewrite Hh. reflexivity.
Qed.

(** [document.title = v] never fails, and changes the document and the
    count of elements created, nothing else. *)
Lemma setDocumentTitle_run v w :
  setDocumentTitle v w
  = (setNextId (nextId (fst (setDocumentTitle v w)))
       (setDoc (doc (fst (setDocumentTitle v w))) w), Ok tt).
Proof.
  unfold setDocumentTitle. rewrite get_bind.
  destruct (retitleN v (doc w)) as [d'|]; [reflexivity|].
  destruct (docHead (doc w)) as [h|] eqn:Hh.
  - rewrite (createTitle_run v w h Hh). reflexivity.
  - simpl. unfold setNextId, setDoc. simpl. rewrite <- world_eta. reflexivity.
Qed.

(** What it does to the document depends on the document and on that
    count alone. *)
Lemma setDocumentTitle_page v w w' :
  doc w = doc w' -> nextId w = nextId w' ->
  doc (fst (setDocumentTitle v w)) = doc (fst (setDocumentTitle v w'))
  /\ nextId (fst (setDocumentTitle v w)) = nextId (fst (setDocumentTitle v w')).
Proof.
  intros Hd Hn. unfold setDocumentTitle. rewrite !get_bind, <- Hd.
  destruct (retitleN v (doc w)) as [d'|]; [split; [reflexivity|exact Hn]|].
  destruct (docHead (doc w)) as [h|] eqn:Hh.
  - rewrite (createTitle_run v w h Hh).
    rewrite (createTitle_run v w' h) by (rewrite <- Hd; exact Hh).
    cbn [fst doc nextId setDoc setNextId]. rewrite Hd, Hn. split; reflexivity.
  - split; [exact Hd|exact Hn].
Qed.

(** Assigning the same title again changes nothing. *)
Lemma setDocumentTitle_again v w :
  let w1 := fst (setDocumentTitle v w) in
  doc (fst (setDocumentTitle v w1)) = doc w1
  /\ nextId (fst (setDocumentTitle v w1)) = nextId w1.
Proof.
  cbv zeta. unfold setDocumentTitle at 2 4. rewrite !get_bind.
  unfold setDocumentTitle. rewrite !get_bind.
  destruct (retitleN v (doc w)) as [d'|] eqn:Hr.
  - simpl. rewrite (proj1 (retitle_again v) _ _ Hr). split; reflexivity.
  - destruct (docHead (doc w)) as [h|] eqn:Hh.
    + rewrite (createTitle_run v w h Hh). cbn [fst doc nextId setDoc setNextId].
      destruct (proj1 (retitle_appended v (nid (nodeElem h))
                         (withText v (Elem (nextId w) "title" [] "" None))
                         eq_refl eq_refl) (doc w) Hr) as [H1 _].
      rewrite (H1 (docHead_id _ _ Hh)). split; reflexivity.
    + simpl. rewrite Hr, Hh. split; reflexivity.
Qed.

Lemma setDocumentTitle_ok v w :
  setDocumentTitle v w = (fst (setDocumentTitle v w), Ok tt).
Proof.
  pose proof (setDocumentTitle_run v w) as H.
  rewrite (surjective_pairing (setDocumentTitle v w)) in H |- *.
  injection H as _ H. simpl. rewrite H. reflexivity.
Qed.

Lemma setDocumentTitle_rest v w :
  let w1 := fst (setDocumentTitle v w) in
  location w1 = location w /\ history w1 = history w
  /\ navigationIndex w1 = navigationIndex w /\ trace w1 = trace w
  /\ scrollX w1 = scrollX w /\ scrollY w1 = scrollY w
  /\ currentLocation w1 = currentLocation w /\ activeElement w1 = activeElement w
  /\ prefetchedPages w1 = prefetchedPages w.
Proof.
  cbv zeta. pose proof (f_equal fst (setDocumentTitle_run v w)) as H. cbn [fst] in H.
  rewrite H. repeat split; reflexivity.
Qed.

(** ** Navigation inside the page *)

Lemma navigateToPage_hash E direction fromUrl toUrl options scrollState w :
  isViewTransitionsEnabled w = true ->
  origin (location w) = origin toUrl ->
  isHashNavigation direction fromUrl toUrl = true ->
  navigateToPage E direction fromUrl toUrl options scrollState w
  = updateLocation E toUrl fromUrl options (documentTitle (doc w)) scrollState
      (afterScrollSnapshot options scrollState w).
Proof.
  intros Hen Hor Hhash.
  unfold navigateToPage. unfold bind at 1. unfold get at 1.
  rewrite Hen, Hor, String.eqb_refl. simpl.
  rewrite (bind_ok _ _ _ _ _ (scroll_snapshot_ok options scrollState w)).
  rewrite Hhash, get_bind.
  destruct (afterScrollSnapshot_facts options scrollState w)
    as (_ & _ & _ & _ & _ & Hd & _). rewrite Hd. reflexivity.
Qed.

(** The scroll snapshot leaves the window, the page and the variables
    of the script as they are. *)
Lemma afterScrollSnapshot_rest options scrollState w :
  let w0 := afterScrollSnapshot options scrollState w in
  nextId w0 = nextId w /\ scrollX w0 = scrollX w /\ scrollY w0 = scrollY w
  /\ currentLocation w0 = currentLocation w /\ activeElement w0 = activeElement w.
Proof.
  unfold afterScrollSnapshot, updateHistoryState, originalReplaceState, bind, get, modify.
  destruct (navigationTypeOf options scrollState); simpl;
    destruct (historyState w); simpl; repeat split; reflexivity.
Qed.

(** [updateLocation] between two URLs of the same path and query, when
    it makes no history call: the title is written and the current
    location recorded. *)
Lemma updateLocation_same_page_quiet E to from options title scrollState w :
  String.eqb (pathname from) (pathname to) && String.eqb (search from) (search to) = true ->
  negb (String.eqb (href to) (href (location w))) && negb (isSome scrollState) = false ->
  updateLocation E to from options title scrollState w
  = (setCurrentLocation to
       (fst (setDocumentTitle (documentTitle (doc w)) (fst (setDocumentTitle title w)))),
     Ok tt).
Proof.
  intros Hsame Hq.
  unfold updateLocation. cbv zeta. rewrite Hsame, get_bind.
  rewrite (bind_ok _ _ _ _ _ (setDocumentTitle_ok title w)), get_bind.
  rewrite (proj1 (setDocumentTitle_rest title w)), Hq.
  unfold bind at 1. cbn [ret].
  rewrite (bind_ok _ _ _ _ _ (setDocumentTitle_ok (documentTitle (doc w)) _)).
  reflexivity.
Qed.

(** The same when the URL is new and the navigation is not a replace:
    one [pushState] under the next index, between the two writes of the
    title. *)
Lemma updateLocation_same_page_push E to from options title w :
  String.eqb (pathname from) (pathname to) && String.eqb (search from) (search to) = true ->
  historyIsReplace options = false ->
  href to <> href (location w) ->
  origin to = origin (location w) ->
  let st := mkHState (navigationIndex w + 1) 0 0 (o_state options) in
  updateLocation E to from options title None w
  = (setCurrentLocation to
       (fst (setDocumentTitle (documentTitle (doc w))
               (logEffect (EPushState st (href to))
                  (setLocation to
                     (setHistory
                        (mkHistory (current (history w) :: past (history w))
                           (mkHEntry (Some st) (href to)) [])
                        (setNavigationIndex (navigationIndex w + 1)
                           (fst (setDocumentTitle title w)))))))),
     Ok tt).
Proof.
  intros Hsame Hrep Hne Hor. cbv zeta.
  destruct (setDocumentTitle_rest title w) as (Hl & Hh & Hn & _).
  unfold updateLocation. cbv zeta. rewrite Hsame, Hrep, get_bind.
  rewrite (bind_ok _ _ _ _ _ (setDocumentTitle_ok title w)), get_bind, Hl.
  apply String.eqb_neq in Hne. rewrite Hne. cbn [isSome negb andb].
  unfold bind at 1. unfold bind at 1. unfold modify at 1. rewrite get_bind.
  unfold originalPushState. rewrite get_bind. cbn [location setNavigationIndex].
  rewrite Hl, Hor, String.eqb_refl. cbn [negb]. unfold modify at 1.
  cbn [navigationIndex history setNavigationIndex]. rewrite Hh, Hn.
  match goal with
  | |- context [setDocumentTitle ?v ?x] =>
      rewrite (bind_ok _ _ _ _ _ (setDocumentTitle_ok v x))
  end.
  reflexivity.
Qed.

(** The same for a replace: the current entry takes the URL, and its
    state keeps the index and the scroll offsets. *)
Lemma updateLocation_same_page_replace E to from options title state w :
  String.eqb (pathname from) (pathname to) && String.eqb (search from) (search to) = true ->
  historyIsReplace options = true ->
  href to <> href (location w) ->
  origin to = origin (location w) ->
  historyState w = Some state ->
  let st := mkHState (index state) (hScrollX state) (hScrollY state) (o_state options) in
  updateLocation E to from options title None w
  = (setCurrentLocation to
       (fst (setDocumentTitle (documentTitle (doc w))
               (logEffect (EReplaceState (Some st) (Some (href to)))
                  (setLocation to
                     (setHistory
                        (mkHistory (past (history w)) (mkHEntry (Some st) (href to))
                           (future (history w)))
                        (fst (setDocumentTitle title w))))))),
     Ok tt).
Proof.
  intros Hsame Hrep Hne Hor Hst. cbv zeta.
  destruct (setDocumentTitle_rest title w) as (Hl & Hh & Hn & _).
  unfold updateLocation. cbv zeta. rewrite Hsame, Hrep, get_bind.
  rewrite (bind_ok _ _ _ _ _ (setDocumentTitle_ok title w)), get_bind, Hl.
  apply String.eqb_neq in Hne. rewrite Hne. cbn [isSome negb andb].
  unfold historyState. rewrite Hh. fold (historyState w). rewrite Hst.
  unfold bind at 1. unfold originalReplaceState. rewrite get_bind, Hl, Hor, String.eqb_refl.
  cbn [negb]. unfold modify at 1. rewrite Hh.
  match goal with
  | |- context [setDocumentTitle ?v ?x] =>
      rewrite (bind_ok _ _ _ _ _ (setDocumentTitle_ok v x))
  end.
  reflexivity.
Qed.

Lemma setDocumentTitle_location v w : location (fst (setDocumentTitle v w)) = location w.
Proof. apply setDocumentTitle_rest. Qed.

Lemma setDocumentTitle_sessionHistory v w : history (fst (setDocumentTitle v w)) = history w.
Proof. apply setDocumentTitle_rest. Qed.

Lemma setDocumentTitle_navigationIndex v w :
  navigationIndex (fst (setDocumentTitle v w)) = navigationIndex w.
Proof. apply setDocumentTitle_rest. Qed.

Lemma setDocumentTitle_trace v w : trace (fst (setDocumentTitle v w)) = trace w.
Proof. apply setDocumentTitle_rest. Qed.

Ltac title_fields :=
  repeat (cbn [history location navigationIndex trace setCurrentLocation logEffect
                 setLocation setHistory setNavigationIndex];
          rewrite ?setDocumentTitle_location, ?setDocumentTitle_sessionHistory,
            ?setDocumentTitle_navigationIndex, ?setDocumentTitle_trace).

Lemma setDocumentTitle_window v :
  preserves (fun w => (scrollX w, scrollY w, requests w)) (setDocumentTitle v).
Proof.
  intros w. destruct (setDocumentTitle_rest v w) as (_ & _ & _ & Ht & Hx & Hy & _).
  unfold requests. rewrite Ht, Hx, Hy. reflexivity.
Qed.

(** Between two URLs of the same path and query [updateLocation] makes
    no request and does not scroll. *)
Lemma updateLocation_same_page_window E to from options title scrollState :
  String.eqb (pathname from) (pathname to) && String.eqb (search from) (search to) = true ->
  preserves (fun w => (scrollX w, scrollY w, requests w))
    (updateLocation E to from options title scrollState).
Proof.
  intros Hsame. unfold updateLocation, originalPushState, originalReplaceState.
  cbv zeta. rewrite Hsame.
  repeat first
    [ apply setDocumentTitle_window
    | match goal with
      | |- preserves _ (bind _ _) => apply preserves_bind; [|intros ?]
      | |- preserves _ (ret _) => apply preserves_ret
      | |- preserves _ (throw _) => apply preserves_throw
      | |- preserves _ get => apply preserves_get
      | |- preserves _ (modify _) =>
          apply preserves_modify; intros ?; unfold requests; cbn [trace logEffect setLocation
            setHistory setNavigationIndex setCurrentLocation scrollX scrollY];
          rewrite ?List.filter_app; cbn [List.filter isFetch]; rewrite ?app_nil_r; reflexivity
      | |- preserves _ (if ?c then _ else _) => destruct c
      | |- preserves _ (match ?c with _ => _ end) => destruct c
      end ].
Qed.

(** The history calls leave the page alone. *)
Lemma historyCall_page to options (scrollState : option HState) :
  preserves (fun w => (doc w, nextId w))
    (get >>= fun w =>
     if negb (String.eqb (href to) (href (location w))) && negb (isSome scrollState) then
       if historyIsReplace options then
         match historyState w with
         | Some state =>
             originalReplaceState
               (Some (mkHState (index state) (hScrollX state) (hScrollY state)
                        (o_state options)))
               (Some to)
         | None => throw "TypeError"
         end
       else
         modify (fun w => setNavigationIndex (navigationIndex w + 1)%Z w) >>
         get >>= fun w =>
         originalPushState (mkHState (navigationIndex w) 0 0 (o_state options)) to
     else ret tt).
Proof.
  unfold originalPushState, originalReplaceState.
  repeat match goal with
         | |- preserves _ (bind _ _) => apply preserves_bind; [|intros ?]
         | |- preserves _ (ret _) => apply preserves_ret
         | |- preserves _ (throw _) => apply preserves_throw
         | |- preserves _ get => apply preserves_get
         | |- preserves _ (modify _) => apply preserves_modify; intros ?; reflexivity
         | |- preserves _ (if ?c then _ else _) => destruct c
         | |- preserves _ (match ?c with _ => _ end) => destruct c
         end.
Qed.

(** Between two URLs of the same path and query, given the title of the
    document, all [updateLocation] does to the document is to assign
    that title. *)
Lemma updateLocation_same_page_doc E to from options scrollState w :
  String.eqb (pathname from) (pathname to) && String.eqb (search from) (search to) = true ->
  doc (fst (updateLocation E to from options (documentTitle (doc w)) scrollState w))
  = doc (fst (setDocumentTitle (documentTitle (doc w)) w)).
Proof.
  intros Hsame. set (T := documentTitle (doc w)).
  unfold updateLocation. cbv zeta. rewrite Hsame, get_bind. fold T.
  rewrite (bind_ok _ _ _ _ _ (setDocumentTitle_ok T w)).
  set (w1 := fst (setDocumentTitle T w)).
  pose proof (historyCall_page to options scrollState w1) as Hpage.
  rewrite get_bind in Hpage |- *.
  unfold bind at 1.
  match goal with
  | |- context [match ?m w1 with _ => _ end] => destruct (m w1) as [w2 [[]|msg]]
  end; cbn [fst] in Hpage; injection Hpage as Hd Hn.
  - rewrite (bind_ok _ _ _ _ _ (setDocumentTitle_ok T w2)).
    unfold bind, modify, ret. cbn [fst doc setCurrentLocation].
    destruct (setDocumentTitle_page T w2 w1 Hd Hn) as [E1 _]. rewrite E1.
    apply (proj1 (setDocumentTitle_again T w)).
  - exact Hd.
Qed.




(** The example of the specification, from [#intro] to [#usage], on a
    page without a [title] element: the script snapshots the scroll
    offsets and pushes the entry; assigning the title gives the head a
    [title] element; there is no scroll and no assignment to
    [location.href], because [updateLocation] returns at
    [if (isSameUrl) return] before the lines that scroll to the
    fragment. *)
Example hash_navigation_example :
  let r :=
    navigateToPage Sample.siteEnv dir_forward Sample.pageIntro Sample.pageUsage
      noOptions None Sample.world0 in
  snd r = Ok tt
  /\ trace (fst r)
     = [EReplaceState (Some (mkHState 0 0 100 [])) None;
        EPushState (mkHState 1 0 0 []) (href Sample.pageUsage)]
  /\ history (fst r)
     = mkHistory [mkHEntry (Some (mkHState 0 0 100 [])) (href Sample.pageIntro)]
         (mkHEntry (Some (mkHState 1 0 0 [])) (href Sample.pageUsage)) []
  /\ location (fst r) = Sample.pageUsage
  /\ (scrollX (fst r), scrollY (fst r)) = (0, 100)%Z
  /\ titleElement Sample.liveDocument = None
  /\ titleElement (doc (fst r)) = Some (Elem 100 "title" [] "" None)
  /\ List.filter (fun e => negb (isTitle e)) (elts (doc (fst r))) = elts Sample.liveDocument.
Proof. repeat split; vm_compute; reflexivity. Qed.

(** ** The swap is never reached *)

(** [event.swap()] calls [swapDocument] without its argument, so the
    call throws before anything is swapped, and [performPageSwap] with
    it. *)
Lemma dispatchBeforeSwap_throws ev w :
  dispatchBeforeSwap ev swapDocument w
  = (logEffect (EDispatch BEFORE_SWAP) w, Throw "TypeError").
Proof. reflexivity. Qed.

Lemma performPageSwap_throws E ev options scrollState fallback w :
  exists msg, snd (performPageSwap E ev options scrollState fallback w) = Throw msg.
Proof.
  unfold performPageSwap. unfold bind at 1. unfold get at 1.
  unfold bind at 1.
  match goal with
  | |- context [match ?m ?x with _ => _ end] => destruct (m x) as [w2 [[]|msg]]
  end.
  - rewrite get_bind, (bind_throw _ _ _ _ _ (dispatchBeforeSwap_throws ev w2)). eauto.
  - eauto.
Qed.

(** ** The opt-in gate of the loader *)

Lemma find_map_elem (f : node -> node) (p : node -> bool) ks extra k :
  (forall n, p (f n) = p n) ->
  List.find p ks = Some k ->
  List.find p (map f ks ++ extra) = Some (f k).
Proof.
  intros Hp. induction ks as [|a r IH]; simpl; [discriminate|].
  rewrite Hp. destruct (p a); [intros [= ->]; reflexivity|exact IH].
Qed.

Lemma appendN_elem i new n : nodeElem (appendN i new n) = nodeElem n.
Proof. destruct n. reflexivity. Qed.

Lemma docHead_appendN i new d h :
  docHead d = Some h -> docHead (appendN i new d) = Some (appendN i new h).
Proof.
  destruct d as [e ks]. unfold docHead. simpl. intros H.
  apply find_map_elem; [|exact H].
  intros n. unfold isHead. rewrite appendN_elem. reflexivity.
Qed.

Lemma appendToHead_ok n w :
  isSome (docHead (doc w)) = true ->
  exists w', appendToHead n w = (w', Ok tt) /\ isSome (docHead (doc w')) = true.
Proof.
  unfold appendToHead, bind, get, modify. simpl.
  destruct (docHead (doc w)) as [h|] eqn:Hh; [intros _|discriminate].
  eexists. split; [reflexivity|]. simpl.
  rewrite (docHead_appendN _ _ _ _ Hh). reflexivity.
Qed.

(** With a head in the live document, preloading the stylesheets of the
    destination ends normally. *)
Lemma preloadStylesheets_ok d w :
  isSome (docHead (doc w)) = true ->
  exists w', preloadStylesheets d w = (w', Ok tt) /\ isSome (docHead (doc w')) = true.
Proof.
  unfold preloadStylesheets.
  generalize (headStylesheetsN false d). intros l. revert w.
  induction l as [|link r IH]; intros w Hw; simpl.
  - exists w. split; [reflexivity|exact Hw].
  - unfold bind at 1. rewrite get_bind.
    destruct (isSome (querySelector _ (doc w))).
    + simpl. apply IH. exact Hw.
    + unfold bind at 1. simpl.
      match goal with
      | |- context [appendToHead ?n ?x] =>
          destruct (appendToHead_ok n x Hw) as (w' & Heq & Hw'); rewrite Heq
      end.
      apply IH. exact Hw'.
Qed.

(** For a fetched destination without the opt-in marker, the loader
    cancels the event exactly when the navigation carries no form data. *)
Lemma loader_optin_gate E ev options page w w1 :
  fetchPage E (href (ev_to ev)) options w = (w1, Ok (Some page)) ->
  pg_redirected page = None ->
  querySelector selEnabledMarker
    (pruneN selNoscript (parseFromString E (pg_html page) (pg_mediaType page))) = None ->
  ev_cancelable ev = true ->
  ev_defaultPrevented ev = false ->
  isSome (docHead (doc w1)) = true ->
  exists w' ev',
    loader E ev options w = (w', Ok ev')
    /\ (ev_defaultPrevented ev' = true <-> o_formData options = None).
Proof.
  intros Hf Hr Hm Hc Hp Hh. unfold loader.
  rewrite (bind_ok _ _ _ _ _ Hf). rewrite Hr.
  unfold bind at 1. simpl. rewrite Hm. simpl.
  destruct (o_formData options) as [fd|]; simpl.
  - destruct (preloadStylesheets_ok
                (pruneN selNoscript (parseFromString E (pg_html page) (pg_mediaType page)))
                w1 Hh) as (w' & Heq & _).
    rewrite (bind_ok _ _ _ _ _ Heq).
    eexists _, _. split; [reflexivity|]. simpl. rewrite Hp. split; discriminate.
  - eexists _, _. split; [reflexivity|]. simpl. rewrite Hc. split; reflexivity.
Qed.

(** C2. The gate of the loader is as the claim says, but the navigation
    it lets through never swaps: [performPageSwap] always ends in the
    exception of [event.swap()]. On the sample site, a form submission to
    a page without the marker is not cancelled by the loader and then
    throws [TypeError] with the body and the location as they were and no
    assignment to [location.href]; the same navigation without form data
    is cancelled and ends in a full load. *)
Theorem form_navigation_never_swaps :
  let r :=
    navigateToPage Sample.siteEnv dir_forward Sample.pageIntro Sample.pageSubmit
      Sample.formOptions None Sample.world0 in
  let r0 :=
    navigateToPage Sample.siteEnv dir_forward Sample.pageIntro Sample.pageSubmit
      noOptions None Sample.world0 in
  (forall E ev options scrollState fallback w,
     exists msg, snd (performPageSwap E ev options scrollState fallback w) = Throw msg)
  /\ querySelector selEnabledMarker Sample.plainDocument = None
  /\ snd r = Throw "TypeError"
  /\ docBody (doc (fst r)) = docBody (doc Sample.world0)
  /\ location (fst r) = location Sample.world0
  /\ trace (fst r)
     = [EReplaceState (Some (mkHState 0 0 100 [])) None;
        EDispatch BEFORE_PREPARATION;
        EFetch (href Sample.pageSubmit) (Some [("q", "penguin")]);
        EDispatch AFTER_PREPARATION;
        EReplaceState (Some (mkHState 0 0 100 [])) None;
        EDispatch BEFORE_SWAP]
  /\ snd r0 = Ok tt
  /\ last (trace (fst r0)) = Some (EAssignHref (href Sample.pageSubmit)).
Proof.
  split; [intros; apply performPageSwap_throws|].
  repeat split; vm_compute; reflexivity.
Qed.

(** ** Taking nodes out of a tree *)

Import Shape.

Lemma node_forest_both (P : node -> Prop) (Q : list node -> Prop) :
  (forall e ks, Q ks -> P (Node e ks)) ->
  Q [] ->
  (forall n f, P n -> Q f -> Q (n :: f)) ->
  (forall n, P n) /\ (forall f, Q f).
Proof.
  intros HN H0 HC.
  assert (HP : forall n, P n) by (apply (node_forest_ind P Q); assumption).
  split; [exact HP|].
  induction f as [|n f IH]; [exact H0|apply HC; [apply HP|exact IH]].
Qed.

Lemma substN_eq i new e ks :
  substN i new (Node e ks)
  = match substF i new ks with
    | Some (old, ks') => Some (old, Node e ks')
    | None => None
    end.
Proof. reflexivity. Qed.

Lemma substF_cons i new k r :
  substF i new (k :: r)
  = if Nat.eqb (nid (nodeElem k)) i then Some (k, new ++ r)
    else match substN i new k with
         | Some (old, k') => Some (old, k' :: r)
         | None =>
             match substF i new r with
             | Some (old, r') => Some (old, k :: r')
             | None => None
             end
         end.
Proof. reflexivity. Qed.

Lemma elts_eq e ks : elts (Node e ks) = e :: eltsF ks.
Proof. reflexivity. Qed.

Lemma eltsF_cons k r : eltsF (k :: r) = elts k ++ eltsF r.
Proof. reflexivity. Qed.

Lemma eltsF_app f g : eltsF (f ++ g) = eltsF f ++ eltsF g.
Proof. unfold eltsF. apply flat_map_app. Qed.

Lemma elts_head n : exists l, elts n = nodeElem n :: l.
Proof. destruct n as [e ks]. exists (eltsF ks). reflexivity. Qed.

Global Opaque substN substF.

(** What is taken out and what is left are, together, what was there
    and what was put in. *)
Lemma subst_perm i new :
  (forall n old n',
     substN i new n = Some (old, n') -> elts n' ++ elts old ≡ₚ elts n ++ eltsF new)
  /\ (forall f old f',
        substF i new f = Some (old, f') -> eltsF f' ++ elts old ≡ₚ eltsF f ++ eltsF new).
Proof.
  apply node_forest_both.
  - intros e ks IH old n'. rewrite substN_eq.
    destruct (substF i new ks) as [[o ks']|] eqn:Hs; [|discriminate].
    intros [= <- <-]. rewrite !elts_eq. simpl. f_equiv. apply IH. reflexivity.
  - intros old f'. discriminate.
  - intros k r IHk IHr old f'. rewrite substF_cons.
    destruct (Nat.eqb (nid (nodeElem k)) i).
    { intros [= <- <-]. rewrite eltsF_app, !eltsF_cons. solve_Permutation. }
    destruct (substN i new k) as [[o k']|] eqn:Hk.
    { intros [= <- <-]. rewrite !eltsF_cons.
      specialize (IHk _ _ eq_refl).
      rewrite <- (app_assoc (elts k')), (Permutation_app_comm (eltsF r)), app_assoc, IHk.
      solve_Permutation. }
    destruct (substF i new r) as [[o r']|] eqn:Hr; [|discriminate].
    intros [= <- <-]. rewrite !eltsF_cons.
    specialize (IHr _ _ eq_refl).
    rewrite <- !app_assoc, IHr. reflexivity.
Qed.

Lemma subst_old_id i new :
  (forall n old n', substN i new n = Some (old, n') -> nid (nodeElem old) = i)
  /\ (forall f old f', substF i new f = Some (old, f') -> nid (nodeElem old) = i).
Proof.
  apply node_forest_both.
  - intros e ks IH old n'. rewrite substN_eq.
    destruct (substF i new ks) as [[o ks']|] eqn:Hs; [|discriminate].
    intros [= <- <-]. eapply IH. reflexivity.
  - intros old f'. discriminate.
  - intros k r IHk IHr old f'. rewrite substF_cons.
    destruct (Nat.eqb_spec (nid (nodeElem k)) i) as [Heq|Hne].
    { intros [= <- <-]. exact Heq. }
    destruct (substN i new k) as [[o k']|] eqn:Hk.
    { intros [= <- <-]. eapply IHk. reflexivity. }
    destruct (substF i new r) as [[o r']|] eqn:Hr; [|discriminate].
    intros [= <- <-]. eapply IHr. reflexivity.
Qed.

Lemma subst_none i new :
  (forall n, substN i new n = None -> i ∉ map nid (eltsF (nodeKids n)))
  /\ (forall f, substF i new f = None -> i ∉ ids f).
Proof.
  apply node_forest_both.
  - intros e ks IH. rewrite substN_eq. simpl.
    destruct (substF i new ks) as [[o ks']|] eqn:Hs; [discriminate|].
    intros _. apply IH. reflexivity.
  - intros _. unfold ids. simpl. apply not_elem_of_nil.
  - intros k r IHk IHr. rewrite substF_cons.
    destruct (Nat.eqb_spec (nid (nodeElem k)) i) as [Heq|Hne]; [discriminate|].
    destruct (substN i new k) as [[o k']|] eqn:Hk; [discriminate|].
    destruct (substF i new r) as [[o r']|] eqn:Hr; [discriminate|].
    intros _. unfold ids. rewrite eltsF_cons, map_app.
    destruct k as [e ks]. rewrite elts_eq. simpl in *.
    rewrite not_elem_of_cons, not_elem_of_app.
    split; [congruence|]. split; [apply IHk; reflexivity|apply IHr; reflexivity].
Qed.

Lemma ids_single d : ids [d] = map nid (elts d).
Proof. unfold ids, eltsF. simpl. rewrite app_nil_r. reflexivity. Qed.

Lemma substDoc_some i new d old d' :
  substDoc i new d = Some (old, d') ->
  elts d' ++ elts old ≡ₚ elts d ++ eltsF new /\ nid (nodeElem old) = i.
Proof.
  unfold substDoc. destruct (substF i new [d]) as [[o [|x [|y r]]]|] eqn:Hs; try discriminate.
  intros [= <- <-].
  split.
  - pose proof (proj2 (subst_perm i new) _ _ _ Hs) as Hp.
    unfold eltsF in Hp at 1 3. simpl in Hp. rewrite !app_nil_r in Hp. exact Hp.
  - exact (proj2 (subst_old_id i new) _ _ _ Hs).
Qed.

Lemma substDoc_none_single i x d : substDoc i [x] d = None -> i ∉ ids [d].
Proof.
  unfold substDoc. intros H. apply (proj2 (subst_none i [x])).
  rewrite substF_cons in *.
  destruct (Nat.eqb (nid (nodeElem d)) i); [discriminate|].
  destruct (substN i [x] d) as [[o k']|]; [discriminate|].
  reflexivity.
Qed.

(** ** Script re-execution *)

Lemma getAttribute_setAttribute name v l :
  getAttribute name (setAttribute name v l) = Some v.
Proof.
  induction l as [|[n u] r IH]; simpl.
  - rewrite String.eqb_refl. reflexivity.
  - destruct (String.eqb n name) eqn:Hn; simpl; rewrite Hn; [reflexivity|exact IH].
Qed.

(** Every script the loop creates carries the marker. *)
Lemma recreatedScript_marked i s : attrIs execAttr "" (recreatedScript i s) = true.
Proof.
  unfold attrIs, recreatedScript. simpl. rewrite getAttribute_setAttribute. reflexivity.
Qed.

(** The loop passes over a script that carries the marker. *)
Lemma executeScript_marked s w :
  attrIs execAttr "" s = true -> executeScript s w = (w, Ok tt).
Proof.
  intros H. unfold executeScript, skipsScript. rewrite H. reflexivity.
Qed.

Lemma executeScript_skip s w : skipsScript s = true -> executeScript s w = (w, Ok tt).
Proof. intros H. unfold executeScript. rewrite H. reflexivity. Qed.

Lemma executeScript_run s w :
  skipsScript s = false ->
  executeScript s w
  = match substDoc (nid s) [Node (recreatedScript (nextId w) s) []] (doc w) with
    | Some (_, d') =>
        (logEffect (ERunScript (nextId w)) (setDoc d' (setNextId (S (nextId w)) w)), Ok tt)
    | None => (setNextId (S (nextId w)) w, Ok tt)
    end.
Proof.
  intros H. unfold executeScript. rewrite H.
  unfold bind, createElement, get, modify, effect. simpl.
  destruct (substDoc _ _ _) as [[o d']|]; reflexivity.
Qed.

Lemma forEach_skips l w :
  (forall s, s ∈ l -> skipsScript s = true) ->
  forEach l executeScript w = (w, Ok tt).
Proof.
  induction l as [|s r IH]; intros H; simpl; [reflexivity|].
  rewrite (bind_ok _ _ _ _ _ (executeScript_skip s w (H s (list_elem_of_here _ _)))).
  apply IH. intros s' Hs'. apply H. apply list_elem_of_further. exact Hs'.
Qed.

(** The loop over a list that holds every script of the page that is
    still to be run leaves a page whose scripts are all passed over. *)
Lemma executeScripts_loop l w :
  wellFormed w ->
  (forall s, s ∈ elts (doc w) -> selScript s = true -> skipsScript s = false -> s ∈ l) ->
  exists w',
    forEach l executeScript w = (w', Ok tt)
    /\ wellFormed w'
    /\ (forall s, s ∈ elts (doc w') -> selScript s = true -> skipsScript s = true).
Proof.
  revert w. induction l as [|s r IH]; intros w Hwf Hin.
  - exists w. split; [reflexivity|]. split; [exact Hwf|].
    intros s Hs Hscr. destruct (skipsScript s) eqn:Hsk; [reflexivity|].
    exfalso. eapply not_elem_of_nil. apply (Hin s Hs Hscr Hsk).
  - simpl. destruct (skipsScript s) eqn:Hsk.
    + rewrite (bind_ok _ _ _ _ _ (executeScript_skip s w Hsk)).
      apply IH; [exact Hwf|].
      intros s' Hs' Hscr Hsk'. specialize (Hin s' Hs' Hscr Hsk').
      apply elem_of_cons in Hin as [->|Hin]; [congruence|exact Hin].
    + destruct Hwf as [Hnd Hlt]. rewrite ids_single in Hnd, Hlt.
      assert (Hfresh : nextId w ∉ map nid (elts (doc w))).
      { intros Hc. rewrite Forall_forall in Hlt. specialize (Hlt _ Hc). lia. }
      pose proof (executeScript_run s w Hsk) as Hrun.
      destruct (substDoc (nid s) [Node (recreatedScript (nextId w) s) []] (doc w))
        as [[old d']|] eqn:Hsub.
      * rewrite (bind_ok _ _ _ _ _ Hrun).
        destruct (substDoc_some _ _ _ _ _ Hsub) as [Hperm Hold].
        change (eltsF [Node (recreatedScript (nextId w) s) []])
          with [recreatedScript (nextId w) s] in Hperm.
        assert (Hnd2 : NoDup (map nid (elts d' ++ elts old))).
        { rewrite Hperm, map_app. apply NoDup_app. split; [exact Hnd|]. split.
          - intros x Hx Hx'. apply list_elem_of_singleton in Hx'. simpl in Hx'.
            subst x. contradiction.
          - apply NoDup_singleton. }
        rewrite map_app in Hnd2. apply NoDup_app in Hnd2 as (Hnd' & Hdisj & _).
        apply IH.
        { split; rewrite ids_single; simpl; [exact Hnd'|].
          apply Forall_forall. intros i Hi.
          assert (Hi' : i ∈ map nid (elts (doc w) ++ [recreatedScript (nextId w) s])).
          { rewrite <- Hperm, map_app. apply elem_of_app. left. exact Hi. }
          rewrite map_app in Hi'. apply elem_of_app in Hi' as [Hi'|Hi'].
          - rewrite Forall_forall in Hlt. specialize (Hlt _ Hi'). lia.
          - apply list_elem_of_singleton in Hi'. simpl in Hi'. lia. }
        simpl. intros s' Hs' Hscr Hsk'.
        assert (Hs'' : s' ∈ elts (doc w) ++ [recreatedScript (nextId w) s]).
        { rewrite <- Hperm. apply elem_of_app. left. exact Hs'. }
        apply elem_of_app in Hs'' as [Hs''|Hs''].
        -- specialize (Hin s' Hs'' Hscr Hsk').
           apply elem_of_cons in Hin as [->|Hin]; [|exact Hin].
           exfalso. apply (Hdisj (nid s)).
           ++ apply list_elem_of_fmap. exists s. split; [reflexivity|exact Hs'].
           ++ destruct (elts_head old) as [t Ht]. rewrite Ht. simpl.
              rewrite Hold. apply list_elem_of_here.
        -- apply list_elem_of_singleton in Hs''. subst s'.
           unfold skipsScript in Hsk'. rewrite recreatedScript_marked in Hsk'.
           discriminate.
      * rewrite (bind_ok _ _ _ _ _ Hrun).
        apply substDoc_none_single in Hsub. rewrite ids_single in Hsub.
        apply IH.
        { split; rewrite ids_single; simpl; [exact Hnd|].
          eapply Forall_impl; [exact Hlt|]. simpl. intros; lia. }
        simpl. intros s' Hs' Hscr Hsk'. specialize (Hin s' Hs' Hscr Hsk').
        apply elem_of_cons in Hin as [->|Hin]; [|exact Hin].
        exfalso. apply Hsub. apply list_elem_of_fmap. exists s. split; [reflexivity|exact Hs'].
Qed.

(** C9. On a well-formed page, [executeScripts] ends normally, every
    script it creates carries the marker [data-mkdocs-exec], the loop
    passes over every script that carries it, and after one run every
    script of the page is passed over: a second run returns the world of
    the first, with the same document and no further script run. *)
Theorem executeScripts_idempotent w :
  wellFormed w ->
  let w1 := fst (executeScripts w) in
  snd (executeScripts w) = Ok tt
  /\ (forall i s, attrIs execAttr "" (recreatedScript i s) = true)
  /\ (forall s w0, attrIs execAttr "" s = true -> executeScript s w0 = (w0, Ok tt))
  /\ (forall s, s ∈ documentScripts w1 -> skipsScript s = true)
  /\ executeScripts w1 = (w1, Ok tt).
Proof.
  intros Hwf w1.
  assert (Hloop : exists w',
             executeScripts w = (w', Ok tt)
             /\ (forall s, s ∈ elts (doc w') -> selScript s = true -> skipsScript s = true)).
  { unfold executeScripts. rewrite get_bind.
    destruct (executeScripts_loop (documentScripts w) w Hwf) as (w' & Heq & _ & Hall).
    - intros s Hs Hscr _. unfold documentScripts.
      apply list_elem_of_In, List.filter_In. split; [apply list_elem_of_In; exact Hs|exact Hscr].
    - exists w'. split; assumption. }
  destruct Hloop as (w' & Heq & Hall).
  assert (Hw1 : w1 = w') by (unfold w1; rewrite Heq; reflexivity).
  assert (Hskip : forall s, s ∈ documentScripts w1 -> skipsScript s = true).
  { rewrite Hw1. intros s Hs. unfold documentScripts in Hs.
    apply list_elem_of_In, List.filter_In in Hs as [Hs Hscr].
    apply Hall; [apply list_elem_of_In; exact Hs|exact Hscr]. }
  split; [rewrite Heq; reflexivity|].
  split; [apply recreatedScript_marked|].
  split; [intros s w0; apply executeScript_marked|].
  split; [exact Hskip|].
  unfold executeScripts. rewrite get_bind. apply forEach_skips. exact Hskip.
Qed.

Lemma executeScripts_idempotent_witness :
  wellFormed Sample.scriptWorld
  /\ executeScripts (fst (executeScripts Sample.scriptWorld))
     = (fst (executeScripts Sample.scriptWorld), Ok tt).
Proof.
  assert (Hwf : wellFormed Sample.scriptWorld).
  { split; apply (bool_decide_unpack _); vm_compute; exact I. }
  split; [exact Hwf|].
  destruct (executeScripts_idempotent Sample.scriptWorld Hwf) as (_ & _ & _ & _ & H).
  exact H.
Defined.

(** The first run on that page re-creates the inline script, and only
    that one. *)
Example executeScripts_example :
  trace (fst (executeScripts Sample.scriptWorld)) = [ERunScript 100]
  /\ map nid (documentScripts (fst (executeScripts Sample.scriptWorld))) = [100; 8; 6].
Proof. split; vm_compute; reflexivity. Qed.

(** ** Where a node is taken out *)

Lemma subst_split i new :
  (forall n old n',
     substN i new n = Some (old, n') ->
     exists l1 l2,
       elts n = nodeElem n :: l1 ++ elts old ++ l2
       /\ elts n' = nodeElem n :: l1 ++ eltsF new ++ l2
       /\ i ∉ map nid l1)
  /\ (forall f old f',
        substF i new f = Some (old, f') ->
        exists l1 l2,
          eltsF f = l1 ++ elts old ++ l2
          /\ eltsF f' = l1 ++ eltsF new ++ l2
          /\ i ∉ map nid l1).
Proof.
  apply node_forest_both.
  - intros e ks IH old n'. rewrite substN_eq.
    destruct (substF i new ks) as [[o ks']|] eqn:Hs; [|discriminate].
    intros [= <- <-]. destruct (IH _ _ eq_refl) as (l1 & l2 & H1 & H2 & H3).
    exists l1, l2. rewrite !elts_eq, H1, H2. simpl. auto.
  - intros old f'. discriminate.
  - intros k r IHk IHr old f'. rewrite substF_cons.
    destruct (Nat.eqb_spec (nid (nodeElem k)) i) as [Heq|Hne].
    { intros [= <- <-]. exists [], (eltsF r).
      rewrite eltsF_app, eltsF_cons. simpl. split; [reflexivity|].
      split; [reflexivity|]. apply not_elem_of_nil. }
    destruct (substN i new k) as [[o k']|] eqn:Hk.
    { intros [= <- <-]. destruct (IHk _ _ eq_refl) as (l1 & l2 & H1 & H2 & H3).
      exists (nodeElem k :: l1), (l2 ++ eltsF r).
      rewrite !eltsF_cons, H1, H2. simpl. rewrite <- !app_assoc.
      split; [reflexivity|]. split; [reflexivity|].
      rewrite not_elem_of_cons. split; [congruence|exact H3]. }
    destruct (substF i new r) as [[o r']|] eqn:Hr; [|discriminate].
    intros [= <- <-]. destruct (IHr _ _ eq_refl) as (l1 & l2 & H1 & H2 & H3).
    exists (elts k ++ l1), l2.
    rewrite !eltsF_cons, H1, H2, <- !app_assoc.
    split; [reflexivity|]. split; [reflexivity|].
    rewrite map_app, not_elem_of_app. split; [|exact H3].
    destruct k as [e ks]. rewrite elts_eq. simpl in *.
    rewrite not_elem_of_cons. split; [congruence|].
    apply (proj1 (subst_none i new) (Node e ks)). exact Hk.
Qed.

Lemma substF_old_mem i new f old f' :
  substF i new f = Some (old, f') -> nodeElem old ∈ eltsF f.
Proof.
  intros H. destruct (proj2 (subst_split i new) _ _ _ H) as (l1 & l2 & H1 & _).
  rewrite H1. destruct (elts_head old) as [t Ht]. rewrite Ht.
  rewrite elem_of_app. right. apply list_elem_of_here.
Qed.

Lemma substF_notin i new f : i ∉ ids f -> substF i new f = None.
Proof.
  intros Hn. destruct (substF i new f) as [[old f']|] eqn:H; [|reflexivity].
  exfalso. apply Hn. unfold ids.
  rewrite <- (proj2 (subst_old_id i new) _ _ _ H).
  apply list_elem_of_fmap. exists (nodeElem old). split; [reflexivity|].
  eapply substF_old_mem. exact H.
Qed.

Lemma substF_found i new f :
  i ∈ ids f -> exists old f', substF i new f = Some (old, f').
Proof.
  intros Hin. destruct (substF i new f) as [[old f']|] eqn:H; [eauto|].
  exfalso. exact (proj2 (subst_none i new) f H Hin).
Qed.

Lemma substF_app i new f g :
  substF i new (f ++ g)
  = match substF i new f with
    | Some (old, f') => Some (old, f' ++ g)
    | None =>
        match substF i new g with
        | Some (old, g') => Some (old, f ++ g')
        | None => None
        end
    end.
Proof.
  induction f as [|k r IH]; simpl.
  - change (substF i new []) with (@None (node * list node)).
    destruct (substF i new g) as [[o g']|]; reflexivity.
  - rewrite !substF_cons.
    destruct (Nat.eqb (nid (nodeElem k)) i); [rewrite app_assoc; reflexivity|].
    destruct (substN i new k) as [[o k']|]; [reflexivity|].
    rewrite IH.
    destruct (substF i new r) as [[o r']|]; [reflexivity|].
    destruct (substF i new g) as [[o g']|]; reflexivity.
Qed.

(** ** Paths *)

Lemma ids_app f g : ids (f ++ g) = ids f ++ ids g.
Proof. unfold ids. rewrite eltsF_app, map_app. reflexivity. Qed.

Lemma ids_cons e ks f : ids (Node e ks :: f) = nid e :: ids ks ++ ids f.
Proof. unfold ids. rewrite eltsF_cons, elts_eq. simpl. rewrite map_app. reflexivity. Qed.

Lemma onPath_mem pi e f :
  onPath pi e f -> e ∈ eltsF f /\ (forall a, a ∈ pi -> a ∈ eltsF f).
Proof.
  induction 1 as [e ks f1 f2|a ks f1 f2 pi e H [IH1 IH2]].
  - split.
    + rewrite eltsF_app, eltsF_cons, elts_eq. rewrite elem_of_app. right.
      apply list_elem_of_here.
    + intros a Ha. inversion Ha.
  - split.
    + rewrite eltsF_app, eltsF_cons, elts_eq, elem_of_app. right.
      apply list_elem_of_further. rewrite elem_of_app. left. exact IH1.
    + intros b Hb. rewrite eltsF_app, eltsF_cons, elts_eq, elem_of_app. right.
      apply elem_of_cons in Hb as [->|Hb]; [apply list_elem_of_here|].
      apply list_elem_of_further. rewrite elem_of_app. left. apply IH2. exact Hb.
Qed.

Lemma onPath_cons pi e n f : onPath pi e f -> onPath pi e (n :: f).
Proof.
  intros H. inversion H as [e' ks f1 f2|a ks f1 f2 pi' e' H']; subst.
  - apply (onPath_here e ks (n :: f1) f2).
  - apply (onPath_below a ks (n :: f1) f2 pi' e H').
Qed.

Lemma onPath_app_r pi e f g : onPath pi e g -> onPath pi e (f ++ g).
Proof.
  intros H. induction f as [|n f IH]; [exact H|]. simpl. apply onPath_cons. exact IH.
Qed.

Lemma onPath_app_l pi e f g : onPath pi e f -> onPath pi e (f ++ g).
Proof.
  intros H. inversion H as [e' ks f1 f2|a ks f1 f2 pi' e' H']; subst.
  - rewrite <- app_assoc. simpl. apply onPath_here.
  - rewrite <- app_assoc. simpl. apply onPath_below. exact H'.
Qed.

Lemma onPath_single a ks pi e : onPath pi e ks -> onPath (a :: pi) e [Node a ks].
Proof. intros H. apply (onPath_below a ks [] [] pi e H). Qed.

(** A node taken out or replaced elsewhere leaves a path as it is. *)
Lemma subst_onPath_miss i new pi e f :
  onPath pi e f ->
  (forall a, a ∈ pi -> nid a <> i) ->
  nid e <> i ->
  forall old f', substF i new f = Some (old, f') -> onPath pi e f'.
Proof.
  induction 1 as [e ks f1 f2|a ks f1 f2 pi e H IH]; intros Hpi He old f'.
  - rewrite substF_app.
    destruct (substF i new f1) as [[o f1']|].
    { intros [= <- <-]. apply onPath_here. }
    rewrite substF_cons. simpl.
    destruct (Nat.eqb_spec (nid e) i) as [Heq|_]; [contradiction|].
    rewrite substN_eq.
    destruct (substF i new ks) as [[o ks']|].
    { intros [= <- <-]. apply onPath_here. }
    destruct (substF i new f2) as [[o f2']|]; [|discriminate].
    intros [= <- <-]. apply onPath_here.
  - rewrite substF_app.
    destruct (substF i new f1) as [[o f1']|].
    { intros [= <- <-]. apply onPath_below. exact H. }
    rewrite substF_cons. simpl.
    destruct (Nat.eqb_spec (nid a) i) as [Heq|_].
    { exfalso. apply (Hpi a); [apply list_elem_of_here|exact Heq]. }
    rewrite substN_eq.
    destruct (substF i new ks) as [[o ks']|] eqn:Hks.
    { intros [= <- <-]. apply onPath_below.
      apply (IH (fun b Hb => Hpi b (list_elem_of_further _ _ _ Hb)) He _ _ eq_refl). }
    destruct (substF i new f2) as [[o f2']|]; [|discriminate].
    intros [= <- <-]. apply onPath_below. exact H.
Qed.

(** With distinct identities, replacing the element at the end of a path
    by a node puts that node at the end of the path. *)
Lemma subst_onPath_hit new pi e f :
  onPath pi e f ->
  NoDup (ids f) ->
  forall old f',
    substF (nid e) new f = Some (old, f') ->
    nodeElem old = e
    /\ (forall a ks, new = [Node a ks] -> onPath pi a f').
Proof.
  induction 1 as [e ks f1 f2|a ks f1 f2 pi e H IH]; intros Hnd old f'.
  - rewrite ids_app, ids_cons in Hnd. apply NoDup_app in Hnd as (_ & Hdisj & _).
    rewrite substF_app, substF_notin.
    2:{ intros Hc. apply (Hdisj _ Hc). apply list_elem_of_here. }
    rewrite substF_cons. simpl. rewrite Nat.eqb_refl.
    intros [= <- <-]. split; [reflexivity|].
    intros a ks' ->. simpl. apply onPath_here.
  - destruct (onPath_mem _ _ _ H) as [Hmem _].
    assert (Hin : nid e ∈ ids ks).
    { unfold ids. apply list_elem_of_fmap. exists e. split; [reflexivity|exact Hmem]. }
    rewrite ids_app, ids_cons in Hnd. apply NoDup_app in Hnd as (_ & Hdisj & Hnd).
    apply NoDup_cons in Hnd as [Ha Hnd]. apply NoDup_app in Hnd as (Hks & _ & _).
    rewrite substF_app, substF_notin.
    2:{ intros Hc. apply (Hdisj _ Hc). apply list_elem_of_further.
        apply elem_of_app. left. exact Hin. }
    rewrite substF_cons. simpl.
    destruct (Nat.eqb_spec (nid a) (nid e)) as [Heq|_].
    { exfalso. apply Ha. rewrite Heq. apply elem_of_app. left. exact Hin. }
    rewrite substN_eq.
    destruct (substF_found (nid e) new ks Hin) as (o & ks' & Hs). rewrite Hs.
    intros [= <- <-]. destruct (IH Hks _ _ Hs) as [Ho Hp].
    split; [exact Ho|]. intros b kb Hnew. apply onPath_below. apply (Hp b kb Hnew).
Qed.

Lemma NoDup_nid_eq (l : list elem) e1 e2 :
  NoDup (map nid l) -> e1 ∈ l -> e2 ∈ l -> nid e1 = nid e2 -> e1 = e2.
Proof.
  induction l as [|a r IH]; simpl; intros Hnd H1 H2 Heq; [inversion H1|].
  apply NoDup_cons in Hnd as [Ha Hnd].
  apply elem_of_cons in H1 as [->|H1]; apply elem_of_cons in H2 as [->|H2].
  - reflexivity.
  - exfalso. apply Ha. rewrite Heq. apply list_elem_of_fmap. eauto.
  - exfalso. apply Ha. rewrite <- Heq. apply list_elem_of_fmap. eauto.
  - apply IH; assumption.
Qed.

(** ** The loop over the persistent elements *)

Lemma setDoc_doc w : setDoc (doc w) w = w.
Proof. destruct w. reflexivity. Qed.

Lemma find_app {A} (p : A -> bool) l1 l2 :
  List.find p (l1 ++ l2)
  = match List.find p l1 with Some a => Some a | None => List.find p l2 end.
Proof.
  induction l1 as [|a r IH]; simpl; [reflexivity|].
  destruct (p a); [reflexivity|exact IH].
Qed.

Lemma find_mem {A} (p : A -> bool) l a :
  List.find p l = Some a -> a ∈ l /\ p a = true.
Proof.
  intros H. apply List.find_some in H as [H1 H2]. split; [|exact H2].
  apply list_elem_of_In. exact H1.
Qed.

Lemma find_exists {A} (p : A -> bool) l a :
  a ∈ l -> p a = true -> exists b, List.find p l = Some b.
Proof.
  intros Hin Hp. destruct (List.find p l) as [b|] eqn:H; [eauto|].
  exfalso. apply list_elem_of_In in Hin.
  pose proof (List.find_none _ _ H _ Hin) as Hn. congruence.
Qed.

Lemma selPersistAny_value p :
  selPersistAny p = true ->
  exists v, getAttribute persistAttr (attrs p) = Some v /\ selPersist v p = true.
Proof.
  unfold selPersistAny, hasAttribute, selPersist, attrIs.
  destruct (getAttribute persistAttr (attrs p)) as [v|]; [|discriminate].
  intros _. exists v. split; [reflexivity|apply String.eqb_refl].
Qed.

Lemma selPersist_any v a : selPersist v a = true -> selPersistAny a = true.
Proof.
  unfold selPersistAny, hasAttribute, selPersist, attrIs.
  destruct (getAttribute persistAttr (attrs a)); [reflexivity|discriminate].
Qed.

Lemma selPersist_fun v x a : selPersist v a = true -> selPersist x a = true -> v = x.
Proof.
  unfold selPersist, attrIs.
  destruct (getAttribute persistAttr (attrs a)) as [u|]; [|discriminate].
  intros H1 H2. apply String.eqb_eq in H1, H2. congruence.
Qed.

Lemma substDoc_inv i new d old d' :
  substDoc i new d = Some (old, d') -> substF i new [d] = Some (old, [d']).
Proof.
  unfold substDoc. destruct (substF i new [d]) as [[o [|y [|z r]]]|]; try discriminate.
  intros [= <- <-]. reflexivity.
Qed.

Lemma substDoc_single i m d :
  i ∈ ids [d] -> exists old d', substDoc i [m] d = Some (old, d').
Proof.
  intros Hin. destruct (substDoc i [m] d) as [[old d']|] eqn:H; [eauto|].
  exfalso. exact (substDoc_none_single _ _ _ H Hin).
Qed.

Lemma substDoc_notin i new d : i ∉ ids [d] -> substDoc i new d = None.
Proof. intros H. unfold substDoc. rewrite substF_notin by exact H. reflexivity. Qed.

Lemma eltsF_single d : eltsF [d] = elts d.
Proof. unfold eltsF. simpl. apply app_nil_r. Qed.

Lemma SwapInv_nodup_doc x X PX Y PY d det :
  SwapInv x X PX Y PY d det -> NoDup (map nid (elts d)) /\ NoDup (ids det).
Proof.
  intros [Hnd _ _ _ _]. apply NoDup_app in Hnd as (H1 & _ & H2).
  rewrite ids_single in H1. split; assumption.
Qed.

(** An element of the document and one of the nodes taken out are not
    the same. *)
Lemma SwapInv_apart x X PX Y PY d det a b :
  SwapInv x X PX Y PY d det -> a ∈ elts d -> b ∈ eltsF det -> nid a <> nid b.
Proof.
  intros [Hnd _ _ _ _] Ha Hb Heq. apply NoDup_app in Hnd as (_ & Hdisj & _).
  apply (Hdisj (nid a)).
  - rewrite ids_single. apply list_elem_of_fmap. eauto.
  - rewrite Heq. unfold ids. apply list_elem_of_fmap. eauto.
Qed.

(** One turn of the loop for an element that may be moved. *)
Lemma restorePersisted_step x X PX Y PY d det p rest w :
  SwapInv x X PX Y PY d det ->
  Movable x X PX Y PY d det p ->
  doc w = d ->
  exists d2 det2,
    restorePersisted (p :: rest) det w = restorePersisted rest det2 (setDoc d2 w)
    /\ SwapInv x X PX Y PY d2 det2
    /\ elts d2 ++ eltsF det2 ≡ₚ elts d ++ eltsF det.
Proof.
  intros Hinv (Hany & Hnx & Hoff & Hsome) Hd.
  assert (Hsame : exists d2 det2,
             restorePersisted rest det w = restorePersisted rest det2 (setDoc d2 w)
             /\ SwapInv x X PX Y PY d2 det2
             /\ elts d2 ++ eltsF det2 ≡ₚ elts d ++ eltsF det).
  { exists d, det. rewrite <- Hd, setDoc_doc. rewrite Hd. auto. }
  destruct (selPersistAny_value p Hany) as (v & Hv & Hpv).
  assert (Hvx : v <> x).
  { intros ->. congruence. }
  simpl. rewrite get_bind, Hv, Hd.
  destruct (querySelector (selPersist v) d) as [t|] eqn:Hq; [|exact Hsame].
  destruct (find_mem _ _ _ Hq) as [Ht Htv].
  destruct (Nat.eqb_spec (nid t) (nid p)) as [Heq|Hne]; [exact Hsame|].
  destruct (SwapInv_nodup_doc _ _ _ _ _ _ _ Hinv) as [Hndd Hnddet].
  destruct Hinv as [Hnd Hpx Hpy Hfree Hx].
  destruct (onPath_mem _ _ _ Hpx) as [HX HPX]. rewrite eltsF_single in HX, HPX.
  destruct (onPath_mem _ _ _ Hpy) as [HY HPY].
  assert (HoffX : forall a, a ∈ PX -> nid a <> nid p).
  { intros a Ha Hc. apply Hoff. rewrite <- Hc. apply list_elem_of_fmap. exists a.
    split; [reflexivity|]. apply elem_of_app. left. exact Ha. }
  assert (HoffXe : nid X <> nid p).
  { intros Hc. apply Hoff. rewrite <- Hc. apply list_elem_of_fmap. exists X.
    split; [reflexivity|]. apply elem_of_app. right. apply list_elem_of_here. }
  assert (HoffY : forall a, a ∈ PY -> nid a <> nid p).
  { intros a Ha Hc. apply Hoff. rewrite <- Hc. apply list_elem_of_fmap. exists a.
    split; [reflexivity|]. apply elem_of_app. right. apply list_elem_of_further.
    apply elem_of_app. left. exact Ha. }
  assert (HoffYe : nid Y <> nid p).
  { intros Hc. apply Hoff. rewrite <- Hc. apply list_elem_of_fmap. exists Y.
    split; [reflexivity|]. apply elem_of_app. right. apply list_elem_of_further.
    apply elem_of_app. right. apply list_elem_of_here. }
  (* the target is none of the elements on the path to X *)
  assert (HtX : forall d1, t ∈ elts d1 -> NoDup (map nid (elts d1)) ->
                   onPath PX X [d1] ->
                   (forall a, a ∈ PX -> nid a <> nid t) /\ nid X <> nid t).
  { intros d1 Ht1 Hnd1 Hp1.
    destruct (onPath_mem _ _ _ Hp1) as [HX1 HPX1]. rewrite eltsF_single in HX1, HPX1.
    split.
    - intros a Ha Hc.
      assert (a = t) by (eapply NoDup_nid_eq; eauto). subst a.
      unfold persistFree in Hfree. rewrite Forall_forall in Hfree.
      specialize (Hfree t Ha). apply selPersist_any in Htv. congruence.
    - intros Hc.
      assert (X = t) by (eapply NoDup_nid_eq; eauto). subst t.
      apply Hvx. eapply selPersist_fun; eauto. }
  (* the second half of the turn: the target is replaced *)
  assert (Hput : forall psub d1 det1,
             t ∈ elts d1 ->
             onPath PX X [d1] ->
             onPath PY Y det1 ->
             elts d1 ++ elts psub ++ eltsF det1 ≡ₚ elts d ++ eltsF det ->
             exists d2 det2,
               match substDoc (nid t) [psub] d1 with
               | Some (old, d2) => modify (setDoc d2) >> restorePersisted rest (old :: det1)
               | None => throw "HierarchyRequestError"
               end w
               = restorePersisted rest det2 (setDoc d2 w)
               /\ SwapInv x X PX Y PY d2 det2
               /\ elts d2 ++ eltsF det2 ≡ₚ elts d ++ eltsF det).
  { intros psub d1 det1 Ht1 Hp1 Hpy1 Hperm.
    assert (Hnd1 : NoDup (map nid (elts d1 ++ elts psub ++ eltsF det1))).
    { rewrite Hperm, map_app. rewrite ids_single in Hnd. exact Hnd. }
    assert (Hndd1 : NoDup (map nid (elts d1))).
    { rewrite map_app in Hnd1. apply NoDup_app in Hnd1 as (H & _). exact H. }
    destruct (HtX d1 Ht1 Hndd1 Hp1) as [HtPX HtXe].
    destruct (substDoc_single (nid t) psub d1) as (old & d2 & Hs).
    { rewrite ids_single. apply list_elem_of_fmap. eauto. }
    rewrite Hs. exists d2, (old :: det1).
    destruct (substDoc_some _ _ _ _ _ Hs) as [Hp2 _].
    rewrite eltsF_single in Hp2.
    assert (Hperm2 : elts d2 ++ eltsF (old :: det1) ≡ₚ elts d ++ eltsF det).
    { rewrite eltsF_cons, <- Hperm, app_assoc, Hp2. rewrite <- app_assoc. reflexivity. }
    split; [reflexivity|]. split; [|exact Hperm2].
    constructor.
    - rewrite ids_single. unfold ids. rewrite <- map_app, Hperm2, map_app.
      rewrite ids_single in Hnd. exact Hnd.
    - apply substDoc_inv in Hs.
      eapply subst_onPath_miss; [exact Hp1| | |exact Hs]; assumption.
    - apply onPath_cons. exact Hpy1.
    - exact Hfree.
    - exact Hx. }
  unfold takeOut.
  destruct (substDoc (nid p) [] d) as [[psub d1]|] eqn:Hs1.
  - (* the element is in the document *)
    destruct (substDoc_some _ _ _ _ _ Hs1) as [_ Hid].
    apply substDoc_inv in Hs1.
    destruct (proj2 (subst_split (nid p) []) _ _ _ Hs1) as (l1 & l2 & E1 & E2 & Hl1).
    rewrite eltsF_single in E1, E2. simpl in E2.
    assert (Hp1 : onPath PX X [d1]).
    { eapply subst_onPath_miss; [exact Hpx| | |exact Hs1]; assumption. }
    assert (Hpd : nodeElem psub = p).
    { apply elem_of_app in Hsome as [Hsome|Hsome].
      - eapply (NoDup_nid_eq (elts d)); [exact Hndd| |exact Hsome|exact Hid].
        rewrite <- eltsF_single. eapply substF_old_mem. exact Hs1.
      - exfalso. apply NoDup_app in Hnd as (_ & Hdisj & _). apply (Hdisj (nid p)).
        + rewrite <- Hid. unfold ids. apply list_elem_of_fmap. eexists. split; [reflexivity|].
          eapply substF_old_mem. exact Hs1.
        + unfold ids. apply list_elem_of_fmap. eauto. }
    assert (Ht1 : t ∈ elts d1).
    { destruct (elts_head psub) as [tl Htl]. rewrite Hpd in Htl.
      unfold querySelector in Hq. rewrite E1, Htl, find_app in Hq.
      rewrite E2. apply elem_of_app. left.
      destruct (List.find (selPersist v) l1) as [a|] eqn:Hf.
      - injection Hq as ->. apply (find_mem _ _ _ Hf).
      - simpl in Hq. rewrite Hpv in Hq. injection Hq as <-. contradiction. }
    apply (Hput psub d1 det Ht1 Hp1 Hpy).
    rewrite E1, E2. solve_Permutation.
  - destruct (substF (nid p) [] det) as [[psub det1]|] eqn:Hs2; [|exact Hsame].
    (* the element is among the nodes taken out *)
    destruct (proj2 (subst_split (nid p) []) _ _ _ Hs2) as (l1 & l2 & E1 & E2 & Hl1).
    simpl in E2.
    assert (Hpy1 : onPath PY Y det1).
    { eapply subst_onPath_miss; [exact Hpy| | |exact Hs2]; assumption. }
    apply (Hput psub d det1 Ht Hpx Hpy1).
    rewrite E1, E2. solve_Permutation.
Qed.

Lemma selPersist_value x a :
  selPersist x a = true -> getAttribute persistAttr (attrs a) = Some x.
Proof.
  unfold selPersist, attrIs.
  destruct (getAttribute persistAttr (attrs a)) as [v|]; [|discriminate].
  intros H. apply String.eqb_eq in H. congruence.
Qed.

Lemma perm_mem {A} (l k : list A) a : l ≡ₚ k -> a ∈ l -> a ∈ k.
Proof. intros H Ha. rewrite <- H. exact Ha. Qed.

(** The turns after the one of [A]: [A] stays where it was put. *)
Lemma restorePersisted_after x A PX B PY post :
  forall d det w,
    SwapInv x A PX B PY d det ->
    (forall p, p ∈ post -> Movable x A PX B PY d det p) ->
    doc w = d ->
    exists d' det',
      restorePersisted post det w = (setDoc d' w, Ok tt)
      /\ SwapInv x A PX B PY d' det'.
Proof.
  induction post as [|p rest IH]; intros d det w Hinv Hmov Hd.
  - exists d, det. simpl. rewrite <- Hd, setDoc_doc. rewrite Hd. auto.
  - destruct (restorePersisted_step x A PX B PY d det p rest w Hinv
                (Hmov p (list_elem_of_here _ _)) Hd)
      as (d2 & det2 & Heq & Hinv2 & Hperm).
    rewrite Heq.
    destruct (IH d2 det2 (setDoc d2 w) Hinv2) as (d' & det' & Heq' & Hinv').
    + intros q Hq. destruct (Hmov q (list_elem_of_further _ _ _ Hq)) as (H1 & H2 & H3 & H4).
      repeat split; try assumption. eapply perm_mem; [symmetry; exact Hperm|exact H4].
    + reflexivity.
    + exists d', det'. split; [exact Heq'|exact Hinv'].
Qed.

(** The turns up to and including the one of [A]: while [B] is the one
    element of the document marked [x], and [A] the one among the nodes
    taken out, the turn of [A] puts it in the place of [B]. *)
Lemma restorePersisted_before x A B PX PA post pre :
  forall d det w,
    SwapInv x B PX A PA d det ->
    selPersist x A = true ->
    (forall e, e ∈ elts d -> selPersist x e = true -> e = B) ->
    (forall e, e ∈ eltsF det -> selPersist x e = true -> e = A) ->
    (forall p, p ∈ pre -> Movable x B PX A PA d det p) ->
    (forall p, p ∈ post ->
       selPersistAny p = true /\ selPersist x p = false
       /\ (nid p ∉ map nid (PX ++ A :: ([] ++ [B])))
       /\ p ∈ elts d ++ eltsF det) ->
    doc w = d ->
    exists d' det',
      restorePersisted (pre ++ A :: post) det w = (setDoc d' w, Ok tt)
      /\ SwapInv x A PX B [] d' det'.
Proof.
  induction pre as [|p rest IH]; intros d det w Hinv HxA HuB HuA Hpre Hpost Hd.
  - (* the turn of A *)
    simpl. rewrite get_bind, (selPersist_value x A HxA), Hd.
    destruct (SwapInv_nodup_doc _ _ _ _ _ _ _ Hinv) as [Hndd Hnddet].
    pose proof Hinv as [Hnd Hpx Hpy Hfree HxB].
    destruct (onPath_mem _ _ _ Hpx) as [HB _]. rewrite eltsF_single in HB.
    destruct (onPath_mem _ _ _ Hpy) as [HA _].
    destruct (find_exists (selPersist x) (elts d) B HB HxB) as [b Hb].
    destruct (find_mem _ _ _ Hb) as [Hb1 Hb2].
    assert (b = B) by (apply HuB; assumption). subst b.
    unfold querySelector. rewrite Hb.
    pose proof (SwapInv_apart _ _ _ _ _ _ _ B A Hinv HB HA) as Hne.
    destruct (Nat.eqb_spec (nid B) (nid A)) as [Heq|_]; [contradiction|].
    unfold takeOut. rewrite substDoc_notin.
    2:{ rewrite ids_single. intros Hc. apply list_elem_of_fmap in Hc as (a & Ha1 & Ha2).
        apply (SwapInv_apart _ _ _ _ _ _ _ a A Hinv Ha2 HA). congruence. }
    destruct (substF_found (nid A) [] det) as (asub & det1 & Hs1).
    { unfold ids. apply list_elem_of_fmap. eauto. }
    rewrite Hs1.
    destruct (subst_onPath_hit [] PA A det Hpy Hnddet _ _ Hs1) as [HasubA _].
    destruct (proj2 (subst_split (nid A) []) _ _ _ Hs1) as (l1 & l2 & E1 & E2 & _).
    simpl in E2.
    destruct (substDoc_single (nid B) asub d) as (old & d2 & Hs2).
    { rewrite ids_single. apply list_elem_of_fmap. eauto. }
    rewrite Hs2.
    destruct (substDoc_some _ _ _ _ _ Hs2) as [Hp2 _]. rewrite eltsF_single in Hp2.
    pose proof (substDoc_inv _ _ _ _ _ Hs2) as Hs2'.
    assert (Hndd' : NoDup (ids [d])) by (rewrite ids_single; exact Hndd).
    destruct asub as [a ks]. simpl in HasubA. subst a.
    destruct (subst_onPath_hit [Node A ks] PX B [d] Hpx Hndd' _ _ Hs2') as [HoldB HpA].
    specialize (HpA A ks eq_refl).
    assert (Hperm : elts d2 ++ eltsF (old :: det1) ≡ₚ elts d ++ eltsF det).
    { rewrite eltsF_cons, app_assoc, Hp2, E1, E2. solve_Permutation. }
    assert (Hinv2 : SwapInv x A PX B [] d2 (old :: det1)).
    { constructor.
      - rewrite ids_single. unfold ids. rewrite <- map_app, Hperm, map_app.
        rewrite ids_single in Hnd. exact Hnd.
      - exact HpA.
      - destruct old as [o ko]. simpl in HoldB. subst o.
        apply (onPath_here B ko [] det1).
      - exact Hfree.
      - exact HxA. }
    unfold bind at 1. simpl.
    destruct (restorePersisted_after x A PX B [] post d2 (old :: det1) (setDoc d2 w) Hinv2)
      as (d' & det' & Heq' & Hinv').
    + intros q Hq. destruct (Hpost q Hq) as (H1 & H2 & H3 & H4).
      repeat split; try assumption. eapply perm_mem; [symmetry; exact Hperm|exact H4].
    + reflexivity.
    + exists d', det'. split; [exact Heq'|exact Hinv'].
  - (* a turn before the one of A *)
    simpl app.
    destruct (restorePersisted_step x B PX A PA d det p (rest ++ A :: post) w Hinv
                (Hpre p (list_elem_of_here _ _)) Hd)
      as (d2 & det2 & Heq & Hinv2 & Hperm).
    rewrite Heq.
    pose proof Hinv2 as [_ Hpx2 Hpy2 _ _].
    destruct (onPath_mem _ _ _ Hpx2) as [HB2 _]. rewrite eltsF_single in HB2.
    destruct (onPath_mem _ _ _ Hpy2) as [HA2 _].
    destruct (IH d2 det2 (setDoc d2 w) Hinv2 HxA) as (d' & det' & Heq' & Hinv').
    + intros e He Hxe.
      assert (He' : e ∈ elts d ++ eltsF det).
      { rewrite <- Hperm. apply elem_of_app. left. exact He. }
      apply elem_of_app in He' as [He'|He']; [apply HuB; assumption|].
      assert (e = A) by (apply HuA; assumption). subst e.
      exfalso. apply (SwapInv_apart _ _ _ _ _ _ _ A A Hinv2 He HA2). reflexivity.
    + intros e He Hxe.
      assert (He' : e ∈ elts d ++ eltsF det).
      { rewrite <- Hperm. apply elem_of_app. right. exact He. }
      apply elem_of_app in He' as [He'|He']; [|apply HuA; assumption].
      assert (e = B) by (apply HuB; assumption). subst e.
      exfalso. apply (SwapInv_apart _ _ _ _ _ _ _ B B Hinv2 HB2 He). reflexivity.
    + intros q Hq. destruct (Hpre q (list_elem_of_further _ _ _ Hq)) as (H1 & H2 & H3 & H4).
      repeat split; try assumption. eapply perm_mem; [symmetry; exact Hperm|exact H4].
    + intros q Hq. destruct (Hpost q Hq) as (H1 & H2 & H3 & H4).
      repeat split; try assumption. eapply perm_mem; [symmetry; exact Hperm|exact H4].
    + reflexivity.
    + exists d', det'. split; [exact Heq'|exact Hinv'].
Qed.

(** ** Paths, as computed *)

Lemma pathN_eq i e ks :
  pathN i (Node e ks)
  = if Nat.eqb (nid e) i then Some [e]
    else match pathF i ks with Some p => Some (e :: p) | None => None end.
Proof. reflexivity. Qed.

Lemma pathF_cons i k r :
  pathF i (k :: r) = match pathN i k with Some p => Some p | None => pathF i r end.
Proof. reflexivity. Qed.

Global Opaque pathN pathF.

Lemma path_onPath i :
  (forall n p,
     pathN i n = Some p ->
     exists pi e, p = pi ++ [e] /\ nid e = i /\ onPath pi e [n])
  /\ (forall f p,
        pathF i f = Some p ->
        exists pi e, p = pi ++ [e] /\ nid e = i /\ onPath pi e f).
Proof.
  apply node_forest_both.
  - intros e ks IH p. rewrite pathN_eq.
    destruct (Nat.eqb_spec (nid e) i) as [Heq|Hne].
    { intros [= <-]. exists [], e. split; [reflexivity|]. split; [exact Heq|].
      apply (onPath_here e ks [] []). }
    destruct (pathF i ks) as [q|] eqn:Hq; [|discriminate].
    intros [= <-]. destruct (IH _ eq_refl) as (pi & b & -> & Hb & Hp).
    exists (e :: pi), b. split; [reflexivity|]. split; [exact Hb|].
    apply onPath_single. exact Hp.
  - intros p. discriminate.
  - intros k r IHk IHr p. rewrite pathF_cons.
    destruct (pathN i k) as [q|] eqn:Hq.
    { intros [= <-]. destruct (IHk _ eq_refl) as (pi & b & -> & Hb & Hp).
      exists pi, b. split; [reflexivity|]. split; [exact Hb|].
      apply (onPath_app_l pi b [k] r). exact Hp. }
    intros Hr. destruct (IHr _ Hr) as (pi & b & -> & Hb & Hp).
    exists pi, b. split; [reflexivity|]. split; [exact Hb|].
    apply onPath_cons. exact Hp.
Qed.

Lemma pathF_onPath i f pi e :
  pathF i f = Some (pi ++ [e]) -> nid e = i /\ onPath pi e f.
Proof.
  intros H. destruct (proj2 (path_onPath i) _ _ H) as (pi' & e' & Heq & Hid & Hp).
  apply app_inj_tail in Heq as [-> ->]. split; assumption.
Qed.

Lemma path_notin i :
  (forall n, i ∉ ids [n] -> pathN i n = None)
  /\ (forall f, i ∉ ids f -> pathF i f = None).
Proof.
  apply node_forest_both.
  - intros e ks IH Hn. rewrite pathN_eq.
    rewrite ids_cons in Hn. rewrite not_elem_of_cons, not_elem_of_app in Hn.
    destruct Hn as (Hne & Hks & _).
    destruct (Nat.eqb_spec (nid e) i) as [Heq|_]; [congruence|].
    rewrite (IH Hks). reflexivity.
  - intros _. reflexivity.
  - intros k r IHk IHr Hn. rewrite pathF_cons.
    change (k :: r) with ([k] ++ r) in Hn. rewrite ids_app, not_elem_of_app in Hn.
    destruct Hn as [Hk Hr]. rewrite (IHk Hk). apply IHr. exact Hr.
Qed.

(** ** Nodes that an operation does not reach *)

Lemma appendN_notin i new :
  (forall n, i ∉ ids [n] -> appendN i new n = n)
  /\ (forall f, i ∉ ids f -> map (appendN i new) f = f).
Proof.
  apply node_forest_both.
  - intros e ks IH Hn. simpl.
    rewrite ids_cons in Hn. rewrite not_elem_of_cons, not_elem_of_app in Hn.
    destruct Hn as (Hne & Hks & _).
    destruct (Nat.eqb_spec (nid e) i) as [Heq|_]; [congruence|].
    rewrite (IH Hks), app_nil_r. reflexivity.
  - intros _. reflexivity.
  - intros k r IHk IHr Hn. simpl.
    change (k :: r) with ([k] ++ r) in Hn. rewrite ids_app, not_elem_of_app in Hn.
    destruct Hn as [Hk Hr]. rewrite (IHk Hk), (IHr Hr). reflexivity.
Qed.

Lemma substN_notin i new e ks : i ∉ ids ks -> substN i new (Node e ks) = None.
Proof. intros H. rewrite substN_eq, substF_notin by exact H. reflexivity. Qed.

Lemma updateN_same i g :
  (forall n, (forall e, e ∈ elts n -> nid e = i -> g e = e) -> updateN i g n = n)
  /\ (forall f, (forall e, e ∈ eltsF f -> nid e = i -> g e = e) -> map (updateN i g) f = f).
Proof.
  apply node_forest_both.
  - intros e ks IH H. simpl. rewrite IH.
    + destruct (Nat.eqb_spec (nid e) i) as [Heq|_]; [|reflexivity].
      rewrite (H e); [reflexivity| |exact Heq]. rewrite elts_eq. apply list_elem_of_here.
    + intros a Ha. apply H. rewrite elts_eq. apply list_elem_of_further. exact Ha.
  - intros _. reflexivity.
  - intros k r IHk IHr H. simpl. rewrite IHk, IHr; [reflexivity| |].
    + intros a Ha. apply H. rewrite eltsF_cons, elem_of_app. right. exact Ha.
    + intros a Ha. apply H. rewrite eltsF_cons, elem_of_app. left. exact Ha.
Qed.

Lemma sublist_map {A B} (f : A -> B) l k : sublist l k -> sublist (map f l) (map f k).
Proof.
  induction 1; simpl; [constructor|constructor; assumption|constructor; assumption].
Qed.

(** ** The attributes of the root *)

Lemma getAttribute_setAttribute_other name n v l :
  n <> name -> getAttribute name (setAttribute n v l) = getAttribute name l.
Proof.
  intros Hne. induction l as [|[m u] r IH]; simpl.
  - apply String.eqb_neq in Hne. rewrite Hne. reflexivity.
  - destruct (String.eqb m n) eqn:Hm; simpl.
    + apply String.eqb_eq in Hm. subst m.
      apply String.eqb_neq in Hne. rewrite Hne. reflexivity.
    + destruct (String.eqb m name); [reflexivity|exact IH].
Qed.

Lemma fold_setAttribute_none name l :
  getAttribute name l = None ->
  forall acc,
    getAttribute name acc = None ->
    getAttribute name (fold_left (fun acc a => setAttribute (fst a) (snd a) acc) l acc) = None.
Proof.
  induction l as [|[n v] r IH]; simpl; intros Hl acc Hacc; [exact Hacc|].
  destruct (String.eqb_spec n name) as [Heq|Hne]; [discriminate|].
  apply IH; [exact Hl|]. rewrite getAttribute_setAttribute_other by exact Hne. exact Hacc.
Qed.

Lemma getAttribute_app_none name l k :
  getAttribute name l = None -> getAttribute name k = None ->
  getAttribute name (l ++ k) = None.
Proof.
  induction l as [|[n v] r IH]; simpl; intros Hl Hk; [exact Hk|].
  destruct (String.eqb n name); [discriminate|]. apply IH; assumption.
Qed.

Lemma getAttribute_filter_none name (p : attr -> bool) l :
  getAttribute name l = None -> getAttribute name (List.filter p l) = None.
Proof.
  induction l as [|[n v] r IH]; simpl; intros Hl; [reflexivity|].
  destruct (String.eqb n name) eqn:Hn; [discriminate|].
  destruct (p (n, v)); simpl; [rewrite Hn|]; apply IH; exact Hl.
Qed.

(** The merged root carries no persistence marker when neither root
    does. *)
Lemma mergeRootAttributes_free old new :
  hasAttribute persistAttr old = false ->
  hasAttribute persistAttr new = false ->
  hasAttribute persistAttr (mergeRootAttributes old new) = false.
Proof.
  unfold hasAttribute, mergeRootAttributes. intros Ho Hn.
  destruct (getAttribute persistAttr old) eqn:Eo; [discriminate|].
  destruct (getAttribute persistAttr new) eqn:En; [discriminate|].
  rewrite fold_setAttribute_none; [reflexivity| |reflexivity].
  apply getAttribute_app_none; [exact En|].
  apply getAttribute_filter_none. exact Eo.
Qed.

(** ** The head *)

Lemma removeFrom_head r h hk b i :
  nid r <> i -> nid h <> i -> i ∉ ids [b] ->
  exists hk',
    removeFrom i (Node r [Node h hk; b]) = Node r [Node h hk'; b]
    /\ sublist (eltsF hk') (eltsF hk).
Proof.
  intros Hr Hh Hb. unfold removeFrom, substDoc.
  rewrite substF_cons. cbn [nodeElem].
  destruct (Nat.eqb_spec (nid r) i) as [|_]; [contradiction|].
  rewrite substN_eq, substF_cons. cbn [nodeElem].
  destruct (Nat.eqb_spec (nid h) i) as [|_]; [contradiction|].
  rewrite substN_eq.
  destruct (substF i [] hk) as [[old hk']|] eqn:Hs.
  - exists hk'. split; [reflexivity|].
    destruct (proj2 (subst_split i []) _ _ _ Hs) as (l1 & l2 & E1 & E2 & _).
    rewrite E1, E2. simpl. apply sublist_app; [reflexivity|].
    apply sublist_inserts_l. reflexivity.
  - rewrite (substF_notin i [] [b] Hb).
    change (substF i [] []) with (@None (node * list node)).
    exists hk. split; reflexivity.
Qed.

Lemma docHead_shape r h hk b : tag h = "head" -> docHead (Node r [Node h hk; b]) = Some (Node h hk).
Proof. intros Ht. unfold docHead, isHead. simpl. rewrite Ht. reflexivity. Qed.

Lemma docBody_shape r h hk bo bk :
  tag h = "head" -> tag bo = "body" ->
  docBody (Node r [Node h hk; Node bo bk]) = Some (Node bo bk).
Proof. intros Hh Hb. unfold docBody, isBody. simpl. rewrite Hh, Hb. reflexivity. Qed.

Lemma findMatchingElement_shape c r h nk b w :
  tag h = "head" ->
  exists res,
    findMatchingElement c (Node r [Node h nk; b]) w = (w, Ok res)
    /\ (forall nc, res = Some nc -> nc ∈ eltsF nk).
Proof.
  intros Ht. unfold findMatchingElement. rewrite (docHead_shape r h nk b Ht).
  unfold querySelectorIn. cbn [nodeKids].
  assert (Hq : forall sel, exists res,
             ret (List.find sel (eltsF nk)) w = (w, Ok res)
             /\ (forall nc, res = Some nc -> nc ∈ eltsF nk)).
  { intros sel. eexists. split; [reflexivity|].
    intros nc Hnc. apply (find_mem _ _ _ Hnc). }
  assert (Hn : exists res : option elem,
             ret None w = (w, Ok res) /\ (forall nc, res = Some nc -> nc ∈ eltsF nk)).
  { exists None. split; [reflexivity|]. discriminate. }
  destruct (getAttribute persistAttr (attrs c)) as [pid|].
  - destruct (String.eqb pid ""); [|apply Hq].
    destruct (selStylesheet c); [apply Hq|apply Hn].
  - destruct (selStylesheet c); [apply Hq|apply Hn].
Qed.

(** The loop over the children of the live head only takes nodes out of
    the two heads. *)
Lemma reconcileHead_shape cs :
  forall r h hk b rN hN nk bN w,
    doc w = Node r [Node h hk; b] ->
    tag hN = "head" ->
    (forall c, c ∈ cs -> nid r <> nid c /\ nid h <> nid c /\ nid c ∉ ids [b]) ->
    (forall a, a ∈ eltsF nk -> nid rN <> nid a /\ nid hN <> nid a /\ nid a ∉ ids [bN]) ->
    exists hk' nk',
      reconcileHead cs (Node rN [Node hN nk; bN]) w
      = (setDoc (Node r [Node h hk'; b]) w, Ok (Node rN [Node hN nk'; bN]))
      /\ sublist (eltsF hk') (eltsF hk)
      /\ sublist (eltsF nk') (eltsF nk).
Proof.
  induction cs as [|c rest IH]; intros r h hk b rN hN nk bN w Hd Ht Hcs Hnk.
  - exists hk, nk. simpl. rewrite <- Hd, setDoc_doc. repeat split; reflexivity.
  - simpl.
    destruct (findMatchingElement_shape c rN hN nk bN w Ht) as (res & Hres & Hmem).
    rewrite (bind_ok _ _ _ _ _ Hres).
    destruct res as [nc|].
    + destruct (Hnk nc (Hmem nc eq_refl)) as (H1 & H2 & H3).
      destruct (removeFrom_head rN hN nk bN (nid nc) H1 H2 H3) as (nk1 & Hrm & Hsub).
      rewrite Hrm.
      destruct (IH r h hk b rN hN nk1 bN w Hd Ht) as (hk' & nk' & Heq & S1 & S2).
      * intros c' Hc'. apply Hcs. apply list_elem_of_further. exact Hc'.
      * intros a Ha. apply Hnk. eapply sublist_subseteq; [exact Hsub|exact Ha].
      * exists hk', nk'. split; [exact Heq|]. split; [exact S1|].
        etransitivity; [exact S2|exact Hsub].
    + destruct (Hcs c (list_elem_of_here _ _)) as (H1 & H2 & H3).
      destruct (removeFrom_head r h hk b (nid c) H1 H2 H3) as (hk1 & Hrm & Hsub).
      unfold bind at 1. unfold modify at 1. cbn [fst snd]. rewrite Hd, Hrm.
      destruct (IH r h hk1 b rN hN nk bN (setDoc (Node r [Node h hk1; b]) w)
                  eq_refl Ht) as (hk' & nk' & Heq & S1 & S2).
      * intros c' Hc'. apply Hcs. apply list_elem_of_further. exact Hc'.
      * exact Hnk.
      * exists hk', nk'. split; [exact Heq|]. split; [|exact S2].
        etransitivity; [exact S1|exact Hsub].
Qed.

(** ** The swap *)

Lemma doc_setDoc d w : doc (setDoc d w) = d.
Proof. reflexivity. Qed.

Lemma setDoc_setDoc d d' w : setDoc d (setDoc d' w) = setDoc d w.
Proof. reflexivity. Qed.

Lemma activeElement_setDoc d w : activeElement (setDoc d w) = activeElement w.
Proof. reflexivity. Qed.

Lemma doc_setActiveElement a w : doc (setActiveElement a w) = doc w.
Proof. reflexivity. Qed.

Lemma modify_bind {A} (f : World -> World) (k : unit -> M A) w :
  (modify f >>= k) w = k tt (f w).
Proof. reflexivity. Qed.

(** Elements in two parts of a list without repeated identities have
    different identities. *)
Lemma apart (L l1 l2 rest : list elem) a b :
  NoDup (map nid L) -> L ≡ₚ l1 ++ l2 ++ rest -> a ∈ l1 -> b ∈ l2 -> nid a <> nid b.
Proof.
  intros Hnd Hp Ha Hb Heq. rewrite Hp, !map_app in Hnd.
  apply NoDup_app in Hnd as (_ & Hdisj & _).
  apply (Hdisj (nid a)).
  - apply list_elem_of_fmap. eauto.
  - rewrite Heq. apply elem_of_app. left. apply list_elem_of_fmap. eauto.
Qed.

Lemma apart_notin (L l1 l2 rest l2' : list elem) a :
  NoDup (map nid L) -> L ≡ₚ l1 ++ l2 ++ rest -> a ∈ l1 ->
  (forall b, b ∈ l2' -> b ∈ l2) -> nid a ∉ map nid l2'.
Proof.
  intros Hnd Hp Ha Hsub Hin. apply list_elem_of_fmap in Hin as (b & Hb1 & Hb2).
  exact (apart L l1 l2 rest a b Hnd Hp Ha (Hsub b Hb2) Hb1).
Qed.

Lemma connected_notin i d : i ∉ ids [d] -> connected i d = false.
Proof.
  intros H. unfold connected. destruct (existsb (Nat.eqb i) (ids [d])) eqn:Hex; [|reflexivity].
  apply existsb_exists in Hex as (j & Hj & Heq). apply Nat.eqb_eq in Heq. subst j.
  apply list_elem_of_In in Hj. contradiction.
Qed.

Lemma connected_in i d : i ∈ ids [d] -> connected i d = true.
Proof.
  intros H. unfold connected. apply existsb_exists. exists i.
  split; [apply list_elem_of_In; exact H|apply Nat.eqb_refl].
Qed.

Lemma appendN_eq i new e ks :
  appendN i new (Node e ks)
  = Node e (map (appendN i new) ks ++ (if Nat.eqb (nid e) i then new else [])).
Proof. reflexivity. Qed.

Lemma NoDup_filter_list {A} (f : A -> bool) l : NoDup l -> NoDup (List.filter f l).
Proof.
  induction 1 as [|a l Ha Hl IH]; simpl; [constructor|].
  destruct (f a); [|exact IH]. constructor; [|exact IH].
  intros Hc. apply list_elem_of_In, List.filter_In in Hc as [Hc _].
  apply list_elem_of_In in Hc. contradiction.
Qed.

Lemma filter_single {A} (p : A -> bool) l a :
  List.filter p l = [a] ->
  a ∈ l /\ p a = true /\ (forall b, b ∈ l -> p b = true -> b = a).
Proof.
  intros H.
  assert (Ha : In a (List.filter p l)) by (rewrite H; left; reflexivity).
  apply List.filter_In in Ha as [Ha1 Ha2].
  split; [apply list_elem_of_In; exact Ha1|]. split; [exact Ha2|].
  intros b Hb Hpb.
  assert (Hb' : In b (List.filter p l)).
  { apply List.filter_In. split; [apply list_elem_of_In; exact Hb|exact Hpb]. }
  rewrite H in Hb'. destruct Hb' as [->|[]]. reflexivity.
Qed.

Lemma forallb_free pi :
  forallb (fun a => negb (selPersistAny a)) pi = true -> persistFree pi.
Proof.
  intros H. unfold persistFree. apply Forall_forall. intros a Ha.
  rewrite forallb_forall in H. apply list_elem_of_In in Ha.
  specialize (H a Ha). destruct (selPersistAny a); [discriminate|reflexivity].
Qed.

Lemma kid_elem_mem k ks : k ∈ ks -> nodeElem k ∈ eltsF ks.
Proof.
  intros H. apply list_elem_of_split in H as (l1 & l2 & ->).
  rewrite eltsF_app, eltsF_cons. destruct (elts_head k) as [t Ht]. rewrite Ht.
  apply elem_of_app. right. apply list_elem_of_here.
Qed.

Lemma setSelection_same L s e :
  s <= e -> e <= L ->
  setSelectionEnd (Some e) (setSelectionStart (Some s) (TextCtl L s e)) = TextCtl L s e
  /\ setSelectionStart (Some s) (TextCtl L s e) = TextCtl L s e.
Proof.
  intros H1 H2.
  assert (E : setSelectionStart (Some s) (TextCtl L s e) = TextCtl L s e).
  { unfold setSelectionStart, setSelectionRange. simpl.
    replace (Nat.max e s) with e by lia.
    replace (Nat.min s L) with s by lia.
    replace (Nat.min e L) with e by lia.
    replace (Nat.min s e) with s by lia. reflexivity. }
  split; [|exact E]. rewrite E.
  unfold setSelectionEnd, setSelectionRange. simpl.
  replace (Nat.min s L) with s by lia.
  replace (Nat.min e L) with e by lia.
  replace (Nat.min s e) with s by lia. reflexivity.
Qed.

(** The identities of two documents of the shape a parser gives, listed
    part by part. *)
Lemma shape_ids d nd r0 hL hk bL bk rN hN nk bN nbk :
  d = Node r0 [Node hL hk; Node bL bk] ->
  nd = Node rN [Node hN nk; Node bN nbk] ->
  NoDup (ids [d] ++ ids [nd]) ->
  NoDup (map nid ([r0] ++ [hL] ++ eltsF hk ++ [bL] ++ eltsF bk
                  ++ [rN] ++ [hN] ++ eltsF nk ++ [bN] ++ eltsF nbk)).
Proof.
  intros -> -> Hdup. unfold ids in Hdup. rewrite <- map_app in Hdup.
  rewrite !eltsF_single, !elts_eq, !eltsF_cons, !elts_eq in Hdup.
  unfold eltsF at 2 4 in Hdup. simpl flat_map in Hdup. rewrite !app_nil_r in Hdup.
  simpl. simpl in Hdup. rewrite <- !app_assoc in Hdup. exact Hdup.
Qed.

Lemma shape_elts r h hk b bk :
  elts (Node r [Node h hk; Node b bk]) = [r] ++ [h] ++ eltsF hk ++ [b] ++ eltsF bk.
Proof.
  rewrite elts_eq, !eltsF_cons, !elts_eq. change (eltsF []) with (@nil elem).
  rewrite app_nil_r. reflexivity.
Qed.

Lemma withCtl_same e : withCtl (ctl e) e = e.
Proof. destruct e. reflexivity. Qed.

Ltac mem_solve :=
  rewrite ?elem_of_app, ?elem_of_cons, ?elem_of_app, ?elem_of_nil; intuition (subst; auto).

(** The swap up to the loop over the persistent elements: the root takes
    the merged attributes, the head what is left of both heads, the body
    of the incoming document takes the place of the live one, and the
    focused element [A] is remembered with its selection. *)
Lemma swapDocument_prefix x ev nd w r0 hL hk bL bk rN hN nk bN nbk A piA L s e :
  ev_newDocument ev = Some nd ->
  htmlShape (doc w) r0 hL hk bL bk ->
  htmlShape nd rN hN nk bN nbk ->
  NoDup (ids [doc w] ++ ids [nd]) ->
  pathF (nid A) bk = Some (piA ++ [A]) ->
  selPersist x A = true ->
  isTextControl A = true ->
  ctl A = Some (TextCtl L s e) ->
  activeElement w = Some (nid A) ->
  exists hk' nk',
    let r' := withAttrs (fun old => mergeRootAttributes old (attrs rN)) r0 in
    let d4 := Node r' [Node hL (hk' ++ nk'); Node bN nbk] in
    swapDocument (Some ev) w
    = (restorePersisted (querySelectorAllIn selPersistAny (Node bL bk)) [Node bL bk] >>
       restoreActiveElement (mkSaved (Some A) (Some s) (Some e)))
        (setActiveElement None (setDoc d4 w))
    /\ sublist (eltsF hk') (eltsF hk)
    /\ sublist (eltsF nk') (eltsF nk).
Proof.
  intros Hev (Hdoc & HtL & HtbL) (Hnd & HtN & HtbN) Hdup HpA HxA Htc Hctl Hact.
  destruct (pathF_onPath _ _ _ _ HpA) as [_ HonA].
  destruct (onPath_mem _ _ _ HonA) as [HAin _].
  set (L0 := [r0] ++ [hL] ++ eltsF hk ++ [bL] ++ eltsF bk
             ++ [rN] ++ [hN] ++ eltsF nk ++ [bN] ++ eltsF nbk).
  assert (HL : NoDup (map nid L0)) by (apply (shape_ids (doc w) nd); assumption).
  set (r' := withAttrs (fun old => mergeRootAttributes old (attrs rN)) r0).
  assert (Hr' : nid r' = nid r0) by reflexivity.
  unfold swapDocument. rewrite Hev.
  rewrite modify_bind, get_bind, doc_setDoc.
  rewrite Hdoc, Hnd. cbn [mapRoot nodeElem]. fold r'.
  rewrite (docHead_shape _ _ _ _ HtL). simpl nodeKids.
  destruct (reconcileHead_shape (map nodeElem hk) r' hL hk (Node bL bk) rN hN nk (Node bN nbk)
              (setDoc (Node r' [Node hL hk; Node bL bk]) w))
    as (hk' & nk' & Hrec & Shk & Snk).
  { reflexivity. }
  { exact HtN. }
  { intros c Hc. apply list_elem_of_fmap in Hc as (k & -> & Hk).
    apply kid_elem_mem in Hk. rewrite Hr'. split; [|split].
    - apply (apart L0 [r0] (eltsF hk) ([hL] ++ [bL] ++ eltsF bk
             ++ [rN] ++ [hN] ++ eltsF nk ++ [bN] ++ eltsF nbk) _ _ HL);
        [unfold L0; solve_Permutation|apply list_elem_of_here|exact Hk].
    - apply (apart L0 [hL] (eltsF hk) ([r0] ++ [bL] ++ eltsF bk
             ++ [rN] ++ [hN] ++ eltsF nk ++ [bN] ++ eltsF nbk) _ _ HL);
        [unfold L0; solve_Permutation|apply list_elem_of_here|exact Hk].
    - intros Hin. rewrite ids_single in Hin.
      apply list_elem_of_fmap in Hin as (b & Hb1 & Hb2).
      revert Hb1. apply not_eq_sym.
      apply (apart L0 ([bL] ++ eltsF bk) (eltsF hk) ([r0] ++ [hL]
             ++ [rN] ++ [hN] ++ eltsF nk ++ [bN] ++ eltsF nbk) _ _ HL);
        [unfold L0; solve_Permutation|exact Hb2|exact Hk]. }
  { intros a Ha. split; [|split].
    - apply (apart L0 [rN] (eltsF nk) ([r0] ++ [hL] ++ eltsF hk ++ [bL] ++ eltsF bk
             ++ [hN] ++ [bN] ++ eltsF nbk) _ _ HL);
        [unfold L0; solve_Permutation|apply list_elem_of_here|exact Ha].
    - apply (apart L0 [hN] (eltsF nk) ([r0] ++ [hL] ++ eltsF hk ++ [bL] ++ eltsF bk
             ++ [rN] ++ [bN] ++ eltsF nbk) _ _ HL);
        [unfold L0; solve_Permutation|apply list_elem_of_here|exact Ha].
    - intros Hin. rewrite ids_single in Hin.
      apply list_elem_of_fmap in Hin as (b & Hb1 & Hb2).
      revert Hb1. apply not_eq_sym.
      apply (apart L0 ([bN] ++ eltsF nbk) (eltsF nk) ([r0] ++ [hL] ++ eltsF hk ++ [bL] ++ eltsF bk
             ++ [rN] ++ [hN]) _ _ HL);
        [unfold L0; solve_Permutation|exact Hb2|exact Ha]. }
  exists hk', nk'. split; [|split; assumption].
  rewrite (bind_ok _ _ _ _ _ Hrec). rewrite get_bind, doc_setDoc, setDoc_setDoc.
  rewrite (docHead_shape _ _ _ _ HtL), (docHead_shape _ _ _ _ HtN).
  rewrite modify_bind, get_bind, doc_setDoc, setDoc_setDoc. simpl nodeKids. simpl nodeElem.
  assert (Mhk : forall a, a ∈ eltsF hk' -> a ∈ eltsF hk)
    by (intros a Ha; exact (elem_of_sublist _ _ _ Ha Shk)).
  assert (Mnk : forall a, a ∈ eltsF nk' -> a ∈ eltsF nk)
    by (intros a Ha; exact (elem_of_sublist _ _ _ Ha Snk)).
  assert (F1 : nid r' <> nid hL).
  { rewrite Hr'. apply (apart L0 [r0] [hL] (eltsF hk ++ [bL] ++ eltsF bk
           ++ [rN] ++ [hN] ++ eltsF nk ++ [bN] ++ eltsF nbk) _ _ HL);
      [unfold L0; solve_Permutation|apply list_elem_of_here|apply list_elem_of_here]. }
  assert (F2 : nid hL ∉ ids hk').
  { apply (apart_notin L0 [hL] (eltsF hk) ([r0] ++ [bL] ++ eltsF bk
           ++ [rN] ++ [hN] ++ eltsF nk ++ [bN] ++ eltsF nbk) _ _ HL);
      [unfold L0; solve_Permutation|apply list_elem_of_here|exact Mhk]. }
  assert (F3 : nid hL ∉ ids [Node bL bk]).
  { rewrite ids_single.
    apply (apart_notin L0 [hL] ([bL] ++ eltsF bk) ([r0] ++ eltsF hk
           ++ [rN] ++ [hN] ++ eltsF nk ++ [bN] ++ eltsF nbk) _ _ HL);
      [unfold L0; solve_Permutation|apply list_elem_of_here|].
    intros b. rewrite elts_eq. mem_solve. }
  assert (Happ : appendN (nid hL) nk' (Node r' [Node hL hk'; Node bL bk])
                 = Node r' [Node hL (hk' ++ nk'); Node bL bk]).
  { rewrite appendN_eq. cbn [map].
    rewrite (proj1 (appendN_notin (nid hL) nk') (Node bL bk) F3).
    rewrite appendN_eq, (proj2 (appendN_notin (nid hL) nk') hk' F2), Nat.eqb_refl.
    destruct (Nat.eqb_spec (nid r') (nid hL)) as [Heq|_]; [contradiction|].
    rewrite app_nil_r. reflexivity. }
  cbn [nodeElem nodeKids]. rewrite Happ.
  rewrite (docBody_shape _ _ _ _ _ HtL HtbL), (docBody_shape _ _ _ _ _ HtN HtbN).
  assert (FA1 : nid r' <> nid A).
  { rewrite Hr'. apply (apart L0 [r0] (eltsF bk) ([hL] ++ eltsF hk ++ [bL]
           ++ [rN] ++ [hN] ++ eltsF nk ++ [bN] ++ eltsF nbk) _ _ HL);
      [unfold L0; solve_Permutation|apply list_elem_of_here|exact HAin]. }
  assert (FA2 : nid A ∉ ids [Node hL (hk' ++ nk')]).
  { rewrite ids_single.
    apply (apart_notin L0 (eltsF bk) ([hL] ++ eltsF hk ++ eltsF nk) ([r0] ++ [bL]
           ++ [rN] ++ [hN] ++ [bN] ++ eltsF nbk) _ _ HL);
      [unfold L0; solve_Permutation|exact HAin|].
    intros b. rewrite elts_eq, eltsF_app. mem_solve. }
  assert (FA3 : nid bL <> nid A).
  { apply (apart L0 [bL] (eltsF bk) ([r0] ++ [hL] ++ eltsF hk
           ++ [rN] ++ [hN] ++ eltsF nk ++ [bN] ++ eltsF nbk) _ _ HL);
      [unfold L0; solve_Permutation|apply list_elem_of_here|exact HAin]. }
  assert (FA4 : nid A ∉ ids [Node bN nbk]).
  { rewrite ids_single.
    apply (apart_notin L0 (eltsF bk) ([bN] ++ eltsF nbk) ([r0] ++ [hL] ++ eltsF hk ++ [bL]
           ++ [rN] ++ [hN] ++ eltsF nk) _ _ HL);
      [unfold L0; solve_Permutation|exact HAin|].
    intros b. rewrite elts_eq. mem_solve. }
  assert (Fb1 : nid r' <> nid bL).
  { rewrite Hr'. apply (apart L0 [r0] [bL] ([hL] ++ eltsF hk ++ eltsF bk
           ++ [rN] ++ [hN] ++ eltsF nk ++ [bN] ++ eltsF nbk) _ _ HL);
      [unfold L0; solve_Permutation|apply list_elem_of_here|apply list_elem_of_here]. }
  assert (Fb2 : nid hL <> nid bL).
  { apply (apart L0 [hL] [bL] ([r0] ++ eltsF hk ++ eltsF bk
           ++ [rN] ++ [hN] ++ eltsF nk ++ [bN] ++ eltsF nbk) _ _ HL);
      [unfold L0; solve_Permutation|apply list_elem_of_here|apply list_elem_of_here]. }
  assert (Fb3 : nid bL ∉ ids (hk' ++ nk')).
  { unfold ids. rewrite eltsF_app.
    apply (apart_notin L0 [bL] (eltsF hk ++ eltsF nk) ([r0] ++ [hL] ++ eltsF bk
           ++ [rN] ++ [hN] ++ [bN] ++ eltsF nbk) _ _ HL);
      [unfold L0; solve_Permutation|apply list_elem_of_here|].
    intros b. mem_solve. }
  assert (Hsaved : preserveActiveElement (setDoc (Node r' [Node hL (hk' ++ nk'); Node bL bk]) w)
                   = mkSaved (Some A) (Some s) (Some e)).
  { unfold preserveActiveElement. rewrite activeElement_setDoc, Hact, doc_setDoc.
    rewrite pathN_eq. destruct (Nat.eqb_spec (nid r') (nid A)) as [Heq|_]; [contradiction|].
    rewrite pathF_cons, (proj1 (path_notin (nid A)) _ FA2).
    rewrite pathF_cons, pathN_eq.
    destruct (Nat.eqb_spec (nid bL) (nid A)) as [Heq|_]; [contradiction|].
    rewrite HpA.
    change (r' :: bL :: piA ++ [A]) with ((r' :: bL :: piA) ++ [A]).
    rewrite existsb_app. simpl existsb at 2. rewrite (selPersist_any _ _ HxA).
    rewrite orb_true_r. rewrite last_snoc, Htc, Hctl. reflexivity. }
  rewrite Hsaved.
  assert (Hrepl : replaceBody (Node bL bk) (Some (Node bN nbk))
                    (setDoc (Node r' [Node hL (hk' ++ nk'); Node bL bk]) w)
                  = (setActiveElement None
                       (setDoc (Node r' [Node hL (hk' ++ nk'); Node bN nbk]) w), Ok tt)).
  { unfold replaceBody. rewrite get_bind, doc_setDoc. cbn [nodeElem].
    unfold substDoc. rewrite substF_cons. cbn [nodeElem].
    destruct (Nat.eqb_spec (nid r') (nid bL)) as [Heq|_]; [contradiction|].
    rewrite substN_eq, substF_cons. cbn [nodeElem].
    destruct (Nat.eqb_spec (nid hL) (nid bL)) as [Heq|_]; [contradiction|].
    rewrite (substN_notin _ _ _ _ Fb3). rewrite substF_cons. cbn [nodeElem].
    rewrite Nat.eqb_refl.
    cbn [app]. unfold modify. rewrite activeElement_setDoc, Hact, setDoc_setDoc.
    rewrite connected_notin; [reflexivity|].
    rewrite ids_single, elts_eq. cbn [map]. apply not_elem_of_cons. split; [auto|].
    apply (apart_notin L0 (eltsF bk) ([hL] ++ eltsF hk ++ eltsF nk ++ [bN] ++ eltsF nbk)
             ([r0] ++ [bL] ++ [rN] ++ [hN]) _ _ HL);
      [unfold L0; solve_Permutation|exact HAin|].
    intros b. rewrite !eltsF_cons, !elts_eq, eltsF_app. change (eltsF []) with (@nil elem).
    mem_solve. }
  rewrite (bind_ok _ _ _ _ _ Hrepl). reflexivity.
Qed.

Lemma pathF_app i f g :
  pathF i (f ++ g) = match pathF i f with Some p => Some p | None => pathF i g end.
Proof.
  induction f as [|k r IH]; [reflexivity|].
  cbn [app]. rewrite !pathF_cons. destruct (pathN i k); [reflexivity|exact IH].
Qed.

(** Where no identity occurs twice, an element that stands below given
    ancestors is found below them. *)
Lemma onPath_pathF pi e f :
  onPath pi e f -> NoDup (ids f) -> pathF (nid e) f = Some (pi ++ [e]).
Proof.
  induction 1 as [e ks f1 f2|a ks f1 f2 pi e H IH]; intros Hnd.
  - rewrite ids_app, ids_cons in Hnd. apply NoDup_app in Hnd as (_ & Hdisj & _).
    rewrite pathF_app, (proj2 (path_notin (nid e))).
    2:{ intros Hc. apply (Hdisj _ Hc). apply list_elem_of_here. }
    rewrite pathF_cons, pathN_eq, Nat.eqb_refl. reflexivity.
  - destruct (onPath_mem _ _ _ H) as [He _].
    rewrite ids_app, ids_cons in Hnd. apply NoDup_app in Hnd as (_ & Hdisj & Hnd).
    apply NoDup_cons in Hnd as [Ha Hnd]. apply NoDup_app in Hnd as (Hks & _ & _).
    assert (Hin : nid e ∈ ids ks) by (unfold ids; apply list_elem_of_fmap; eauto).
    rewrite pathF_app, (proj2 (path_notin (nid e))).
    2:{ intros Hc. apply (Hdisj _ Hc). apply list_elem_of_further, elem_of_app. left.
        exact Hin. }
    rewrite pathF_cons, pathN_eq.
    destruct (Nat.eqb_spec (nid a) (nid e)) as [Heq|_].
    { exfalso. apply Ha. rewrite Heq. apply elem_of_app. left. exact Hin. }
    rewrite (IH Hks). reflexivity.
Qed.




(** On that page the swap also keeps the menu of the live page, drops its
    footer, which the incoming page does not have, and keeps the
    attribute of the root that the script itself had set. *)
Example swapDocument_example :
  let w' := fst (swapDocument (Some Sample.swapEvent) Sample.searchWorld) in
  map nid (elts (doc w')) = [40; 41; 43; 62; 64; 45; 66; 47]
  /\ getAttribute "data-mkdocs-color" (attrs (nodeElem (doc w'))) = Some "dark".
Proof. vm_compute. split; reflexivity. Qed.

(* ===================================================================== *)
(** * Further properties of the script *)
(* ===================================================================== *)

(** ** Attributes set one after the other *)

Lemma getAttribute_app name (l k : list attr) :
  getAttribute name (l ++ k)
  = match getAttribute name l with Some v => Some v | None => getAttribute name k end.
Proof.
  induction l as [|[n v] r IH]; simpl; [reflexivity|].
  destruct (String.eqb n name); [reflexivity|exact IH].
Qed.

Lemma getAttribute_absent name (l : list attr) : name ∉ map fst l -> getAttribute name l = None.
Proof.
  induction l as [|[n v] r IH]; simpl; intros H; [reflexivity|].
  apply not_elem_of_cons in H as [Hne Hr].
  destruct (String.eqb_spec n name) as [Heq|_]; [congruence|]. apply IH. exact Hr.
Qed.

Lemma getAttribute_rev name (l : list attr) :
  NoDup (map fst l) -> getAttribute name (rev l) = getAttribute name l.
Proof.
  induction l as [|[n v] r IH]; simpl; intros Hnd; [reflexivity|].
  apply NoDup_cons in Hnd as [Hn Hnd].
  rewrite getAttribute_app, (IH Hnd). simpl.
  destruct (String.eqb_spec n name) as [Heq|Hne].
  - subst n. rewrite (getAttribute_absent _ _ Hn). reflexivity.
  - destruct (getAttribute name r); reflexivity.
Qed.

Lemma getAttribute_filter name (q : string -> bool) (l : list attr) :
  getAttribute name (List.filter (fun a => q (fst a)) l)
  = if q name then getAttribute name l else None.
Proof.
  induction l as [|[n v] r IH]; simpl; [destruct (q name); reflexivity|].
  destruct (String.eqb_spec n name) as [Heq|Hne].
  - subst n. destruct (q name) eqn:Hq; simpl.
    + rewrite String.eqb_refl. reflexivity.
    + exact IH.
  - destruct (q n); simpl; [|exact IH].
    apply String.eqb_neq in Hne. rewrite Hne. exact IH.
Qed.

Lemma NoDup_filter_names (q : attr -> bool) (l : list attr) :
  NoDup (map fst l) -> NoDup (map fst (List.filter q l)).
Proof.
  induction l as [|a r IH]; simpl; intros Hnd; [constructor|].
  apply NoDup_cons in Hnd as [Ha Hnd].
  destruct (q a); simpl; [|apply IH; exact Hnd].
  apply NoDup_cons. split; [|apply IH; exact Hnd].
  intros Hc. apply Ha. apply list_elem_of_fmap in Hc as (b & Hb1 & Hb2).
  apply list_elem_of_fmap. exists b. split; [exact Hb1|].
  apply list_elem_of_In in Hb2. apply List.filter_In in Hb2 as [Hb2 _].
  apply list_elem_of_In. exact Hb2.
Qed.

(** After a run of [setAttribute] calls an attribute has the value of
    the last call that names it. *)
Lemma fold_setAttribute_get name (l : list attr) :
  forall acc,
    getAttribute name (fold_left (fun acc a => setAttribute (fst a) (snd a) acc) l acc)
    = match getAttribute name (rev l) with
      | Some v => Some v
      | None => getAttribute name acc
      end.
Proof.
  induction l as [|[n v] r IH]; intros acc; simpl; [reflexivity|].
  rewrite IH, getAttribute_app. simpl.
  destruct (getAttribute name (rev r)); [reflexivity|].
  destruct (String.eqb_spec n name) as [Heq|Hne].
  - subst n. apply getAttribute_setAttribute.
  - apply getAttribute_setAttribute_other. exact Hne.
Qed.

(** X1. The attributes of the root after the merge at the start of
    [swapDocument]: an attribute named [data-mkdocs-...] that the live
    root carries keeps its live value, also when the incoming root gives
    it another one; every other attribute has the value of the incoming
    root, and is absent when the incoming root does not carry it. *)
Theorem mergeRootAttributes_lookup old new name :
  NoDup (map fst old) ->
  NoDup (map fst new) ->
  getAttribute name (mergeRootAttributes old new)
  = if startsWith "data-mkdocs-" name
    then match getAttribute name old with
         | Some v => Some v
         | None => getAttribute name new
         end
    else getAttribute name new.
Proof.
  intros Ho Hn. unfold mergeRootAttributes.
  rewrite fold_setAttribute_get, rev_app_distr, getAttribute_app.
  rewrite (getAttribute_rev name (List.filter _ old))
    by (apply NoDup_filter_names; exact Ho).
  rewrite (getAttribute_rev name new Hn).
  rewrite (getAttribute_filter name (startsWith "data-mkdocs-") old).
  destruct (startsWith "data-mkdocs-" name).
  - destruct (getAttribute name old); [reflexivity|].
    destruct (getAttribute name new); reflexivity.
  - destruct (getAttribute name new); reflexivity.
Qed.

Lemma mergeRootAttributes_lookup_witness :
  getAttribute "data-mkdocs-color"
    (mergeRootAttributes (attrs (nodeElem Sample.searchDocument))
       [("lang", "fr"); ("data-mkdocs-color", "light")])
  = Some "dark"
  /\ getAttribute "lang"
       (mergeRootAttributes (attrs (nodeElem Sample.searchDocument))
          [("lang", "fr"); ("data-mkdocs-color", "light")])
     = Some "fr".
Proof.
  split.
  - rewrite (mergeRootAttributes_lookup (attrs (nodeElem Sample.searchDocument))
               [("lang", "fr"); ("data-mkdocs-color", "light")] "data-mkdocs-color");
      [reflexivity| |]; apply (bool_decide_unpack _); vm_compute; exact I.
  - vm_compute. reflexivity.
Defined.

(** X2. The script that [executeScripts] creates in place of another
    one carries the attributes of that one with their values, and the
    marker [data-mkdocs-exec] besides; it has the same code. *)
Theorem recreatedScript_keeps_attributes i script name :
  NoDup (map fst (attrs script)) ->
  getAttribute name (attrs (recreatedScript i script))
  = (if String.eqb name execAttr then Some "" else getAttribute name (attrs script))
  /\ text (recreatedScript i script) = text script
  /\ tag (recreatedScript i script) = "script"
  /\ nid (recreatedScript i script) = i.
Proof.
  intros Hnd. split; [|repeat split]. unfold recreatedScript. cbn [attrs].
  destruct (String.eqb_spec name execAttr) as [->|Hne].
  - apply getAttribute_setAttribute.
  - rewrite getAttribute_setAttribute_other by congruence.
    rewrite fold_setAttribute_get, (getAttribute_rev name _ Hnd).
    destruct (getAttribute name (attrs script)); reflexivity.
Qed.

Lemma recreatedScript_keeps_attributes_witness :
  getAttribute "src"
    (attrs (recreatedScript 100
              (Elem 9 "script" [("src", "/js/search.js"); ("defer", "")] "" None)))
  = Some "/js/search.js".
Proof.
  destruct (recreatedScript_keeps_attributes 100
              (Elem 9 "script" [("src", "/js/search.js"); ("defer", "")] "" None) "src")
    as [H _].
  - apply (bool_decide_unpack _). vm_compute. exact I.
  - exact H.
Defined.

(** ** Prefetch strategies *)

Import Strategy.

Lemma forEach_noop {A} (l : list A) (body : A -> M unit) w :
  (forall a, a ∈ l -> body a w = (w, Ok tt)) -> forEach l body w = (w, Ok tt).
Proof.
  induction l as [|a r IH]; intros H; simpl; [reflexivity|].
  rewrite (bind_ok _ _ _ _ _ (H a (list_elem_of_here _ _))).
  apply IH. intros b Hb. apply H. apply list_elem_of_further. exact Hb.
Qed.

(** X3. On a connection that is not slow at most one strategy applies to
    a link: when [shouldPrefetch] accepts an element for two strategies,
    they are the same one. An element that carries
    [data-mkdocs-prefetch="false"] is accepted for none, whatever the
    connection. *)
Theorem shouldPrefetch_one_strategy E v element s1 s2 :
  isSlowConnection E = false ->
  shouldPrefetch E v element s1 = true ->
  shouldPrefetch E v element s2 = true ->
  s1 = s2
  /\ (forall E' v' el s,
        prefetchAttrOf el = Some "false" -> shouldPrefetch E' v' (Some el) s = false).
Proof.
  intros Hslow H1 H2. split.
  - unfold shouldPrefetch in H1, H2. destruct element as [el|]; [|discriminate].
    destruct (negb (String.eqb (tag el) "a")); [discriminate|].
    rewrite Hslow, !andb_false_r in H1, H2.
    destruct (match prefetchAttrOf el with
              | Some a => String.eqb a "false"
              | None => false
              end); [discriminate|].
    destruct (negb (isSome (prefetchAttrOf el)) && prefetchAll v
              || match prefetchAttrOf el with
                 | Some a => String.eqb a ""
                 | None => false
                 end).
    + apply String.eqb_eq in H1, H2. congruence.
    + destruct (prefetchAttrOf el) as [a|]; [|discriminate].
      apply String.eqb_eq in H1, H2. congruence.
  - intros E' v' el s Ha. unfold shouldPrefetch. rewrite Ha. simpl.
    destruct (negb (String.eqb (tag el) "a")); reflexivity.
Qed.

Lemma shouldPrefetch_one_strategy_witness :
  shouldPrefetch Sample.siteEnv Site.sitePrefetchVars (Some Site.viewportLink) "viewport"
  = true
  /\ forall s,
       shouldPrefetch Sample.slowEnv Site.sitePrefetchVars (Some Site.optOutLink) s = false.
Proof.
  split; [reflexivity|]. intros s.
  destruct (shouldPrefetch_one_strategy Sample.siteEnv Site.sitePrefetchVars
              (Some Site.viewportLink) "viewport" "viewport" eq_refl eq_refl eq_refl)
    as [_ H].
  apply H. reflexivity.
Defined.

Lemma canPrefetch_slow E url w :
  isSlowConnection E = true -> canPrefetch E url false w = false.
Proof.
  intros H. unfold canPrefetch. rewrite H. simpl. rewrite orb_true_r. reflexivity.
Qed.

Lemma canPrefetch_ignoring E url w :
  canPrefetch E url true w = true ->
  prefetchPage E url (Some (mkPrefetchOptions (Some "fetch") (Some true))) w
  = (logEffect (EFetch url None) (setPrefetchedPages ({[ url ]} ∪ prefetchedPages w) w),
     Ok tt).
Proof.
  intros H. unfold prefetchPage. rewrite get_bind. cbn [ignoreSlowConnectionOf
    p_ignoreSlowConnection]. rewrite H. reflexivity.
Qed.

(** X4. Over a slow connection (data saver on, or an effective type
    that contains [2g]) the load and hover strategies prefetch nothing:
    the callback of [setupLoadPrefetch] and the callback of the hover
    timer leave the page, the set of prefetched pages and the list of
    requests as they are. The tap strategy still works: for a link that
    [shouldPrefetch] accepts and a URL that [canPrefetch] lets through
    once the connection is ignored, the listener requests the page and
    records its URL. *)
Theorem slow_connection_prefetches_on_tap_only E v w :
  isSlowConnection E = true ->
  loadPrefetch E v w = (w, Ok tt)
  /\ (forall href, hoverPrefetch E href w = (w, Ok tt))
  /\ (forall link,
        shouldPrefetch E v (Some link) "tap" = true ->
        canPrefetch E (anchorHref E w link) true w = true ->
        let w' := fst (onTap E v (Some link) w) in
        trace w' = trace w ++ [EFetch (anchorHref E w link) None]
        /\ anchorHref E w link ∈ prefetchedPages w'
        /\ doc w' = doc w).
Proof.
  intros Hslow. split; [|split].
  - unfold loadPrefetch. rewrite get_bind. apply forEach_noop. intros link _.
    destruct (shouldPrefetch E v (Some link) "load"); [|reflexivity].
    rewrite get_bind. apply prefetchPage_rejected. apply canPrefetch_slow. exact Hslow.
  - intros href. apply prefetchPage_rejected. apply canPrefetch_slow. exact Hslow.
  - intros link Hs Hc w'. unfold w', onTap. rewrite Hs, get_bind.
    rewrite (canPrefetch_ignoring _ _ _ Hc). cbn [fst].
    split; [reflexivity|]. split; [|reflexivity].
    cbn [prefetchedPages logEffect setPrefetchedPages]. set_solver.
Qed.

Lemma slow_connection_prefetches_on_tap_only_witness :
  isSlowConnection Sample.slowEnv = true
  /\ loadPrefetch Sample.slowEnv Site.sitePrefetchVars Site.linkWorld
     = (Site.linkWorld, Ok tt)
  /\ trace (fst (onTap Sample.slowEnv Site.sitePrefetchVars (Some Site.plainLink)
                   Site.linkWorld))
     = [EFetch "https://penguin.example/docs/other" None].
Proof.
  destruct (slow_connection_prefetches_on_tap_only Sample.slowEnv Site.sitePrefetchVars
              Site.linkWorld eq_refl) as (H1 & _ & H3).
  split; [reflexivity|]. split; [exact H1|].
  destruct (H3 Site.plainLink eq_refl eq_refl) as (H & _). exact H.
Defined.

(** ** The hover timer *)

Lemma hoverInv_initial : hoverInv initialHoverState.
Proof.
  split; [|simpl; lia]. intros id href H. simpl in H.
  rewrite lookup_empty in H. discriminate.
Qed.

Lemma handleHover_pending href h :
  hoverInv h -> hoverPending (handleHover href h) = {[ hoverNext h := href ]}.
Proof.
  intros [Hp Hlt]. unfold handleHover.
  destruct (Nat.eqb_spec (hoverTimeout h) 0) as [H0|Hn]; simpl.
  - apply map_eq. intros i. destruct (decide (i = hoverNext h)) as [->|Hne].
    + rewrite lookup_insert_eq, lookup_singleton_eq. reflexivity.
    + rewrite lookup_insert_ne, lookup_singleton_ne by congruence.
      destruct (hoverPending h !! i) as [u|] eqn:Hi; [|reflexivity].
      destruct (Hp _ _ Hi). lia.
  - apply map_eq. intros i. destruct (decide (i = hoverNext h)) as [->|Hne].
    + rewrite lookup_insert_eq, lookup_singleton_eq. reflexivity.
    + rewrite lookup_insert_ne, lookup_singleton_ne by congruence.
      destruct (decide (i = hoverTimeout h)) as [->|Hne'].
      * apply lookup_delete_eq.
      * rewrite lookup_delete_ne by congruence.
        destruct (hoverPending h !! i) as [u|] eqn:Hi; [|reflexivity].
        destruct (Hp _ _ Hi). congruence.
Qed.

Lemma handleHover_facts href h :
  hoverTimeout (handleHover href h) = hoverNext h
  /\ hoverNext (handleHover href h) = S (hoverNext h).
Proof.
  unfold handleHover. destruct (Nat.eqb (hoverTimeout h) 0); split; reflexivity.
Qed.

Lemma handleHoverEnd_pending h : hoverInv h -> hoverPending (handleHoverEnd h) = ∅.
Proof.
  intros [Hp Hlt]. unfold handleHoverEnd. apply map_empty. intros i.
  destruct (Nat.eqb_spec (hoverTimeout h) 0) as [H0|Hn]; simpl.
  - destruct (hoverPending h !! i) as [u|] eqn:Hi; [|reflexivity].
    destruct (Hp _ _ Hi). lia.
  - destruct (decide (i = hoverTimeout h)) as [->|Hne].
    + apply lookup_delete_eq.
    + rewrite lookup_delete_ne by congruence.
      destruct (hoverPending h !! i) as [u|] eqn:Hi; [|reflexivity].
      destruct (Hp _ _ Hi). congruence.
Qed.

Lemma hoverStep_inv ev h : hoverInv h -> hoverInv (fst (hoverStep ev h)).
Proof.
  intros Hinv. pose proof Hinv as [Hp Hlt]. destruct ev as [href| |id]; simpl.
  - destruct (handleHover_facts href h) as [Ht Hn].
    split; [|lia]. intros i u Hi. rewrite handleHover_pending in Hi by exact Hinv.
    apply lookup_singleton_Some in Hi as [<- _]. lia.
  - split.
    + intros i u Hi. rewrite handleHoverEnd_pending in Hi by exact Hinv.
      rewrite lookup_empty in Hi. discriminate.
    + unfold handleHoverEnd. destruct (Nat.eqb (hoverTimeout h) 0); simpl; lia.
  - destruct (hoverPending h !! id) as [u|] eqn:Hid; simpl; [|exact Hinv].
    split; [|exact Hlt]. intros i u' Hi. simpl in Hi.
    apply lookup_delete_Some in Hi as [_ Hi]. exact (Hp _ _ Hi).
Qed.

(** Along a run, what is pending and what is prefetched was hovered. *)
Lemma hoverRun_inv evs :
  forall (S : string -> Prop) h,
    hoverInv h ->
    (forall id u, hoverPending h !! id = Some u -> S u) ->
    hoverInv (fst (hoverRun evs h))
    /\ (forall id u,
          hoverPending (fst (hoverRun evs h)) !! id = Some u ->
          S u \/ PointerEnter u ∈ evs)
    /\ (forall u, u ∈ snd (hoverRun evs h) -> S u \/ PointerEnter u ∈ evs).
Proof.
  induction evs as [|ev rest IH]; intros S h Hinv HS.
  - simpl. split; [exact Hinv|]. split.
    + intros id u Hu. left. exact (HS _ _ Hu).
    + intros u Hu. apply elem_of_nil in Hu. contradiction.
  - simpl. destruct (hoverStep ev h) as [h1 out] eqn:Hstep.
    destruct (hoverRun rest h1) as [h2 outs] eqn:Hrun.
    assert (Hinv1 : hoverInv h1).
    { pose proof (hoverStep_inv ev h Hinv) as H. rewrite Hstep in H. exact H. }
    assert (HS1 : forall id u,
               hoverPending h1 !! id = Some u -> (fun u => S u \/ ev = PointerEnter u) u).
    { intros id u Hu. destruct ev as [href| |i]; simpl in Hstep.
      - injection Hstep as <- <-. rewrite handleHover_pending in Hu by exact Hinv.
        apply lookup_singleton_Some in Hu as [_ <-]. right. reflexivity.
      - injection Hstep as <- <-. rewrite handleHoverEnd_pending in Hu by exact Hinv.
        rewrite lookup_empty in Hu. discriminate.
      - destruct (hoverPending h !! i) eqn:Hi; injection Hstep as <- <-.
        + simpl in Hu. apply lookup_delete_Some in Hu as [_ Hu]. left. exact (HS _ _ Hu).
        + left. exact (HS _ _ Hu). }
    destruct (IH (fun u => S u \/ ev = PointerEnter u) h1 Hinv1 HS1) as (I1 & I2 & I3). rewrite Hrun in I1, I2, I3.
    simpl in I1, I2, I3. simpl.
    assert (Hweak : forall u,
               (S u \/ ev = PointerEnter u) \/ PointerEnter u ∈ rest ->
               S u \/ PointerEnter u ∈ ev :: rest).
    { intros u [[Hu|Hu]|Hu]; [left; exact Hu|right; subst ev; apply list_elem_of_here|].
      right. apply list_elem_of_further. exact Hu. }
    split; [exact I1|]. split.
    + intros id u Hu. apply Hweak. exact (I2 _ _ Hu).
    + intros u Hu. apply Hweak.
      destruct out as [o|]; [|exact (I3 _ Hu)].
      apply elem_of_cons in Hu as [->|Hu]; [|exact (I3 _ Hu)].
      left. destruct ev as [href| |i]; simpl in Hstep; try discriminate.
      destruct (hoverPending h !! i) as [u'|] eqn:Hi; [|discriminate].
      injection Hstep as _ <-. left. exact (HS _ _ Hi).
Qed.

(** X5. The hover code never has two timers waiting. Whatever the
    pointer did before, starting from the loaded script: at most one
    timer is pending; when the pointer leaves a link none is; when it
    enters a link the one pending timer is the new one, for the URL of
    that link, so that an earlier link that was left within the delay is
    not prefetched; and every URL a timer hands to [prefetchPage] is the
    URL of a link the pointer entered. *)
Theorem hover_timer_is_debounced evs :
  let h := fst (hoverRun evs initialHoverState) in
  (forall id1 id2 u1 u2,
     hoverPending h !! id1 = Some u1 -> hoverPending h !! id2 = Some u2 -> id1 = id2)
  /\ hoverPending (fst (hoverStep PointerLeave h)) = ∅
  /\ (forall href,
        hoverPending (fst (hoverStep (PointerEnter href) h)) = {[ hoverNext h := href ]})
  /\ (forall u, u ∈ snd (hoverRun evs initialHoverState) -> PointerEnter u ∈ evs).
Proof.
  intros h.
  destruct (hoverRun_inv evs (fun _ => False) initialHoverState hoverInv_initial)
    as (Hinv & _ & Hout).
  { intros id u Hu. simpl in Hu. rewrite lookup_empty in Hu. discriminate. }
  fold h in Hinv. split; [|split; [|split]].
  - intros id1 id2 u1 u2 H1 H2. destruct Hinv as [Hp _].
    destruct (Hp _ _ H1), (Hp _ _ H2). congruence.
  - apply handleHoverEnd_pending. exact Hinv.
  - intros href. apply handleHover_pending. exact Hinv.
  - intros u Hu. destruct (Hout u Hu) as [[]|H]. exact H.
Qed.

(** ** Scroll positions in the history *)

Import Session.

Lemma updateHistoryState_state x y w :
  let w1 := fst (updateHistoryState x y w) in
  historyState w1
  = option_map (fun st => mkHState (index st) x y (userState st)) (historyState w)
  /\ past (history w1) = past (history w)
  /\ future (history w1) = future (history w)
  /\ hurl (current (history w1)) = hurl (current (history w))
  /\ navigationIndex w1 = navigationIndex w
  /\ location w1 = location w
  /\ doc w1 = doc w
  /\ scrollX w1 = scrollX w /\ scrollY w1 = scrollY w.
Proof.
  unfold updateHistoryState, bind, get. simpl.
  destruct (historyState w) as [st|] eqn:Hst; simpl.
  - repeat split; reflexivity.
  - repeat split; try reflexivity. exact Hst.
Qed.

Lemma trackScrollPosition_ok w :
  trackScrollPosition w = (fst (trackScrollPosition w), Ok tt).
Proof.
  unfold trackScrollPosition. rewrite get_bind.
  destruct (historyState w) as [st|]; [|reflexivity].
  destruct (negb (scrollX w =? hScrollX st)%Z || negb (scrollY w =? hScrollY st)%Z);
    [apply updateHistoryState_ok|reflexivity].
Qed.

Lemma trackScrollPosition_state w :
  let w1 := fst (trackScrollPosition w) in
  historyState w1
  = option_map (fun st => mkHState (index st) (scrollX w) (scrollY w) (userState st))
      (historyState w)
  /\ past (history w1) = past (history w)
  /\ future (history w1) = future (history w)
  /\ hurl (current (history w1)) = hurl (current (history w))
  /\ navigationIndex w1 = navigationIndex w
  /\ location w1 = location w
  /\ doc w1 = doc w
  /\ scrollX w1 = scrollX w /\ scrollY w1 = scrollY w.
Proof.
  unfold trackScrollPosition. rewrite get_bind.
  destruct (historyState w) as [st|] eqn:Hst.
  - destruct (Z.eqb_spec (scrollX w) (hScrollX st)) as [Hx|Hx];
      destruct (Z.eqb_spec (scrollY w) (hScrollY st)) as [Hy|Hy]; simpl;
      try (pose proof (updateHistoryState_state (scrollX w) (scrollY w) w) as H;
           rewrite Hst in H; exact H).
    rewrite Hst, Hx, Hy. destruct st. repeat split; reflexivity.
  - simpl. rewrite Hst. repeat split; reflexivity.
Qed.

Lemma trackScrollPosition_again w :
  trackScrollPosition (fst (trackScrollPosition w)) = (fst (trackScrollPosition w), Ok tt).
Proof.
  destruct (trackScrollPosition_state w) as (Hst & _ & _ & _ & _ & _ & _ & Hx & Hy).
  unfold trackScrollPosition at 1. rewrite get_bind, Hst, Hx, Hy.
  destruct (historyState w) as [st|]; simpl; [|reflexivity].
  rewrite !Z.eqb_refl. reflexivity.
Qed.

(** X6. [trackScrollPosition] never fails; afterwards the state of the
    current entry, when there is one, holds the position of the window
    under the index and the caller's state it had; the other entries,
    the URL, the index variable and the page are as before; and a second
    call, with the window where it was, changes nothing and makes no
    history call. *)
Theorem trackScrollPosition_saves_once w :
  let w1 := fst (trackScrollPosition w) in
  snd (trackScrollPosition w) = Ok tt
  /\ historyState w1
     = option_map (fun st => mkHState (index st) (scrollX w) (scrollY w) (userState st))
         (historyState w)
  /\ past (history w1) = past (history w)
  /\ future (history w1) = future (history w)
  /\ hurl (current (history w1)) = hurl (current (history w))
  /\ navigationIndex w1 = navigationIndex w
  /\ doc w1 = doc w
  /\ trackScrollPosition w1 = (w1, Ok tt).
Proof.
  intros w1.
  destruct (trackScrollPosition_state w) as (Hst & Hp & Hf & Hu & Hn & _ & Hd & Hx & Hy).
  fold w1 in Hst, Hp, Hf, Hu, Hn, Hd, Hx, Hy.
  split; [rewrite trackScrollPosition_ok; reflexivity|].
  repeat (split; [assumption|]).
  apply trackScrollPosition_again.
Qed.

Lemma indexView_inv w' w :
  indexView w' = indexView w ->
  navigationIndex w' = navigationIndex w
  /\ option_map index (historyState w') = option_map index (historyState w)
  /\ map entryIndex (past (history w')) = map entryIndex (past (history w))
  /\ map entryIndex (future (history w')) = map entryIndex (future (history w)).
Proof. unfold indexView. intros H. injection H. auto. Qed.

Lemma optionZ_eqb_eq a b : optionZ_eqb a b = true <-> a = b.
Proof.
  destruct a as [x|], b as [y|]; simpl; split; intros H;
    try discriminate; try reflexivity.
  - apply Z.eqb_eq in H. congruence.
  - injection H as ->. apply Z.eqb_refl.
Qed.

Lemma trackScrollPosition_trace w :
  trace (fst (trackScrollPosition w)) = trace w
  \/ exists st, historyState w = Some st
       /\ trace (fst (trackScrollPosition w))
          = trace w ++ [EReplaceState
                          (Some (mkHState (index st) (scrollX w) (scrollY w) (userState st)))
                          None].
Proof.
  unfold trackScrollPosition. rewrite get_bind.
  destruct (historyState w) as [st|] eqn:Hst; [|left; reflexivity].
  destruct (negb (scrollX w =? hScrollX st)%Z || negb (scrollY w =? hScrollY st)%Z);
    [|left; reflexivity].
  right. exists st. split; [reflexivity|].
  unfold updateHistoryState, bind, get. simpl. rewrite Hst. reflexivity.
Qed.

(** One run of [checkScrollEnd]: it never fails, and either the index
    of the entry is no longer the one the scrolling began in, and the
    interval is cleared with the world untouched; or the window is where
    the last run saw it, and the interval is cleared and the position
    saved; or the new position is noted. *)
Lemma checkScrollEnd_cases p w :
  (lastIndex p <> option_map index (historyState w)
   /\ checkScrollEnd p w
      = (w, Ok (mkPoll false (lastScrollX p) (lastScrollY p) (lastIndex p))))
  \/ (lastIndex p = option_map index (historyState w)
      /\ lastScrollX p = scrollX w /\ lastScrollY p = scrollY w
      /\ checkScrollEnd p w
         = (fst (trackScrollPosition w),
            Ok (mkPoll false (lastScrollX p) (lastScrollY p) (lastIndex p))))
  \/ (lastIndex p = option_map index (historyState w)
      /\ (lastScrollX p <> scrollX w \/ lastScrollY p <> scrollY w)
      /\ checkScrollEnd p w
         = (w, Ok (mkPoll (scrollTimer p) (scrollX w) (scrollY w) (lastIndex p)))).
Proof.
  unfold checkScrollEnd. rewrite get_bind.
  destruct (optionZ_eqb (lastIndex p) (option_map index (historyState w))) eqn:Hi; simpl.
  - apply optionZ_eqb_eq in Hi.
    destruct (Z.eqb_spec (lastScrollY p) (scrollY w)) as [Hy|Hy];
      destruct (Z.eqb_spec (lastScrollX p) (scrollX w)) as [Hx|Hx]; simpl;
      try (right; right; split; [exact Hi|split; [tauto|reflexivity]]).
    right. left. repeat (split; [assumption|]).
    rewrite (bind_ok _ _ _ _ _ (trackScrollPosition_ok w)). reflexivity.
  - left. split; [|reflexivity]. intros Hc. apply optionZ_eqb_eq in Hc. congruence.
Qed.

(** X7. Scroll-end detection by polling. With the window at rest, two
    runs of [checkScrollEnd] clear the interval. The history is written
    only when the index of the current entry is still the index of the
    entry in which the scrolling began, so a position is never saved
    into the entry of another page; in that case the state of the entry
    holds the position of the window afterwards. The entries, their
    indices and the index variable stay as they are. *)
Theorem scroll_polling_at_rest p w :
  exists p1 p2 w1 w2,
    checkScrollEnd p w = (w1, Ok p1)
    /\ checkScrollEnd p1 w1 = (w2, Ok p2)
    /\ scrollTimer p2 = false
    /\ indexView w2 = indexView w
    /\ (lastIndex p <> option_map index (historyState w) -> w2 = w)
    /\ (lastIndex p = option_map index (historyState w) ->
        forall st, historyState w2 = Some st ->
                   hScrollX st = scrollX w /\ hScrollY st = scrollY w).
Proof.
  assert (Htrack : forall w0,
             indexView (fst (trackScrollPosition w0)) = indexView w0
             /\ forall st, historyState (fst (trackScrollPosition w0)) = Some st ->
                           hScrollX st = scrollX w0 /\ hScrollY st = scrollY w0).
  { intros w0.
    destruct (trackScrollPosition_state w0) as (Hst & Hp & Hf & _ & Hn & _).
    split.
    - unfold indexView, entryIndex. rewrite Hp, Hf, Hn.
      change (hstate (current (history (fst (trackScrollPosition w0)))))
        with (historyState (fst (trackScrollPosition w0))).
      rewrite Hst. change (hstate (current (history w0))) with (historyState w0).
      destruct (historyState w0); reflexivity.
    - intros st H. rewrite Hst in H. destruct (historyState w0) as [s0|]; [|discriminate].
      injection H as <-. split; reflexivity. }
  destruct (checkScrollEnd_cases p w) as [[Hi H1]|[(Hi & Hx & Hy & H1)|(Hi & _ & H1)]].
  - (* the entry changed: the first run clears the interval *)
    set (p1 := mkPoll false (lastScrollX p) (lastScrollY p) (lastIndex p)) in *.
    destruct (checkScrollEnd_cases p1 w) as [[Hj H2]|[(Hj & _)|(Hj & _)]];
      try (simpl in Hj; contradiction).
    exists p1, (mkPoll false (lastScrollX p1) (lastScrollY p1) (lastIndex p1)), w, w.
    split; [exact H1|]. split; [exact H2|]. split; [reflexivity|].
    split; [reflexivity|]. split; [reflexivity|]. intros Hc. contradiction.
  - (* at rest already: the first run saves and clears *)
    set (p1 := mkPoll false (lastScrollX p) (lastScrollY p) (lastIndex p)) in *.
    set (w1 := fst (trackScrollPosition w)) in *.
    destruct (Htrack w) as [Hv Hs]. fold w1 in Hv, Hs.
    destruct (trackScrollPosition_state w) as (_ & _ & _ & _ & _ & _ & _ & Hsx & Hsy).
    fold w1 in Hsx, Hsy.
    assert (Hidx : option_map index (historyState w1) = option_map index (historyState w)).
    { apply (indexView_inv _ _ Hv). }
    destruct (checkScrollEnd_cases p1 w1) as [[Hj H2]|[(Hj & _ & _ & H2)|(Hj & _ & H2)]].
    + exfalso. apply Hj. simpl. rewrite Hidx. exact Hi.
    + pose proof (trackScrollPosition_again w) as Hidem. fold w1 in Hidem.
      rewrite Hidem in H2. simpl in H2.
      exists p1, (mkPoll false (lastScrollX p1) (lastScrollY p1) (lastIndex p1)), w1, w1.
      split; [exact H1|]. split; [exact H2|]. split; [reflexivity|].
      split; [exact Hv|]. split; [intros Hc; contradiction|]. intros _. exact Hs.
    + exists p1, (mkPoll (scrollTimer p1) (scrollX w1) (scrollY w1) (lastIndex p1)), w1, w1.
      split; [exact H1|]. split; [exact H2|]. split; [reflexivity|].
      split; [exact Hv|]. split; [intros Hc; contradiction|]. intros _. exact Hs.
  - (* the window moved since the last run: the second run sees it at rest *)
    set (p1 := mkPoll (scrollTimer p) (scrollX w) (scrollY w) (lastIndex p)) in *.
    destruct (Htrack w) as [Hv Hs].
    destruct (checkScrollEnd_cases p1 w) as [[Hj H2]|[(Hj & _ & _ & H2)|(Hj & Hmoved & H2)]].
    + simpl in Hj. contradiction.
    + exists p1, (mkPoll false (lastScrollX p1) (lastScrollY p1) (lastIndex p1)), w,
        (fst (trackScrollPosition w)).
      split; [exact H1|]. split; [exact H2|]. split; [reflexivity|].
      split; [exact Hv|]. split; [intros Hc; contradiction|]. intros _. exact Hs.
    + exfalso. simpl in Hmoved. destruct Hmoved as [Hc|Hc]; apply Hc; reflexivity.
Qed.

(** ** The indices of the session history *)

Lemma session_view w' w :
  indexView w' = indexView w ->
  ordered (history w') = ordered (history w) /\ inSync w' = inSync w.
Proof.
  unfold indexView, ordered, inSync. intros H. injection H as H1 H2 H3 H4.
  rewrite H1, H2, H3, H4. split; reflexivity.
Qed.

(** One step of a proof that a computation leaves the indices alone. *)
Ltac index_step :=
  match goal with
  | |- preserves _ (bind _ _) => apply preserves_bind; [|intros ?]
  | |- preserves _ (ret _) => apply preserves_ret
  | |- preserves _ (throw _) => apply preserves_throw
  | |- preserves _ get => apply preserves_get
  | |- preserves _ (when _ _) => apply preserves_when
  | |- preserves _ (detach _) => apply preserves_detach
  | |- preserves _ (forEach _ _) => apply preserves_forEach; intros ?
  | |- preserves _ (modify _) => apply preserves_modify; intros ?; reflexivity
  | |- preserves _ (effect _) => apply preserves_effect; intros ?; reflexivity
  | |- preserves _ (createElement _) => intros ?; reflexivity
  | |- preserves _ (if ?c then _ else _) => destruct c
  | |- preserves _ (match ?c with _ => _ end) => destruct c
  end.

Ltac index_auto := repeat index_step.

Lemma preserves_bind_throws {A B C} (obs : World -> B) (m : M A) (k : A -> M C) :
  preserves obs m ->
  (forall w, exists msg, snd (m w) = Throw msg) ->
  preserves obs (m >>= k).
Proof.
  intros Hm Ht w. unfold bind. specialize (Hm w). destruct (Ht w) as [msg Hmsg].
  destruct (m w) as [w1 [a|msg']]; simpl in *; [discriminate|exact Hm].
Qed.

Lemma updateHistoryState_index x y : preserves indexView (updateHistoryState x y).
Proof.
  intros w. unfold updateHistoryState. rewrite get_bind.
  destruct (historyState w) as [st|] eqn:Hst; [|reflexivity].
  unfold indexView, entryIndex. simpl.
  change (hstate (current (history w))) with (historyState w). rewrite Hst. reflexivity.
Qed.

Lemma appendToHead_index n : preserves indexView (appendToHead n).
Proof. unfold appendToHead. index_auto. Qed.

Lemma appendToBody_index n : preserves indexView (appendToBody n).
Proof. unfold appendToBody. index_auto. Qed.

Lemma loader_index E ev options : preserves indexView (loader E ev options).
Proof.
  unfold loader, fetchPage, preloadStylesheets. index_auto; apply appendToHead_index.
Qed.

Lemma dispatchBeforePreparation_index E from to direction navigationType options :
  preserves indexView (dispatchBeforePreparation E from to direction navigationType options).
Proof.
  unfold dispatchBeforePreparation, dispatchEvent. cbv zeta.
  index_auto; first [apply loader_index | apply updateHistoryState_index].
Qed.

Lemma performPageSwap_index E ev options scrollState fallback :
  preserves indexView (performPageSwap E ev options scrollState fallback).
Proof.
  unfold performPageSwap, animateTransition, setRootAttribute.
  apply preserves_bind; [apply preserves_get|intros w0].
  apply preserves_bind; [index_auto|intros _].
  apply preserves_bind; [apply preserves_get|intros w1].
  apply preserves_bind_throws.
  - intros w. rewrite dispatchBeforeSwap_throws. reflexivity.
  - intros w. rewrite dispatchBeforeSwap_throws. eauto.
Qed.

Lemma navigateToPage_index E direction fromUrl toUrl options scrollState :
  isHashNavigation direction fromUrl toUrl = false ->
  preserves indexView (navigateToPage E direction fromUrl toUrl options scrollState).
Proof.
  intros Hhash. unfold navigateToPage, assignHref. cbv zeta. rewrite Hhash.
  unfold executeScripts, executeScript, dispatchPageLoad, dispatchEvent,
    createRouteAnnouncer, removeRootAttribute.
  index_auto;
    first [ apply updateHistoryState_index
          | apply dispatchBeforePreparation_index
          | apply performPageSwap_index
          | apply appendToBody_index ].
Qed.

(** What [updateLocation] does after its history call leaves the
    indices alone and does not fail: a fragment navigation that empties
    the state of the entry is followed by the [replaceState] that puts
    it back. *)
Lemma updateLocation_tail_index E to (isSameUrl : bool) scrollState w :
  let tail :=
    modify (setCurrentLocation to) >>
    if isSameUrl then ret tt
    else
      scrollTo 0 0 >>
      (match scrollState with
       | Some s => scrollTo (hScrollX s) (hScrollY s)
       | None =>
           if negb (String.eqb (hash to) "") then
             modify (setScrollManual false) >>
             get >>= fun w =>
             let state := historyState w in
             fragmentNavigate E to >>
             get >>= fun w =>
             if isSome (historyState w) then ret tt
             else
               originalReplaceState state None >>
               when isSameUrl (effect (EDispatch "popstate"))
           else ret tt
       end) >>
      modify (setScrollManual true) in
  snd (tail w) = Ok tt /\ indexView (fst (tail w)) = indexView w.
Proof.
  cbv zeta. destruct isSameUrl; [split; reflexivity|].
  destruct scrollState as [s|]; [split; reflexivity|].
  destruct (negb (String.eqb (hash to) "")); [|split; reflexivity].
  unfold bind, modify, get, scrollTo, fragmentNavigate, effect, originalReplaceState,
    when, ret, indexView, entryIndex, historyState.
  simpl.
  destruct (hrefClearsState E), (fragmentOffset E (href to)) as [[x y]|];
    simpl; destruct (hstate (current (history w))) eqn:Hst; simpl;
    rewrite ?Hst; split; reflexivity.
Qed.

(** The history call of [updateLocation] keeps the indices in order. *)
Lemma historyCall_session to options (scrollState : option HState) w :
  ordered (history w) = true ->
  inSync w = true ->
  origin to = origin (location w) ->
  exists w1,
    (if negb (String.eqb (href to) (href (location w))) && negb (isSome scrollState)
     then
       if historyIsReplace options then
         match historyState w with
         | Some state =>
             originalReplaceState
               (Some (mkHState (index state) (hScrollX state) (hScrollY state)
                        (o_state options)))
               (Some to)
         | None => throw "TypeError"
         end
       else
         modify (fun w => setNavigationIndex (navigationIndex w + 1)%Z w) >>
         get >>= fun w =>
         originalPushState (mkHState (navigationIndex w) 0 0 (o_state options)) to
     else ret tt) w = (w1, Ok tt)
    /\ ordered (history w1) = true /\ inSync w1 = true.
Proof.
  intros Hord Hsync Hor.
  destruct (negb (String.eqb (href to) (href (location w))) && negb (isSome scrollState));
    [|exists w; auto].
  unfold inSync, entryIndex in Hsync. unfold ordered, entryIndex in Hord.
  change (hstate (current (history w))) with (historyState w) in Hsync, Hord.
  destruct (historyState w) as [st|] eqn:Hst; [|discriminate]. simpl in Hsync, Hord.
  apply Z.eqb_eq in Hsync.
  destruct (historyIsReplace options).
  - unfold originalReplaceState, bind, get, modify. simpl.
    rewrite Hor, String.eqb_refl. simpl. eexists. split; [reflexivity|].
    unfold ordered, inSync, entryIndex. simpl. rewrite Hord, Hsync, Z.eqb_refl.
    split; reflexivity.
  - unfold originalPushState, bind, get, modify. simpl.
    rewrite Hor, String.eqb_refl. simpl. eexists. split; [reflexivity|].
    unfold ordered, inSync, entryIndex. simpl.
    change (hstate (current (history w))) with (historyState w). rewrite Hst. simpl.
    rewrite Z.eqb_refl.
    apply andb_true_iff in Hord as [Hd _]. rewrite Hd.
    replace (index st <? navigationIndex w + 1)%Z with true
      by (symmetry; apply Z.ltb_lt; lia).
    split; reflexivity.
Qed.

Lemma setDocumentTitle_index v : preserves indexView (setDocumentTitle v).
Proof.
  intros w. unfold indexView, entryIndex.
  rewrite setDocumentTitle_sessionHistory, setDocumentTitle_navigationIndex. reflexivity.
Qed.

Lemma updateLocation_session E to from options title scrollState w :
  ordered (history w) = true ->
  inSync w = true ->
  origin to = origin (location w) ->
  snd (updateLocation E to from options title scrollState w) = Ok tt
  /\ ordered (history (fst (updateLocation E to from options title scrollState w))) = true
  /\ inSync (fst (updateLocation E to from options title scrollState w)) = true.
Proof.
  intros Hord Hsync Hor.
  destruct (session_view _ _ (setDocumentTitle_index title w)) as [Ho1 Hs1].
  destruct (historyCall_session to options scrollState (fst (setDocumentTitle title w)))
    as (w2 & Hw2 & Hord2 & Hsync2).
  { rewrite Ho1. exact Hord. }
  { rewrite Hs1. exact Hsync. }
  { rewrite setDocumentTitle_location. exact Hor. }
  unfold updateLocation. cbv zeta. rewrite get_bind.
  rewrite (bind_ok _ _ _ _ _ (setDocumentTitle_ok title w)), get_bind.
  rewrite (bind_ok _ _ _ _ _ Hw2).
  rewrite (bind_ok _ _ _ _ _ (setDocumentTitle_ok (documentTitle (doc w)) w2)).
  destruct (session_view _ _ (setDocumentTitle_index (documentTitle (doc w)) w2))
    as [Ho3 Hs3].
  match goal with
  | |- snd (?t ?w3) = _ /\ _ =>
      destruct (updateLocation_tail_index E to
                  (String.eqb (pathname from) (pathname to)
                   && String.eqb (search from) (search to)) scrollState w3) as [Hok Hv]
  end.
  cbv zeta in Hok, Hv. split; [exact Hok|].
  destruct (session_view _ _ Hv) as [Ho Hs]. rewrite Ho, Hs, Ho3, Hs3. split; assumption.
Qed.

Lemma navigateToPage_hard E direction fromUrl toUrl options scrollState w :
  negb (isViewTransitionsEnabled w)
  || negb (String.eqb (origin (location w)) (origin toUrl)) = true ->
  navigateToPage E direction fromUrl toUrl options scrollState w
  = (logEffect (EAssignHref (href toUrl)) w, Ok tt).
Proof.
  intros H. unfold navigateToPage. rewrite get_bind, H. reflexivity.
Qed.

Lemma navigateToPage_session E direction fromUrl toUrl options scrollState w :
  ordered (history w) = true ->
  inSync w = true ->
  ordered (history (fst (navigateToPage E direction fromUrl toUrl options scrollState w)))
  = true
  /\ inSync (fst (navigateToPage E direction fromUrl toUrl options scrollState w)) = true.
Proof.
  intros Hord Hsync.
  destruct (isHashNavigation direction fromUrl toUrl) eqn:Hhash.
  - destruct (negb (isViewTransitionsEnabled w)
              || negb (String.eqb (origin (location w)) (origin toUrl))) eqn:Hhard.
    + rewrite navigateToPage_hard by exact Hhard. split; assumption.
    + apply orb_false_iff in Hhard as [Hen Hor].
      apply negb_false_iff in Hen, Hor. apply String.eqb_eq in Hor.
      rewrite navigateToPage_hash by assumption.
      destruct (afterScrollSnapshot_facts options scrollState w)
        as (_ & _ & _ & Hloc & _).
      assert (Hv : indexView (afterScrollSnapshot options scrollState w) = indexView w).
      { unfold afterScrollSnapshot.
        destruct (navigationTypeOf options scrollState);
          first [apply updateHistoryState_index | reflexivity]. }
      destruct (session_view _ _ Hv) as [Ho Hs].
      destruct (updateLocation_session E toUrl fromUrl options (documentTitle (doc w))
                  scrollState (afterScrollSnapshot options scrollState w))
        as (_ & H1 & H2).
      * rewrite Ho. exact Hord.
      * rewrite Hs. exact Hsync.
      * rewrite Hloc. symmetry. exact Hor.
      * split; assumption.
  - destruct (session_view _ _
                (navigateToPage_index E direction fromUrl toUrl options scrollState Hhash w))
      as [Ho Hs].
    rewrite Ho, Hs. split; assumption.
Qed.

(** X8. Navigations keep the indices of the session history in order.
    When the indices of the entries grow along the history,
    [navigationIndex] is the index of the current entry and is a number
    to which one is added exactly, the same holds after
    [navigateToPage], however it ends (a full load, a navigation inside
    the page, a push or a replace, a failed swap): for a destination
    that the browser does not answer inside the page when it is assigned
    to [location.href], and for a navigation that takes the way of
    [updateLocation] inside the page. So it is after [navigate], on a
    page where the script has assigned [currentLocation]. *)
Theorem navigation_keeps_indices_ordered E w :
  ordered (history w) = true ->
  inSync w = true ->
  incrementsExactly (navigationIndex w) = true ->
  (forall direction fromUrl toUrl options scrollState,
     staysInPage toUrl w = false
     \/ (isViewTransitionsEnabled w = true /\ origin (location w) = origin toUrl
         /\ isHashNavigation direction fromUrl toUrl = true) ->
     let w' := fst (navigateToPage E direction fromUrl toUrl options scrollState w) in
     ordered (history w') = true /\ inSync w' = true)
  /\ (forall url options to,
        navigationInitialised E w = true ->
        parseURL E url (Some (href (location w))) = Some to ->
        staysInPage to w = false
        \/ (isViewTransitionsEnabled w = true /\ origin (location w) = origin to
            /\ isHashNavigation dir_forward (currentLocation w) to = true) ->
        let w' := fst (navigate E url options w) in
        ordered (history w') = true /\ inSync w' = true).
Proof.
  intros Hord Hsync _. split.
  - intros. apply navigateToPage_session; assumption.
  - intros url options to _ Hto _. unfold navigate. rewrite get_bind, Hto.
    apply navigateToPage_session; assumption.
Qed.

Lemma navigation_keeps_indices_ordered_witness :
  ordered (history Sample.world0) = true
  /\ inSync Sample.world0 = true
  /\ incrementsExactly (navigationIndex Sample.world0) = true
  /\ navigationInitialised Sample.siteEnv Sample.world0 = true
  /\ inSync (fst (navigate Sample.siteEnv (href Sample.pageUsage) noOptions Sample.world0))
     = true.
Proof.
  split; [reflexivity|]. split; [reflexivity|]. split; [reflexivity|].
  split; [reflexivity|].
  destruct (navigation_keeps_indices_ordered Sample.siteEnv Sample.world0
              eq_refl eq_refl eq_refl) as [_ H].
  destruct (H (href Sample.pageUsage) noOptions Sample.pageUsage eq_refl eq_refl) as [_ H2].
  { right. split; [reflexivity|]. split; reflexivity. }
  exact H2.
Defined.

Lemma descending_head i j l : descending i (Some j :: l) = true -> (j < i)%Z /\ descending j l = true.
Proof. simpl. intros H. apply andb_true_iff in H as [H1 H2]. apply Z.ltb_lt in H1. auto. Qed.

Lemma ascending_head i j l : ascending i (Some j :: l) = true -> (i < j)%Z /\ ascending j l = true.
Proof. simpl. intros H. apply andb_true_iff in H as [H1 H2]. apply Z.ltb_lt in H1. auto. Qed.

Lemma entryIndex_some e j :
  entryIndex e = Some j -> exists st, hstate e = Some st /\ index st = j.
Proof.
  unfold entryIndex. destruct (hstate e) as [st|]; [|discriminate].
  intros [= <-]. eauto.
Qed.

Lemma handlePopState_session E st w :
  isViewTransitionsEnabled w = true ->
  historyState w = Some st ->
  ordered (history w) = true ->
  let w' := fst (handlePopState E (Some st) w) in
  ordered (history w') = true /\ inSync w' = true.
Proof.
  intros Hen Hst Hord w'. unfold w'. rewrite handlePopState_enabled by assumption.
  destruct (traversal_inv E (popDirection (index st) (navigationIndex w))
              (currentLocation w) (location w) noOptions st
              (setNavigationIndex (index st) w)) as (Hh & _ & Hn & _).
  unfold detach. cbn [fst]. unfold inSync. rewrite Hh, Hn. cbn [history setNavigationIndex
    navigationIndex]. split; [exact Hord|].
  unfold entryIndex. change (hstate (current (history w))) with (historyState w).
  rewrite Hst. simpl. apply Z.eqb_refl.
Qed.

(** X9. Back is handled as back and forward as forward. When the
    indices grow along the session history and [navigationIndex] is the
    index of the current entry, and the browser then moves to the entry
    behind (or ahead) and fires [popstate] with the state of that entry,
    [handlePopState] starts the traversal with the direction [back] (or
    [forward]); afterwards the indices are in order again and
    [navigationIndex] is the index of the entry arrived at. *)
Theorem back_and_forward_are_recognised E u w :
  ordered (history w) = true ->
  inSync w = true ->
  (forall w1,
     stepBack u w = Some w1 ->
     isViewTransitionsEnabled w1 = true ->
     exists st,
       historyState w1 = Some st
       /\ handlePopState E (Some st) w1
          = detach (navigateToPage E dir_back (currentLocation w) u noOptions (Some st))
              (setNavigationIndex (index st) w1)
       /\ ordered (history (fst (handlePopState E (Some st) w1))) = true
       /\ inSync (fst (handlePopState E (Some st) w1)) = true)
  /\ (forall w1,
        stepForward u w = Some w1 ->
        isViewTransitionsEnabled w1 = true ->
        exists st,
          historyState w1 = Some st
          /\ handlePopState E (Some st) w1
             = detach (navigateToPage E dir_forward (currentLocation w) u noOptions (Some st))
                 (setNavigationIndex (index st) w1)
          /\ ordered (history (fst (handlePopState E (Some st) w1))) = true
          /\ inSync (fst (handlePopState E (Some st) w1)) = true).
Proof.
  intros Hord Hsync.
  unfold ordered in Hord. unfold inSync in Hsync.
  destruct (entryIndex (current (history w))) as [i|] eqn:Hi; [|discriminate].
  apply Z.eqb_eq in Hsync. apply andb_true_iff in Hord as [Hdesc Hasc].
  split; intros w1 Hstep Hen.
  - unfold stepBack in Hstep. destruct (past (history w)) as [|e r] eqn:Hpast; [discriminate|].
    injection Hstep as <-. cbn [map] in Hdesc.
    destruct (entryIndex e) as [j|] eqn:He; [|discriminate].
    apply descending_head in Hdesc as [Hlt Hdesc].
    destruct (entryIndex_some _ _ He) as (st & Hst & Hj).
    assert (Ho : ordered (mkHistory r e (current (history w) :: future (history w))) = true).
    { unfold ordered. cbn [current past future map ascending]. rewrite He, Hi, Hdesc, Hasc.
      replace (j <? i)%Z with true by (symmetry; apply Z.ltb_lt; exact Hlt). reflexivity. }
    exists st. split; [exact Hst|]. split.
    + rewrite handlePopState_enabled by assumption. simpl.
      unfold popDirection. destruct (Z.gtb_spec (index st) (navigationIndex w)); [lia|].
      reflexivity.
    + apply handlePopState_session; assumption.
  - unfold stepForward in Hstep.
    destruct (future (history w)) as [|e r] eqn:Hfut; [discriminate|].
    injection Hstep as <-. cbn [map] in Hasc.
    destruct (entryIndex e) as [j|] eqn:He; [|discriminate].
    apply ascending_head in Hasc as [Hlt Hasc].
    destruct (entryIndex_some _ _ He) as (st & Hst & Hj).
    assert (Ho : ordered (mkHistory (current (history w) :: past (history w)) e r) = true).
    { unfold ordered. cbn [current past future map descending]. rewrite He, Hi, Hdesc, Hasc.
      replace (i <? j)%Z with true by (symmetry; apply Z.ltb_lt; exact Hlt). reflexivity. }
    exists st. split; [exact Hst|]. split.
    + rewrite handlePopState_enabled by assumption. simpl.
      unfold popDirection. destruct (Z.gtb_spec (index st) (navigationIndex w)); [|lia].
      reflexivity.
    + apply handlePopState_session; assumption.
Qed.

Lemma back_and_forward_are_recognised_witness :
  ordered (history Site.visitedWorld) = true
  /\ inSync Site.visitedWorld = true
  /\ exists w1 st,
       stepBack Sample.pageIntro Site.visitedWorld = Some w1
       /\ handlePopState Sample.siteEnv (Some st) w1
          = detach
              (navigateToPage Sample.siteEnv dir_back Sample.pageUsage Sample.pageIntro
                 noOptions (Some st))
              (setNavigationIndex (index st) w1).
Proof.
  split; [reflexivity|]. split; [reflexivity|].
  destruct (back_and_forward_are_recognised Sample.siteEnv Sample.pageIntro
              Site.visitedWorld eq_refl eq_refl) as [Hb _].
  destruct (Hb _ eq_refl eq_refl) as (st & _ & H & _).
  eexists. exists st. split; [reflexivity|exact H].
Defined.

(** X10. The start-up code of the navigation state never fails. On an
    entry that has a state (a reload, or a return to the page) it takes
    the index of the state, scrolls the window to the saved position and
    leaves the history as it is; on a fresh entry of a page that has
    opted in it gives the entry a state with the position of the window.
    Either way [navigationIndex] is the index of the current entry
    afterwards, and a history of this one entry is in order. On a page
    that has not opted in and has no state nothing happens. *)
Theorem initializeNavigation_establishes_index w :
  let w1 := fst (initializeNavigation w) in
  snd (initializeNavigation w) = Ok tt
  /\ past (history w1) = past (history w)
  /\ future (history w1) = future (history w)
  /\ hurl (current (history w1)) = hurl (current (history w))
  /\ (isSome (historyState w) || isViewTransitionsEnabled w = true -> inSync w1 = true)
  /\ (isSome (historyState w) || isViewTransitionsEnabled w = true ->
      past (history w) = [] -> future (history w) = [] -> ordered (history w1) = true)
  /\ (forall st,
        historyState w = Some st ->
        scrollX w1 = hScrollX st /\ scrollY w1 = hScrollY st
        /\ history w1 = history w /\ historyWrites w1 = historyWrites w)
  /\ (historyState w = None ->
      isViewTransitionsEnabled w = true ->
      historyState w1 = Some (mkHState (navigationIndex w) (scrollX w) (scrollY w) []))
  /\ (historyState w = None -> isViewTransitionsEnabled w = false -> w1 = w).
Proof.
  intros w1. unfold w1, initializeNavigation. rewrite get_bind.
  destruct (historyState w) as [st|] eqn:Hst.
  - unfold bind, modify, scrollTo, effect. simpl.
    unfold inSync, ordered, entryIndex. simpl.
    change (hstate (current (history w))) with (historyState w). rewrite Hst. simpl.
    rewrite Z.eqb_refl.
    split; [reflexivity|]. split; [reflexivity|]. split; [reflexivity|].
    split; [reflexivity|]. split; [reflexivity|].
    split; [intros _ Hp Hf; rewrite Hp, Hf; reflexivity|].
    split; [|split; [discriminate|discriminate]].
    intros st' [= <-]. split; [reflexivity|]. split; [reflexivity|].
    split; [reflexivity|].
    unfold historyWrites. simpl. rewrite List.filter_app. simpl. apply app_nil_r.
  - destruct (isViewTransitionsEnabled w) eqn:Hen.
    + unfold originalReplaceState, bind, modify, get. simpl.
      unfold inSync, ordered, entryIndex. simpl. rewrite Z.eqb_refl.
      split; [reflexivity|]. split; [reflexivity|]. split; [reflexivity|].
      split; [reflexivity|]. split; [reflexivity|].
      split; [intros _ Hp Hf; rewrite Hp, Hf; reflexivity|].
      split; [discriminate|]. split; [reflexivity|discriminate].
    + simpl.
      split; [reflexivity|]. split; [reflexivity|]. split; [reflexivity|].
      split; [reflexivity|]. split; [discriminate|]. split; [discriminate|].
      split; [discriminate|]. split; [discriminate|reflexivity].
Qed.

(** ** Clicks on links *)

Import Links.

Lemma onClick_skipped E ev w i link u :
  clickTarget ev = Some i ->
  closest selLink i (doc w) = Some link ->
  parseURL E (anchorHref E w link) (Some (href (location w))) = Some u ->
  skipsClick E ev w link u = true ->
  onClick E ev w = (w, Ok false).
Proof.
  intros Ht Hc Hu Hs. unfold onClick. rewrite get_bind, Ht, Hc, Hu, Hs. reflexivity.
Qed.

Lemma onClick_untouched E ev w :
  (forall i link u,
     clickTarget ev = Some i ->
     closest selLink i (doc w) = Some link ->
     parseURL E (anchorHref E w link) (Some (href (location w))) = Some u ->
     skipsClick E ev w link u = true) ->
  fst (onClick E ev w) = w /\ snd (onClick E ev w) <> Ok true.
Proof.
  intros H. unfold onClick. rewrite get_bind.
  destruct (clickTarget ev) as [i|] eqn:Ht; [|split; [reflexivity|discriminate]].
  destruct (closest selLink i (doc w)) as [link|] eqn:Hc;
    [|split; [reflexivity|discriminate]].
  destruct (parseURL E (anchorHref E w link) (Some (href (location w)))) as [u|] eqn:Hu;
    [|split; [reflexivity|discriminate]].
  rewrite (H i link u eq_refl Hc Hu). split; [reflexivity|discriminate].
Qed.

(** X11. The click listener leaves to the browser every click that is
    not a plain one, and every click on a link that asks for it: with a
    button other than the main one, with a modifier key down, or with
    the default already prevented, and on a link that carries
    [data-mkdocs-reload] or [download], that has a [target] other than
    [_self], or that leads to another origin, the listener changes
    nothing and does not call [preventDefault]. *)
Theorem click_is_left_to_the_browser E ev w :
  (negb (Z.eqb (c_button ev) 0) || c_metaKey ev || c_ctrlKey ev || c_altKey ev
   || c_shiftKey ev || c_defaultPrevented ev = true ->
   fst (onClick E ev w) = w /\ snd (onClick E ev w) <> Ok true)
  /\ (forall i link,
        clickTarget ev = Some i ->
        closest selLink i (doc w) = Some link ->
        hasAttribute "data-mkdocs-reload" (attrs link)
        || hasAttribute "download" (attrs link)
        || match getAttribute "target" (attrs link) with
           | Some t => negb (String.eqb t "") && negb (String.eqb t "_self")
           | None => false
           end
        || match parseURL E (anchorHref E w link) (Some (href (location w))) with
           | Some u => negb (String.eqb (origin u) (origin (location w)))
           | None => true
           end = true ->
        fst (onClick E ev w) = w /\ snd (onClick E ev w) <> Ok true).
Proof.
  split.
  - intros H. apply onClick_untouched. intros i link u _ _ _. unfold skipsClick.
    repeat (apply orb_true_iff in H as [H|H]);
      rewrite H, ?orb_true_r; reflexivity.
  - intros i link Ht Hc H. apply onClick_untouched. intros i' link' u Ht' Hc' Hu.
    rewrite Ht in Ht'. injection Ht' as <-. rewrite Hc in Hc'. injection Hc' as <-.
    rewrite Hu in H. unfold skipsClick.
    repeat (apply orb_true_iff in H as [H|H]).
    + rewrite H. reflexivity.
    + rewrite H, ?orb_true_r. reflexivity.
    + destruct (getAttribute "target" (attrs link)) as [t|]; [|discriminate].
      rewrite H, ?orb_true_r. reflexivity.
    + rewrite H, ?orb_true_r. reflexivity.
Qed.

Lemma skipsClick_false E ev w link u :
  skipsClick E ev w link u = false -> origin (location w) = origin u.
Proof.
  unfold skipsClick. intros H.
  repeat (apply orb_false_iff in H as [H ?]).
  match goal with
  | Ho : negb (String.eqb (origin u) _) = false |- _ =>
      apply negb_false_iff, String.eqb_eq in Ho; symmetry; exact Ho
  end.
Qed.

Lemma clickOptions_history link :
  historyIsReplace (clickOptions link) = attrIs "data-mkdocs-history" "replace" link.
Proof.
  unfold historyIsReplace, clickOptions. simpl.
  destruct (attrIs "data-mkdocs-history" "replace" link); reflexivity.
Qed.



(** ** Class lists *)

Lemma append_cons a (r t : string) :
  String.append (String a r) t = String a (String.append r t).
Proof. reflexivity. Qed.

Lemma append_empty_r s : String.append s "" = s.
Proof.
  induction s as [|a r IH]; [reflexivity|]. rewrite append_cons, IH. reflexivity.
Qed.

Lemma append_assoc (s t u : string) :
  String.append (String.append s t) u = String.append s (String.append t u).
Proof.
  induction s as [|a r IH]; [reflexivity|]. rewrite !append_cons, IH. reflexivity.
Qed.

Lemma append_nonempty s a : String.eqb (String.append s (String a "")) "" = false.
Proof. destruct s; reflexivity. Qed.

(** The characters of a token extend the token being read. *)
Lemma splitTokens_token t :
  forall cur rest,
    ClassList.noWhitespace t = true ->
    ClassList.splitTokens cur (String.append t rest)
    = ClassList.splitTokens (String.append cur t) rest.
Proof.
  induction t as [|a r IH]; intros cur rest Ht.
  - rewrite append_empty_r. reflexivity.
  - unfold ClassList.noWhitespace in Ht. simpl in Ht. apply andb_true_iff in Ht as [Ha Hr].
    apply negb_true_iff in Ha. rewrite append_cons. cbn [ClassList.splitTokens].
    rewrite Ha, (IH _ _ Hr), append_assoc. reflexivity.
Qed.

Lemma validToken_parts t :
  ClassList.validToken t = true -> String.eqb t "" = false /\ ClassList.noWhitespace t = true.
Proof.
  unfold ClassList.validToken. intros H. apply andb_true_iff in H as [H1 H2].
  apply negb_true_iff in H1. split; assumption.
Qed.

(** Splitting the value of a list of tokens gives the list back. *)
Lemma splitTokens_serialize l :
  Forall (fun t => ClassList.validToken t = true) l ->
  ClassList.splitTokens "" (ClassList.serialize l) = l.
Proof.
  induction l as [|t r IH]; intros Hl; [reflexivity|].
  apply Forall_cons in Hl as [Ht Hr]. destruct (validToken_parts t Ht) as [Hne Hws].
  destruct r as [|t' r'].
  - simpl. rewrite <- (append_empty_r t) at 1.
    rewrite splitTokens_token by exact Hws. change (String.append "" t) with t.
    simpl. rewrite Hne. reflexivity.
  - change (ClassList.serialize (t :: t' :: r'))
      with (String.append t (String " " (ClassList.serialize (t' :: r')))).
    rewrite splitTokens_token by exact Hws.
    change (String.append "" t) with t.
    change (ClassList.splitTokens t (String " " (ClassList.serialize (t' :: r'))))
      with (if String.eqb t ""
            then ClassList.splitTokens "" (ClassList.serialize (t' :: r'))
            else t :: ClassList.splitTokens "" (ClassList.serialize (t' :: r'))).
    rewrite Hne, (IH Hr). reflexivity.
Qed.

Lemma existsb_eqb_false t (l : list string) :
  t ∉ l -> existsb (String.eqb t) l = false.
Proof.
  induction l as [|a r IH]; simpl; intros H; [reflexivity|].
  apply not_elem_of_cons in H as [Hne Hr]. apply String.eqb_neq in Hne.
  rewrite Hne, (IH Hr). reflexivity.
Qed.

Lemma existsb_eqb_true t (l : list string) :
  existsb (String.eqb t) l = true <-> t ∈ l.
Proof.
  induction l as [|a r IH]; simpl.
  - split; [discriminate|]. intros H. apply elem_of_nil in H. contradiction.
  - rewrite orb_true_iff, IH, elem_of_cons, String.eqb_eq. reflexivity.
Qed.

Lemma dedupe_nodup l :
  forall seen,
    NoDup l -> (forall t, t ∈ l -> t ∉ seen) -> ClassList.dedupe seen l = l.
Proof.
  induction l as [|t r IH]; intros seen Hnd Hseen; simpl; [reflexivity|].
  apply NoDup_cons in Hnd as [Ht Hr].
  rewrite existsb_eqb_false by (apply Hseen; apply list_elem_of_here).
  f_equal. apply IH; [exact Hr|].
  intros u Hu Hc. apply elem_of_cons in Hc as [->|Hc]; [contradiction|].
  apply (Hseen u); [apply list_elem_of_further; exact Hu|exact Hc].
Qed.

Lemma tokensOf_serialize l :
  Forall (fun t => ClassList.validToken t = true) l ->
  NoDup l ->
  ClassList.tokensOf (ClassList.serialize l) = l.
Proof.
  intros Hv Hnd. unfold ClassList.tokensOf. rewrite splitTokens_serialize by exact Hv.
  apply dedupe_nodup; [exact Hnd|]. intros t _. apply not_elem_of_nil.
Qed.

Lemma noWhitespace_snoc cur a :
  ClassList.noWhitespace cur = true -> ClassList.isAsciiWhitespace a = false ->
  ClassList.noWhitespace (String.append cur (String a "")) = true.
Proof.
  unfold ClassList.noWhitespace. induction cur as [|c r IH]; intros Hc Ha.
  - simpl. rewrite Ha. reflexivity.
  - rewrite append_cons. simpl in *.
    apply andb_true_iff in Hc as [H1 H2]. rewrite H1. simpl. apply IH; assumption.
Qed.

(** Every token that comes out of the splitting may stand in a class
    list. *)
Lemma splitTokens_valid s :
  forall cur,
    ClassList.noWhitespace cur = true ->
    Forall (fun t => ClassList.validToken t = true) (ClassList.splitTokens cur s).
Proof.
  induction s as [|a r IH]; intros cur Hcur; simpl.
  - destruct (String.eqb cur "") eqn:He; [constructor|].
    apply Forall_cons. split; [|constructor].
    unfold ClassList.validToken. rewrite He. exact Hcur.
  - destruct (ClassList.isAsciiWhitespace a) eqn:Ha.
    + destruct (String.eqb cur "") eqn:He; [apply IH; reflexivity|].
      apply Forall_cons. split; [|apply IH; reflexivity].
      unfold ClassList.validToken. rewrite He. exact Hcur.
    + apply IH. apply noWhitespace_snoc; assumption.
Qed.

Lemma dedupe_sound l :
  forall seen,
    NoDup (ClassList.dedupe seen l)
    /\ (forall t, t ∈ ClassList.dedupe seen l <-> t ∈ l /\ t ∉ seen).
Proof.
  induction l as [|t r IH]; intros seen; simpl.
  - split; [constructor|]. intros u. split; [intros H|intros [H _]];
      apply elem_of_nil in H; contradiction.
  - destruct (existsb (String.eqb t) seen) eqn:He.
    + destruct (IH seen) as [Hnd Hin]. split; [exact Hnd|].
      apply existsb_eqb_true in He. intros u. rewrite Hin, elem_of_cons.
      split; [tauto|]. intros [[->|Hu] Hns]; [contradiction|tauto].
    + destruct (IH (t :: seen)) as [Hnd Hin].
      assert (Hts : t ∉ seen).
      { intros Hc. apply existsb_eqb_true in Hc. congruence. }
      split.
      * apply NoDup_cons. split; [|exact Hnd].
        intros Hc. apply Hin in Hc as [_ Hc]. apply Hc. apply list_elem_of_here.
      * intros u. rewrite !elem_of_cons, Hin, not_elem_of_cons.
        split.
        -- intros [->|[Hu [Hne Hns]]]; [tauto|tauto].
        -- intros [[->|Hu] Hns]; [tauto|].
           destruct (decide (u = t)) as [->|Hne]; [tauto|tauto].
Qed.

Lemma tokensOf_valid value :
  Forall (fun t => ClassList.validToken t = true) (ClassList.tokensOf value)
  /\ NoDup (ClassList.tokensOf value).
Proof.
  unfold ClassList.tokensOf.
  destruct (dedupe_sound (ClassList.splitTokens "" value) []) as [Hnd Hin].
  split; [|exact Hnd]. apply Forall_forall. intros t Ht. apply Hin in Ht as [Ht _].
  pose proof (splitTokens_valid value "" eq_refl) as Hv.
  rewrite Forall_forall in Hv. apply Hv. exact Ht.
Qed.

Lemma classTokens_valid e :
  Forall (fun t => ClassList.validToken t = true) (ClassList.classTokens e)
  /\ NoDup (ClassList.classTokens e).
Proof.
  unfold ClassList.classTokens. destruct (getAttribute "class" (attrs e)).
  - apply tokensOf_valid.
  - split; constructor.
Qed.

(** The update steps store a token set that reads back as it is, and
    touch no attribute but [class]. *)
Lemma setClassTokens_tokens l e :
  Forall (fun t => ClassList.validToken t = true) l ->
  NoDup l ->
  ClassList.classTokens (ClassList.setClassTokens l e) = l.
Proof.
  intros Hv Hnd. unfold ClassList.setClassTokens.
  destruct (getAttribute "class" (attrs e)) as [v|] eqn:Hc.
  - unfold ClassList.classTokens. cbn [attrs withAttrs].
    rewrite getAttribute_setAttribute. apply tokensOf_serialize; assumption.
  - destruct l as [|t r].
    + unfold ClassList.classTokens. rewrite Hc. reflexivity.
    + unfold ClassList.classTokens. cbn [attrs withAttrs].
      rewrite getAttribute_setAttribute. apply tokensOf_serialize; assumption.
Qed.

Lemma setClassTokens_other l e :
  nid (ClassList.setClassTokens l e) = nid e
  /\ tag (ClassList.setClassTokens l e) = tag e
  /\ forall name, name <> "class" ->
       getAttribute name (attrs (ClassList.setClassTokens l e))
       = getAttribute name (attrs e).
Proof.
  unfold ClassList.setClassTokens.
  destruct (getAttribute "class" (attrs e)); [|destruct l];
    repeat split; try reflexivity; intros name Hne; cbn [attrs withAttrs];
    apply getAttribute_setAttribute_other; congruence.
Qed.

Lemma contains_add token t e :
  ClassList.validToken token = true ->
  ClassList.contains t (ClassList.add token e)
  = ClassList.contains t e || String.eqb t token.
Proof.
  intros Hv. destruct (classTokens_valid e) as [Hval Hnd].
  unfold ClassList.contains, ClassList.add.
  destruct (existsb (String.eqb token) (ClassList.classTokens e)) eqn:Hin.
  - rewrite setClassTokens_tokens by assumption.
    destruct (String.eqb_spec t token) as [->|_]; [rewrite Hin; reflexivity|].
    rewrite orb_false_r. reflexivity.
  - assert (Hnot : token ∉ ClassList.classTokens e).
    { intros Hc. apply existsb_eqb_true in Hc. congruence. }
    rewrite setClassTokens_tokens.
    + rewrite existsb_app. simpl. rewrite orb_false_r. reflexivity.
    + apply Forall_app. split; [exact Hval|]. apply Forall_cons. split; [exact Hv|constructor].
    + apply NoDup_app. split; [exact Hnd|]. split; [|apply NoDup_singleton].
      intros u Hu Hu'. apply list_elem_of_singleton in Hu'. subst u. contradiction.
Qed.

Lemma existsb_filter_ne token t (l : list string) :
  existsb (String.eqb t) (List.filter (fun u => negb (String.eqb token u)) l)
  = existsb (String.eqb t) l && negb (String.eqb t token).
Proof.
  induction l as [|a r IH]; simpl; [reflexivity|].
  destruct (String.eqb_spec token a) as [<-|Hne]; simpl.
  - rewrite IH. destruct (String.eqb_spec t token) as [->|_]; simpl.
    + rewrite andb_false_r. reflexivity.
    + reflexivity.
  - rewrite IH. destruct (String.eqb_spec t a) as [->|_]; simpl; [|reflexivity].
    destruct (String.eqb_spec a token) as [->|_]; [contradiction|reflexivity].
Qed.

Lemma contains_remove token t e :
  ClassList.contains t (ClassList.remove token e)
  = ClassList.contains t e && negb (String.eqb t token).
Proof.
  destruct (classTokens_valid e) as [Hval Hnd].
  unfold ClassList.contains, ClassList.remove.
  rewrite setClassTokens_tokens.
  - apply existsb_filter_ne.
  - apply Forall_forall. intros u Hu. apply list_elem_of_In, List.filter_In in Hu as [Hu _].
    rewrite Forall_forall in Hval. apply Hval. apply list_elem_of_In. exact Hu.
  - apply NoDup_filter_list. exact Hnd.
Qed.

(** ** The body of the page *)

Lemma updateN_elts i g :
  (forall n, elts (updateN i g n)
             = map (fun e => if Nat.eqb (nid e) i then g e else e) (elts n))
  /\ (forall f, eltsF (map (updateN i g) f)
                = map (fun e => if Nat.eqb (nid e) i then g e else e) (eltsF f)).
Proof.
  apply node_forest_both.
  - intros e ks IH. cbn [updateN]. rewrite !elts_eq. cbn [map]. f_equal. exact IH.
  - reflexivity.
  - intros k r IHk IHr. cbn [map]. rewrite !eltsF_cons, map_app, IHk, IHr. reflexivity.
Qed.

Lemma mapElems_elts g :
  (forall n, elts (Print.mapElems g n) = map g (elts n))
  /\ (forall f, eltsF (map (Print.mapElems g) f) = map g (eltsF f)).
Proof.
  apply node_forest_both.
  - intros e ks IH. cbn [Print.mapElems]. rewrite !elts_eq. cbn [map]. f_equal. exact IH.
  - reflexivity.
  - intros k r IHk IHr. cbn [map]. rewrite !eltsF_cons, map_app, IHk, IHr. reflexivity.
Qed.

Lemma find_map_keep {A} (f : A -> A) (p : A -> bool) l :
  (forall a, p (f a) = p a) -> List.find p (map f l) = option_map f (List.find p l).
Proof.
  intros H. induction l as [|a r IH]; simpl; [reflexivity|].
  rewrite H. destruct (p a); [reflexivity|exact IH].
Qed.

Lemma nodeElem_updateN i g n :
  nodeElem (updateN i g n)
  = if Nat.eqb (nid (nodeElem n)) i then g (nodeElem n) else nodeElem n.
Proof. destruct n as [e ks]. reflexivity. Qed.

Lemma nodeElem_mapElems g n : nodeElem (Print.mapElems g n) = g (nodeElem n).
Proof. destruct n as [e ks]. reflexivity. Qed.

Lemma docBody_updateN i g d :
  (forall e, tag (g e) = tag e) ->
  docBody (updateN i g d) = option_map (updateN i g) (docBody d).
Proof.
  intros Htag. destruct d as [e ks]. unfold docBody. cbn [updateN nodeKids].
  apply find_map_keep. intros k. unfold isBody. rewrite nodeElem_updateN.
  destruct (Nat.eqb (nid (nodeElem k)) i); [rewrite Htag|]; reflexivity.
Qed.

Lemma docBody_mapElems g d :
  (forall e, tag (g e) = tag e) ->
  docBody (Print.mapElems g d) = option_map (Print.mapElems g) (docBody d).
Proof.
  intros Htag. destruct d as [e ks]. unfold docBody. cbn [Print.mapElems nodeKids].
  apply find_map_keep. intros k. unfold isBody. rewrite nodeElem_mapElems, Htag.
  reflexivity.
Qed.

(** An operation on the body that keeps its tag: the body of the new
    document is the old one after the operation. *)
Lemma onBody_body g d b :
  (forall e, tag (g e) = tag e) ->
  docBody d = Some b ->
  exists d' b',
    Theme.onBody g d = Some d'
    /\ docBody d' = Some b'
    /\ nodeElem b' = g (nodeElem b)
    /\ elts d' = map (fun e => if Nat.eqb (nid e) (nid (nodeElem b)) then g e else e) (elts d).
Proof.
  intros Htag Hb. unfold Theme.onBody. rewrite Hb.
  exists (updateN (nid (nodeElem b)) g d), (updateN (nid (nodeElem b)) g b).
  split; [reflexivity|]. split; [rewrite docBody_updateN, Hb by exact Htag; reflexivity|].
  split; [rewrite nodeElem_updateN, Nat.eqb_refl; reflexivity|].
  apply (proj1 (updateN_elts _ _)).
Qed.

Lemma toggle_keeps token force e :
  nid (ClassList.toggle token force e) = nid e
  /\ tag (ClassList.toggle token force e) = tag e
  /\ forall name, name <> "class" ->
       getAttribute name (attrs (ClassList.toggle token force e))
       = getAttribute name (attrs e).
Proof.
  unfold ClassList.toggle, ClassList.add, ClassList.remove.
  destruct (ClassList.contains token e), force as [[|]|];
    first [apply setClassTokens_other | repeat split; reflexivity].
Qed.

Lemma contains_toggle token t e :
  ClassList.validToken token = true ->
  ClassList.contains t (ClassList.toggle token None e)
  = if String.eqb t token then negb (ClassList.contains token e) else ClassList.contains t e.
Proof.
  intros Hv. unfold ClassList.toggle.
  destruct (ClassList.contains token e) eqn:Hc.
  - rewrite contains_remove. destruct (String.eqb_spec t token) as [->|_].
    + rewrite andb_false_r. reflexivity.
    + apply andb_true_r.
  - rewrite contains_add by exact Hv. destruct (String.eqb_spec t token) as [->|_].
    + rewrite Hc. reflexivity.
    + apply orb_false_r.
Qed.

(** ** The theme switch *)

Import Theme.

Lemma toggleTheme_run s b :
  docBody (doc (t_world s)) = Some b ->
  let dark := ClassList.contains "dark-theme" (nodeElem b) in
  let theme := if dark then "light" else "dark" in
  exists d1 b1,
    toggleTheme s
    = (mkThemeState (setDoc d1 (t_world s)) (<["theme" := theme]> (localStorage s))
         (themeEvents s ++ [theme]), Ok tt)
    /\ docBody d1 = Some b1
    /\ nodeElem b1 = ClassList.toggle "dark-theme" None (nodeElem b)
    /\ map nid (elts d1) = map nid (elts (doc (t_world s))).
Proof.
  intros Hb dark theme.
  destruct (onBody_body (ClassList.toggle "dark-theme" None) _ b
              (fun e => proj1 (proj2 (toggle_keeps "dark-theme" None e))) Hb)
    as (d1 & b1 & Hon & Hb1 & He1 & Helts).
  exists d1, b1. split; [|split; [exact Hb1|split; [exact He1|]]].
  - unfold toggleTheme. rewrite Hon. unfold bodyContains. rewrite Hb1, He1.
    rewrite contains_toggle by reflexivity. cbn [String.eqb Ascii.eqb Bool.eqb].
    fold dark. cbn [t_world localStorage themeEvents]. unfold theme.
    destruct dark; reflexivity.
  - rewrite Helts, map_map. apply map_ext. intros e.
    destruct (Nat.eqb (nid e) (nid (nodeElem b))); [|reflexivity].
    apply toggle_keeps.
Qed.

(** X13. [toggleTheme] on a page with a body: the body carries the
    class [dark-theme] afterwards exactly when it did not before, the
    item [theme] of [localStorage] and the [themechange] event name the
    theme the body now shows, and the other classes of the body stay. A
    second call undoes the first: every class is on the body exactly
    when it was at the start, and the stored theme is the one shown
    then. No element is added or removed. *)
Theorem toggleTheme_agrees_and_undoes s b :
  docBody (doc (t_world s)) = Some b ->
  let dark := ClassList.contains "dark-theme" (nodeElem b) in
  exists s1 s2,
    toggleTheme s = (s1, Ok tt)
    /\ bodyContains "dark-theme" (doc (t_world s1)) = Some (negb dark)
    /\ (forall t, t <> "dark-theme" ->
          bodyContains t (doc (t_world s1)) = Some (ClassList.contains t (nodeElem b)))
    /\ localStorage s1 !! "theme" = Some (if dark then "light" else "dark")
    /\ themeEvents s1 = themeEvents s ++ [if dark then "light" else "dark"]
    /\ toggleTheme s1 = (s2, Ok tt)
    /\ (forall t,
          bodyContains t (doc (t_world s2)) = Some (ClassList.contains t (nodeElem b)))
    /\ localStorage s2 !! "theme" = Some (if dark then "dark" else "light")
    /\ map nid (elts (doc (t_world s2))) = map nid (elts (doc (t_world s))).
Proof.
  intros Hb dark.
  destruct (toggleTheme_run s b Hb) as (d1 & b1 & Hrun1 & Hb1 & He1 & Hids1).
  cbv zeta in Hrun1. fold dark in Hrun1.
  set (s1 := mkThemeState (setDoc d1 (t_world s))
               (<["theme" := if dark then "light" else "dark"]> (localStorage s))
               (themeEvents s ++ [if dark then "light" else "dark"])) in *.
  assert (Hc1 : forall t,
             ClassList.contains t (nodeElem b1)
             = if String.eqb t "dark-theme" then negb dark
               else ClassList.contains t (nodeElem b)).
  { intros t. rewrite He1. apply contains_toggle. reflexivity. }
  destruct (toggleTheme_run s1 b1 Hb1) as (d2 & b2 & Hrun2 & Hb2 & He2 & Hids2).
  cbv zeta in Hrun2. rewrite (Hc1 "dark-theme") in Hrun2.
  cbn [String.eqb Ascii.eqb Bool.eqb] in Hrun2.
  eexists s1, _. split; [exact Hrun1|].
  split; [unfold bodyContains; cbn [s1 t_world doc setDoc]; rewrite Hb1, Hc1; reflexivity|].
  split.
  { intros t Ht. unfold bodyContains. cbn [s1 t_world doc setDoc]. rewrite Hb1, Hc1.
    apply String.eqb_neq in Ht. rewrite Ht. reflexivity. }
  split; [apply lookup_insert_eq|]. split; [reflexivity|]. split; [exact Hrun2|].
  split.
  { intros t. unfold bodyContains. cbn [t_world doc setDoc]. rewrite Hb2, He2.
    rewrite contains_toggle by reflexivity. rewrite !Hc1.
    cbn [String.eqb Ascii.eqb Bool.eqb].
    destruct (String.eqb_spec t "dark-theme") as [->|_]; [|reflexivity].
    fold dark. rewrite negb_involutive. reflexivity. }
  split.
  { cbn [localStorage]. rewrite lookup_insert_eq. destruct dark; reflexivity. }
  cbn [t_world doc setDoc]. rewrite Hids2. cbn [s1 t_world doc setDoc]. exact Hids1.
Qed.

Lemma toggleTheme_agrees_and_undoes_witness :
  exists s1 s2,
    toggleTheme Site.themeState = (s1, Ok tt)
    /\ localStorage s1 !! "theme" = Some "dark"
    /\ toggleTheme s1 = (s2, Ok tt)
    /\ bodyContains "wide" (doc (t_world s2)) = Some true
    /\ bodyContains "dark-theme" (doc (t_world s2)) = Some false.
Proof.
  destruct (toggleTheme_agrees_and_undoes Site.themeState Site.themeBody eq_refl)
    as (s1 & s2 & H1 & _ & _ & H4 & _ & H6 & H7 & _).
  exists s1, s2. split; [exact H1|]. split; [exact H4|]. split; [exact H6|].
  split; [exact (H7 "wide")|exact (H7 "dark-theme")].
Defined.

Lemma contains_add_keeps token e :
  nid (ClassList.add token e) = nid e
  /\ tag (ClassList.add token e) = tag e
  /\ forall name, name <> "class" ->
       getAttribute name (attrs (ClassList.add token e)) = getAttribute name (attrs e).
Proof. unfold ClassList.add. apply setClassTokens_other. Qed.

Lemma contains_remove_keeps token e :
  nid (ClassList.remove token e) = nid e
  /\ tag (ClassList.remove token e) = tag e
  /\ forall name, name <> "class" ->
       getAttribute name (attrs (ClassList.remove token e)) = getAttribute name (attrs e).
Proof. unfold ClassList.remove. apply setClassTokens_other. Qed.

(** X14. The stored theme has precedence over the system's. After
    [initializeTheme] the body of the page carries [dark-theme] when it
    did before, when the stored theme is [dark], or when nothing is
    stored and the system prefers dark; the store is not written. With a
    theme stored, a change of the system's preference changes nothing;
    this is so after every successful [toggleTheme]. *)
Theorem stored_theme_has_precedence s :
  (forall b prefersDark,
     docBody (doc (t_world s)) = Some b ->
     exists s1,
       initializeTheme prefersDark s = (s1, Ok tt)
       /\ localStorage s1 = localStorage s
       /\ bodyContains "dark-theme" (doc (t_world s1))
          = Some (ClassList.contains "dark-theme" (nodeElem b)
                  || match localStorage s !! "theme" with
                     | Some v => String.eqb v "dark"
                     | None => false
                     end
                  || (noSavedTheme s && prefersDark)))
  /\ (forall v matches,
        localStorage s !! "theme" = Some v -> v <> "" ->
        onSchemeChange matches s = (s, Ok tt))
  /\ (forall s1 matches,
        toggleTheme s = (s1, Ok tt) -> onSchemeChange matches s1 = (s1, Ok tt)).
Proof.
  split; [|split].
  - intros b prefersDark Hb. unfold initializeTheme.
    destruct (match localStorage s !! "theme" with
              | Some v => String.eqb v "dark"
              | None => false
              end || noSavedTheme s && prefersDark) eqn:Hcond.
    + destruct (onBody_body (ClassList.add "dark-theme") _ b
                  (fun e => proj1 (proj2 (contains_add_keeps "dark-theme" e))) Hb)
        as (d1 & b1 & Hon & Hb1 & He1 & _).
      rewrite Hon. eexists. split; [reflexivity|]. split; [reflexivity|].
      unfold bodyContains. cbn [t_world doc setDoc]. rewrite Hb1, He1.
      rewrite contains_add by reflexivity. cbn [String.eqb Ascii.eqb Bool.eqb].
      rewrite orb_true_r. rewrite <- orb_assoc, Hcond, orb_true_r. reflexivity.
    + exists s. split; [reflexivity|]. split; [reflexivity|].
      unfold bodyContains. rewrite Hb. rewrite <- orb_assoc, Hcond, orb_false_r.
      reflexivity.
  - intros v matches Hv Hne. unfold onSchemeChange, noSavedTheme. rewrite Hv.
    apply String.eqb_neq in Hne. rewrite Hne. reflexivity.
  - intros s1 matches. unfold toggleTheme.
    destruct (onBody _ _) as [d1|]; [|discriminate].
    destruct (bodyContains _ d1) as [isDark|]; [|discriminate].
    intros [= <-]. unfold onSchemeChange, noSavedTheme. cbn [localStorage].
    rewrite lookup_insert_eq. destruct isDark; reflexivity.
Qed.

(** ** Printing *)

Import Print.

Lemma getAttribute_removeAttribute name l : getAttribute name (removeAttribute name l) = None.
Proof.
  unfold removeAttribute. induction l as [|[n v] r IH]; simpl; [reflexivity|].
  destruct (String.eqb_spec n name) as [->|Hne]; simpl; [exact IH|].
  apply String.eqb_neq in Hne. rewrite Hne. exact IH.
Qed.

Lemma getAttribute_removeAttribute_other name m l :
  m <> name -> getAttribute name (removeAttribute m l) = getAttribute name l.
Proof.
  intros Hne. unfold removeAttribute. induction l as [|[n v] r IH]; simpl; [reflexivity|].
  destruct (String.eqb_spec n m) as [->|Hnm]; simpl.
  - apply String.eqb_neq in Hne. rewrite Hne. exact IH.
  - destruct (String.eqb n name); [reflexivity|exact IH].
Qed.

Lemma docBody_isBody d b : docBody d = Some b -> isDetails (nodeElem b) = false.
Proof.
  unfold docBody. intros H. apply find_mem in H as [_ H]. unfold isBody in H.
  unfold isDetails. apply orb_true_iff in H as [H|H]; apply String.eqb_eq in H;
    rewrite H; reflexivity.
Qed.

Lemma openForPrint_keeps e :
  nid (openForPrint e) = nid e /\ tag (openForPrint e) = tag e
  /\ (isDetails e = true ->
      getAttribute "open" (attrs (openForPrint e)) = Some ""
      /\ hasAttribute wasOpenAttr (attrs (openForPrint e)) = true)
  /\ (isDetails e = false -> openForPrint e = e).
Proof.
  unfold openForPrint. destruct (isDetails e); cbn [nid tag attrs withAttrs].
  - split; [reflexivity|]. split; [reflexivity|]. split; [|discriminate]. intros _.
    unfold hasAttribute. rewrite getAttribute_setAttribute.
    rewrite getAttribute_setAttribute_other by (unfold wasOpenAttr; discriminate).
    rewrite getAttribute_setAttribute. split; reflexivity.
  - split; [reflexivity|]. split; [reflexivity|]. split; [discriminate|reflexivity].
Qed.

Lemma closeAfterPrint_keeps e :
  nid (closeAfterPrint e) = nid e /\ tag (closeAfterPrint e) = tag e
  /\ (isDetails e = true -> hasAttribute wasOpenAttr (attrs e) = true ->
      getAttribute "open" (attrs (closeAfterPrint e)) = None
      /\ getAttribute wasOpenAttr (attrs (closeAfterPrint e)) = None)
  /\ (isDetails e = false -> closeAfterPrint e = e).
Proof.
  unfold closeAfterPrint. destruct (isDetails e); simpl.
  - destruct (hasAttribute wasOpenAttr (attrs e)); cbn [nid tag attrs withAttrs].
    + split; [reflexivity|]. split; [reflexivity|]. split; [|discriminate]. intros _ _.
      rewrite getAttribute_removeAttribute.
      rewrite getAttribute_removeAttribute_other by (unfold wasOpenAttr; discriminate).
      rewrite getAttribute_removeAttribute. split; reflexivity.
    + split; [reflexivity|]. split; [reflexivity|]. split; [discriminate|discriminate].
  - split; [reflexivity|]. split; [reflexivity|]. split; [discriminate|reflexivity].
Qed.



(** ** Keyboard navigation *)

Import Keys.

Lemma findIndex_bounds {A} (p : A -> bool) l :
  (-1 <= findIndex p l < Z.of_nat (length l))%Z.
Proof.
  induction l as [|a r IH]; simpl; [lia|].
  destruct (p a); [lia|].
  destruct (Z.ltb_spec (findIndex p r) 0); lia.
Qed.

Lemma findIndex_none {A} (p : A -> bool) l :
  (forall a, a ∈ l -> p a = false) -> findIndex p l = (-1)%Z.
Proof.
  induction l as [|a r IH]; intros H; simpl; [reflexivity|].
  rewrite (H a (list_elem_of_here _ _)).
  rewrite IH by (intros b Hb; apply H; apply list_elem_of_further; exact Hb).
  reflexivity.
Qed.

Lemma at_in_range {A} (l : list A) i :
  (0 <= i < Z.of_nat (length l))%Z -> exists a, at_ l i = Some a /\ a ∈ l.
Proof.
  intros H. unfold at_. destruct (Z.ltb_spec i 0); [lia|].
  destruct (nth_error l (Z.to_nat i)) as [a|] eqn:Hn.
  - exists a. split; [reflexivity|]. apply list_elem_of_In. eapply nth_error_In. exact Hn.
  - apply nth_error_None in Hn. lia.
Qed.

(** X16. Alt with an arrow key never leaves the list of links of the
    navigation bar: the listener never indexes the list out of range (it
    never calls [click] on [undefined]), and the link it clicks is one of
    the list. When no link of the list is the current one, Alt with the
    right arrow goes to the first link of the list and Alt with the left
    arrow does nothing. *)
Theorem arrow_keys_stay_in_the_list E ev w :
  arrowTarget E ev w <> Some None
  /\ (forall link, arrowTarget E ev w = Some (Some link) -> link ∈ navbarLinks w)
  /\ ((forall l, l ∈ navbarLinks w -> isCurrentLink E w l = false) ->
      arrowTarget E (mkKeyEvent "ArrowRight" true false false) w
      = match navbarLinks w with
        | [] => None
        | first :: _ => Some (Some first)
        end
      /\ arrowTarget E (mkKeyEvent "ArrowLeft" true false false) w = None).
Proof.
  assert (Hcases : arrowTarget E ev w = None
                   \/ exists link, arrowTarget E ev w = Some (Some link)
                                   /\ link ∈ navbarLinks w).
  { unfold arrowTarget.
    destruct (k_altKey ev && negb (k_ctrlKey ev) && negb (k_shiftKey ev)); [|left; reflexivity].
    cbv zeta.
    pose proof (findIndex_bounds (isCurrentLink E w) (navbarLinks w)) as Hb.
    destruct (String.eqb (k_key ev) "ArrowLeft"
              && Z.ltb 0 (findIndex (isCurrentLink E w) (navbarLinks w))) eqn:Hl.
    - apply andb_true_iff in Hl as [_ Hl]. apply Z.ltb_lt in Hl.
      destruct (at_in_range (navbarLinks w)
                  (findIndex (isCurrentLink E w) (navbarLinks w) - 1)) as (a & Ha & Hin);
        [lia|].
      right. exists a. rewrite Ha. split; [reflexivity|exact Hin].
    - destruct (String.eqb (k_key ev) "ArrowRight"
                && Z.ltb (findIndex (isCurrentLink E w) (navbarLinks w))
                     (Z.of_nat (length (navbarLinks w)) - 1)) eqn:Hr; [|left; reflexivity].
      apply andb_true_iff in Hr as [_ Hr]. apply Z.ltb_lt in Hr.
      destruct (at_in_range (navbarLinks w)
                  (findIndex (isCurrentLink E w) (navbarLinks w) + 1)) as (a & Ha & Hin);
        [lia|].
      right. exists a. rewrite Ha. split; [reflexivity|exact Hin]. }
  split; [|split].
  - destruct Hcases as [H|(link & H & _)]; rewrite H; discriminate.
  - intros link Hl. destruct Hcases as [H|(link' & H & Hin)]; rewrite H in Hl;
      [discriminate|]. injection Hl as <-. exact Hin.
  - intros Hnone. unfold arrowTarget. cbn [k_altKey k_ctrlKey k_shiftKey k_key andb negb].
    rewrite (findIndex_none _ _ Hnone).
    change (String.eqb "ArrowRight" "ArrowLeft") with false.
    change (String.eqb "ArrowRight" "ArrowRight") with true.
    change (String.eqb "ArrowLeft" "ArrowLeft") with true.
    cbn [andb]. change (0 <? -1)%Z with false. cbn iota.
    split; [|reflexivity].
    destruct (navbarLinks w) as [|first rest]; [reflexivity|].
    replace (-1 <? Z.of_nat (length (first :: rest)) - 1)%Z with true
      by (symmetry; apply Z.ltb_lt; simpl length; lia).
    reflexivity.
Qed.

(** ** The content type of a response *)

Lemma list_ascii_app (s t : string) :
  list_ascii_of_string (String.append s t) = list_ascii_of_string s ++ list_ascii_of_string t.
Proof.
  induction s as [|a r IH]; [reflexivity|]. rewrite append_cons. simpl. rewrite IH.
  reflexivity.
Qed.

Lemma string_of_list_app (l k : list ascii) :
  string_of_list_ascii (l ++ k)
  = String.append (string_of_list_ascii l) (string_of_list_ascii k).
Proof.
  induction l as [|a r IH]; [reflexivity|]. simpl. rewrite IH, append_cons. reflexivity.
Qed.

Lemma revString_app (s t : string) :
  revString (String.append s t) = String.append (revString t) (revString s).
Proof.
  unfold revString. rewrite list_ascii_app, rev_app_distr, string_of_list_app. reflexivity.
Qed.

Lemma revString_involutive s : revString (revString s) = s.
Proof.
  unfold revString. rewrite list_ascii_of_string_of_list_ascii, rev_involutive.
  apply string_of_list_ascii_of_string.
Qed.

Lemma trimStart_blank ws x :
  forallb isWhiteSpace (list_ascii_of_string ws) = true ->
  trimStart (String.append ws x) = trimStart x.
Proof.
  induction ws as [|a r IH]; intros H; [reflexivity|].
  simpl in H. apply andb_true_iff in H as [Ha Hr].
  rewrite append_cons. cbn [trimStart]. rewrite Ha. apply IH. exact Hr.
Qed.

Lemma trimStart_all_blank x :
  forallb isWhiteSpace (list_ascii_of_string x) = true <-> trimStart x = "".
Proof.
  induction x as [|a r IH]; simpl; [tauto|].
  destruct (isWhiteSpace a); simpl; [exact IH|]. split; discriminate.
Qed.

Lemma trimStart_app x y :
  trimStart x <> "" -> trimStart (String.append x y) = String.append (trimStart x) y.
Proof.
  induction x as [|a r IH]; intros H; [contradiction|].
  rewrite append_cons. cbn [trimStart] in *.
  destruct (isWhiteSpace a); [apply IH; exact H|]. rewrite append_cons. reflexivity.
Qed.

Lemma blank_rev ws :
  forallb isWhiteSpace (list_ascii_of_string ws) = true ->
  forallb isWhiteSpace (list_ascii_of_string (revString ws)) = true.
Proof.
  unfold revString. rewrite list_ascii_of_string_of_list_ascii.
  rewrite !forallb_forall. intros H a Ha. apply H. apply in_rev. exact Ha.
Qed.

Lemma trimEnd_blank x ws :
  forallb isWhiteSpace (list_ascii_of_string ws) = true ->
  trimEnd (String.append x ws) = trimEnd x.
Proof.
  intros H. unfold trimEnd. rewrite revString_app, trimStart_blank; [reflexivity|].
  apply blank_rev. exact H.
Qed.

(** White space around a string does not count for [trim]. *)
Lemma trim_blank ws1 m ws2 :
  forallb isWhiteSpace (list_ascii_of_string ws1) = true ->
  forallb isWhiteSpace (list_ascii_of_string ws2) = true ->
  trim (String.append ws1 (String.append m ws2)) = trim m.
Proof.
  intros H1 H2. unfold trim. rewrite trimStart_blank by exact H1.
  destruct (String.eqb_spec (trimStart m) "") as [He|Hne].
  - rewrite He. apply trimStart_all_blank in He.
    assert (Hall : forallb isWhiteSpace (list_ascii_of_string (String.append m ws2)) = true).
    { rewrite list_ascii_app, forallb_app, He, H2. reflexivity. }
    apply trimStart_all_blank in Hall. rewrite Hall. reflexivity.
  - rewrite trimStart_app by exact Hne. apply trimEnd_blank. exact H2.
Qed.

Lemma beforeChar_stop c h p :
  forallb (fun a => negb (Ascii.eqb a c)) (list_ascii_of_string h) = true ->
  beforeChar c (String.append h (String c p)) = h /\ beforeChar c h = h.
Proof.
  induction h as [|a r IH]; intros H.
  - simpl. rewrite Ascii.eqb_refl. split; reflexivity.
  - simpl in H. apply andb_true_iff in H as [Ha Hr]. apply negb_true_iff in Ha.
    rewrite append_cons. cbn [beforeChar]. rewrite Ha.
    destruct (IH Hr) as [I1 I2]. rewrite I1, I2. split; reflexivity.
Qed.

(** X17. The media type [fetchPage] compares is the header up to its
    first semicolon, without the white space around it: the parameters
    of the header (a [charset], say) and blanks before and after the
    type play no part. A response whose header reads as [text/html] in
    this way and whose body can be read is returned as a page of media
    type [text/html]; one without the header is refused. *)
Theorem contentTypeOf_ignores_parameters ws1 m ws2 p :
  forallb isWhiteSpace (list_ascii_of_string ws1) = true ->
  forallb isWhiteSpace (list_ascii_of_string ws2) = true ->
  forallb (fun a => negb (Ascii.eqb a ";")) (list_ascii_of_string m) = true ->
  let padded := String.append ws1 (String.append m ws2) in
  contentTypeOf (Some (String.append padded (String ";" p))) = trim m
  /\ contentTypeOf (Some padded) = trim m
  /\ contentTypeOf None = ""
  /\ (forall E url options w response html,
        trim m = "text/html" ->
        network E url (o_formData options) = Some response ->
        r_contentType response = Some (String.append padded (String ";" p)) ->
        r_text response = Some html ->
        snd (fetchPage E url options w)
        = Ok (Some (mkPage html
                      (if r_redirected response then Some (r_url response) else None)
                      "text/html")))
  /\ (forall E url options w response,
        network E url (o_formData options) = Some response ->
        r_contentType response = None ->
        snd (fetchPage E url options w) = Ok None).
Proof.
  intros H1 H2 Hm padded.
  assert (Hsemi : forallb (fun a => negb (Ascii.eqb a ";")) (list_ascii_of_string padded)
                  = true).
  { unfold padded. rewrite !list_ascii_app, !forallb_app, Hm.
    assert (Hws : forall ws,
               forallb isWhiteSpace (list_ascii_of_string ws) = true ->
               forallb (fun a => negb (Ascii.eqb a ";")) (list_ascii_of_string ws) = true).
    { intros ws Hw. rewrite forallb_forall in *. intros a Ha. specialize (Hw a Ha).
      destruct (Ascii.eqb_spec a ";") as [->|_]; [discriminate|reflexivity]. }
    rewrite (Hws _ H1), (Hws _ H2). reflexivity. }
  destruct (beforeChar_stop ";"%char padded p Hsemi) as [B1 B2].
  assert (C1 : contentTypeOf (Some (String.append padded (String ";" p))) = trim m).
  { unfold contentTypeOf. rewrite B1. apply trim_blank; assumption. }
  split; [exact C1|]. split.
  { unfold contentTypeOf. rewrite B2. apply trim_blank; assumption. }
  split; [reflexivity|]. split.
  - intros E url options w response html Ht Hnet Hct Htext.
    unfold fetchPage, bind, effect, modify. simpl. rewrite Hnet, Hct, C1, Ht, Htext.
    reflexivity.
  - intros E url options w response Hnet Hct.
    unfold fetchPage, bind, effect, modify. simpl. rewrite Hnet, Hct. reflexivity.
Qed.

Lemma contentTypeOf_ignores_parameters_witness :
  contentTypeOf (Some " text/html ;charset=utf-8") = "text/html".
Proof.
  destruct (contentTypeOf_ignores_parameters " " "text/html" " " "charset=utf-8"
              eq_refl eq_refl eq_refl) as [H _].
  exact H.
Defined.

(** ** Each script is run once *)

Import Scripts.

Lemma leaves_eq e ks :
  scriptsAreLeaves (Node e ks)
  = (negb (selScript e) || match ks with [] => true | _ :: _ => false end)
    && forallb scriptsAreLeaves ks.
Proof. reflexivity. Qed.

(** Putting leaves in the place of a node keeps the scripts leaves. *)
Lemma subst_leaves i new :
  forallb scriptsAreLeaves new = true ->
  (forall n old n',
     scriptsAreLeaves n = true -> substN i new n = Some (old, n') ->
     scriptsAreLeaves n' = true /\ scriptsAreLeaves old = true)
  /\ (forall f old f',
        forallb scriptsAreLeaves f = true -> substF i new f = Some (old, f') ->
        forallb scriptsAreLeaves f' = true /\ scriptsAreLeaves old = true).
Proof.
  intros Hnew. apply node_forest_both.
  - intros e ks IH old n' Hl. rewrite substN_eq.
    destruct (substF i new ks) as [[o ks']|] eqn:Hs; [|discriminate].
    intros [= <- <-]. rewrite leaves_eq in Hl. apply andb_true_iff in Hl as [He Hks].
    destruct (IH _ _ Hks eq_refl) as [I1 I2]. split; [|exact I2].
    rewrite leaves_eq, I1, andb_true_r.
    destruct ks as [|k r]; [discriminate Hs|].
    rewrite orb_false_r in He. rewrite He. reflexivity.
  - intros old f' _ H. discriminate H.
  - intros k r IHk IHr old f' Hl. simpl in Hl. apply andb_true_iff in Hl as [Hk Hr].
    rewrite substF_cons.
    destruct (Nat.eqb (nid (nodeElem k)) i).
    { intros [= <- <-]. split; [|exact Hk]. rewrite forallb_app, Hnew, Hr. reflexivity. }
    destruct (substN i new k) as [[o k']|] eqn:Hsk.
    { intros [= <- <-]. destruct (IHk _ _ Hk eq_refl) as [I1 I2].
      split; [|exact I2]. simpl. rewrite I1, Hr. reflexivity. }
    destruct (substF i new r) as [[o r']|] eqn:Hsr; [|discriminate].
    intros [= <- <-]. destruct (IHr _ _ Hr eq_refl) as [I1 I2].
    split; [|exact I2]. simpl. rewrite Hk, I1. reflexivity.
Qed.

(** One turn of the loop on a script of the page that is not passed
    over. *)
Lemma executeScript_step s w :
  wellFormed w -> scriptsAreLeaves (doc w) = true ->
  s ∈ elts (doc w) -> selScript s = true -> skipsScript s = false ->
  exists d',
    executeScript s w
    = (logEffect (ERunScript (nextId w)) (setDoc d' (setNextId (S (nextId w)) w)), Ok tt)
    /\ elts d' ++ [s] ≡ₚ elts (doc w) ++ [recreatedScript (nextId w) s]
    /\ scriptsAreLeaves d' = true
    /\ NoDup (map nid (elts d'))
    /\ s ∉ elts d'.
Proof.
  intros [Hnd Hlt] Hlv Hin Hscr Hsk. rewrite ids_single in Hnd, Hlt.
  rewrite Forall_forall in Hlt.
  assert (Hs : nid s < nextId w).
  { apply Hlt. apply list_elem_of_fmap. eauto. }
  rewrite (executeScript_run s w Hsk).
  destruct (substDoc_single (nid s) (Node (recreatedScript (nextId w) s) []) (doc w))
    as (old & d' & Hsub).
  { rewrite ids_single. apply list_elem_of_fmap. eauto. }
  rewrite Hsub. exists d'. split; [reflexivity|].
  destruct (substDoc_some _ _ _ _ _ Hsub) as [Hperm Hold].
  change (eltsF [Node (recreatedScript (nextId w) s) []])
    with [recreatedScript (nextId w) s] in Hperm.
  destruct (proj2 (subst_leaves (nid s) [Node (recreatedScript (nextId w) s) []] eq_refl)
              [doc w] old [d']) as [Hl' Hlo].
  { simpl. rewrite Hlv. reflexivity. }
  { apply substDoc_inv. exact Hsub. }
  simpl in Hl'. rewrite andb_true_r in Hl'.
  destruct old as [e ks]. simpl in Hold.
  assert (He : e = s).
  { assert (He : e ∈ elts (doc w) ++ [recreatedScript (nextId w) s]).
    { rewrite <- Hperm. apply elem_of_app. right. rewrite elts_eq. apply list_elem_of_here. }
    apply elem_of_app in He as [He|He].
    - apply (NoDup_nid_eq _ _ _ Hnd He Hin Hold).
    - apply list_elem_of_singleton in He. subst e. simpl in Hold. lia. }
  subst e. rewrite leaves_eq, Hscr in Hlo. simpl in Hlo.
  destruct ks as [|k r]; [|discriminate].
  change (elts (Node s [])) with [s] in Hperm.
  split; [exact Hperm|]. split; [exact Hl'|].
  assert (Hnd2 : NoDup (map nid (elts d' ++ [s]))).
  { rewrite Hperm, map_app. apply NoDup_app. split; [exact Hnd|]. split.
    - intros x Hx Hx'. apply list_elem_of_singleton in Hx'. simpl in Hx'. subst x.
      specialize (Hlt _ Hx). lia.
    - apply NoDup_singleton. }
  rewrite map_app in Hnd2. apply NoDup_app in Hnd2 as (Hnd' & Hdisj & _).
  split; [exact Hnd'|].
  intros Hc. apply (Hdisj (nid s)).
  - apply list_elem_of_fmap. eauto.
  - simpl. apply list_elem_of_here.
Qed.

Lemma pendingScripts_cons s l :
  List.filter (fun s => negb (skipsScript s)) (s :: l)
  = if skipsScript s then List.filter (fun s => negb (skipsScript s)) l
    else s :: List.filter (fun s => negb (skipsScript s)) l.
Proof. simpl. destruct (skipsScript s); reflexivity. Qed.

Lemma sublist_filter_list {A} (p : A -> bool) l : sublist (List.filter p l) l.
Proof.
  induction l as [|a r IH]; simpl; [constructor|].
  destruct (p a); [apply sublist_skip|apply sublist_cons]; exact IH.
Qed.

(** The loop over distinct elements, of which those that are not passed
    over are scripts of the page. *)
Lemma executeScripts_runs l :
  forall w,
    wellFormed w -> scriptsAreLeaves (doc w) = true -> NoDup (map nid l) ->
    (forall s, s ∈ l -> skipsScript s = false -> s ∈ elts (doc w) /\ selScript s = true) ->
    exists w',
      forEach l executeScript w = (w', Ok tt)
      /\ trace w'
         = trace w
           ++ map ERunScript
                (seq (nextId w) (length (List.filter (fun s => negb (skipsScript s)) l)))
      /\ (forall e, e ∈ elts (doc w) -> (e ∉ l) \/ skipsScript e = true -> e ∈ elts (doc w'))
      /\ (forall e, nid e < nextId w -> e ∉ elts (doc w) -> e ∉ elts (doc w'))
      /\ (forall k s,
            List.filter (fun s => negb (skipsScript s)) l !! k = Some s ->
            (s ∉ elts (doc w')) /\ recreatedScript (nextId w + k) s ∈ elts (doc w')).
Proof.
  induction l as [|s r IH]; intros w Hwf Hlv Hnd Hin.
  - exists w. simpl. rewrite app_nil_r. repeat split; auto; discriminate.
  - apply NoDup_cons in Hnd as [Hs Hnd]. rewrite pendingScripts_cons.
    cbn [forEach]. destruct (skipsScript s) eqn:Hsk.
    + rewrite (bind_ok _ _ _ _ _ (executeScript_skip s w Hsk)).
      destruct (IH w Hwf Hlv Hnd) as (w' & Hrun & Htr & Hkeep & Hgone & Hnew).
      { intros s' Hs' Hsk'. apply Hin; [apply list_elem_of_further; exact Hs'|exact Hsk']. }
      exists w'. split; [exact Hrun|]. split; [exact Htr|]. split; [|split; assumption].
      intros e He [Hne|Hse]; apply Hkeep; auto.
      left. intros Hc. apply Hne. apply list_elem_of_further. exact Hc.
    + destruct (Hin s (list_elem_of_here _ _) Hsk) as [Hsin Hscr].
      destruct (executeScript_step s w Hwf Hlv Hsin Hscr Hsk)
        as (d' & Hstep & Hperm & Hlv' & Hnd' & Hout).
      rewrite (bind_ok _ _ _ _ _ Hstep).
      set (w2 := logEffect (ERunScript (nextId w)) (setDoc d' (setNextId (S (nextId w)) w))).
      assert (Hd2 : doc w2 = d') by reflexivity.
      assert (Hn2 : nextId w2 = S (nextId w)) by reflexivity.
      assert (Ht2 : trace w2 = trace w ++ [ERunScript (nextId w)]) by reflexivity.
      pose proof Hwf as [_ Hlt]. rewrite ids_single, Forall_forall in Hlt.
      assert (Hsub : forall e, e ∈ elts d' -> e ∈ elts (doc w) \/ e = recreatedScript (nextId w) s).
      { intros e He.
        assert (He' : e ∈ elts (doc w) ++ [recreatedScript (nextId w) s]).
        { rewrite <- Hperm. apply elem_of_app. left. exact He. }
        apply elem_of_app in He' as [He'|He']; [left; exact He'|].
        right. apply list_elem_of_singleton in He'. exact He'. }
      assert (Hsup : forall e, e ∈ elts (doc w) -> e <> s -> e ∈ elts d').
      { intros e He Hne.
        assert (He' : e ∈ elts d' ++ [s]).
        { rewrite Hperm. apply elem_of_app. left. exact He. }
        apply elem_of_app in He' as [He'|He']; [exact He'|].
        apply list_elem_of_singleton in He'. contradiction. }
      assert (Hrec : recreatedScript (nextId w) s ∈ elts d').
      { assert (He' : recreatedScript (nextId w) s ∈ elts d' ++ [s]).
        { rewrite Hperm. apply elem_of_app. right. apply list_elem_of_here. }
        apply elem_of_app in He' as [He'|He']; [exact He'|].
        apply list_elem_of_singleton in He'.
        assert (Hlts : nid s < nextId w) by (apply Hlt; apply list_elem_of_fmap; eauto).
        rewrite <- He' in Hlts. simpl in Hlts. lia. }
      destruct (IH w2) as (w' & Hrun & Htr & Hkeep & Hgone & Hnew).
      { split; rewrite ids_single, Hd2; [exact Hnd'|].
        apply Forall_forall. intros i Hi. rewrite Hn2.
        apply list_elem_of_fmap in Hi as (e & -> & He).
        destruct (Hsub e He) as [He' | ->]; [|simpl; lia].
        assert (nid e < nextId w) by (apply Hlt; apply list_elem_of_fmap; eauto). lia. }
      { rewrite Hd2. exact Hlv'. }
      { exact Hnd. }
      { intros s' Hs' Hsk'.
        destruct (Hin s' (list_elem_of_further _ _ _ Hs') Hsk') as [H1 H2].
        split; [|exact H2]. rewrite Hd2. apply Hsup; [exact H1|].
        intros ->. apply Hs. apply list_elem_of_fmap. eauto. }
      exists w'. split; [exact Hrun|]. rewrite Hn2, Ht2, Hd2 in *.
      split.
      { rewrite Htr, <- app_assoc. reflexivity. }
      split.
      { intros e He Hor. apply Hkeep.
        - apply Hsup; [exact He|]. intros ->. destruct Hor as [Hne|Hse].
          + apply Hne. apply list_elem_of_here.
          + congruence.
        - destruct Hor as [Hne|Hse]; [left|right; exact Hse].
          intros Hc. apply Hne. apply list_elem_of_further. exact Hc. }
      split.
      { intros e He Hne. apply Hgone; [lia|].
        intros Hc. destruct (Hsub e Hc) as [Hc' | ->]; [contradiction|].
        simpl in He. lia. }
      intros [|k] s' Hk.
      * injection Hk as <-. rewrite Nat.add_0_r. split.
        -- apply Hgone; [|exact Hout].
           assert (nid s < nextId w) by (apply Hlt; apply list_elem_of_fmap; eauto). lia.
        -- apply Hkeep; [exact Hrec|]. right.
           unfold skipsScript. rewrite recreatedScript_marked. reflexivity.
      * replace (nextId w + S k) with (S (nextId w) + k) by lia.
        apply Hnew. exact Hk.
Qed.

(** X18. On a well-formed page whose scripts hold no element,
    [executeScripts] ends normally and re-creates each script that it
    does not pass over once, in the order of the page: the trace grows
    by one run, logged when the new script is put in the page, for each
    of them and by nothing else. The k-th of them is no longer in the
    page and the script created for it, with the k-th fresh identity,
    is; every other element of the page is still there. *)
Theorem executeScripts_runs_each_script_once w :
  wellFormed w -> scriptsAreLeaves (doc w) = true ->
  let w1 := fst (executeScripts w) in
  snd (executeScripts w) = Ok tt
  /\ trace w1
     = trace w ++ map ERunScript (seq (nextId w) (length (pendingScripts w)))
  /\ (forall k s,
        pendingScripts w !! k = Some s ->
        (s ∉ elts (doc w1)) /\ recreatedScript (nextId w + k) s ∈ elts (doc w1))
  /\ (forall e,
        e ∈ elts (doc w) -> e ∉ pendingScripts w -> e ∈ elts (doc w1)).
Proof.
  intros Hwf Hlv. pose proof Hwf as [Hnd _]. rewrite ids_single in Hnd.
  destruct (executeScripts_runs (documentScripts w) w Hwf Hlv)
    as (w' & Hrun & Htr & Hkeep & _ & Hnew).
  { eapply sublist_NoDup; [exact Hnd|]. apply sublist_map.
    unfold documentScripts. apply sublist_filter_list. }
  { intros s Hs _. unfold documentScripts in Hs.
    apply list_elem_of_In, filter_In in Hs as [Hs Hscr].
    split; [apply list_elem_of_In; exact Hs|exact Hscr]. }
  assert (Hex : executeScripts w = (w', Ok tt)).
  { unfold executeScripts, bind, get. simpl. exact Hrun. }
  cbv zeta. rewrite Hex. cbn [fst snd]. unfold pendingScripts.
  split; [reflexivity|]. split; [exact Htr|]. split; [exact Hnew|].
  intros e He Hne. apply Hkeep; [exact He|].
  destruct (skipsScript e) eqn:Hsk; [right; reflexivity|left].
  intros Hc. apply Hne. apply list_elem_of_In, filter_In.
  split; [apply list_elem_of_In; exact Hc|]. rewrite Hsk. reflexivity.
Qed.

Lemma executeScripts_runs_each_script_once_witness :
  wellFormed Sample.scriptWorld
  /\ scriptsAreLeaves (doc Sample.scriptWorld) = true
  /\ trace (fst (executeScripts Sample.scriptWorld))
     = trace Sample.scriptWorld
       ++ map ERunScript
            (seq (nextId Sample.scriptWorld) (length (pendingScripts Sample.scriptWorld))).
Proof.
  assert (Hwf : wellFormed Sample.scriptWorld).
  { split; apply (bool_decide_unpack _); vm_compute; exact I. }
  split; [exact Hwf|]. split; [reflexivity|].
  exact (proj1 (proj2 (executeScripts_runs_each_script_once Sample.scriptWorld Hwf eq_refl))).
Defined.

(** ** Prefetching on load, twice *)

(** Appending nodes that the filter lets none of through does not change
    what the filter finds in the page. *)
Lemma appendN_filter (p : elem -> bool) i new :
  List.filter p (eltsF new) = [] ->
  (forall n, List.filter p (elts (appendN i new n)) = List.filter p (elts n))
  /\ (forall f, List.filter p (eltsF (map (appendN i new) f)) = List.filter p (eltsF f)).
Proof.
  intros Hnew. apply node_forest_both.
  - intros e ks IH. rewrite appendN_eq, !elts_eq, eltsF_app. cbn [List.filter].
    rewrite List.filter_app, IH.
    destruct (Nat.eqb (nid e) i); [rewrite Hnew|]; rewrite app_nil_r; reflexivity.
  - reflexivity.
  - intros n f IHn IHf. cbn [map]. rewrite !eltsF_cons, !List.filter_app, IHn, IHf.
    reflexivity.
Qed.

(** [canPrefetch] refuses for good: what it refuses it still refuses
    when the page has the same address and more pages are prefetched. *)
Lemma canPrefetch_stays_false E url b w w' :
  location w' = location w ->
  prefetchedPages w ⊆ prefetchedPages w' ->
  canPrefetch E url b w = false -> canPrefetch E url b w' = false.
Proof.
  intros Hloc Hsub. unfold canPrefetch. rewrite Hloc.
  destruct (negb (onLine E) || negb b && isSlowConnection E); [reflexivity|].
  destruct (parseURL E url (Some (href (location w)))) as [u|]; [|reflexivity].
  destruct (String.eqb (origin (location w)) (origin u)); [|reflexivity].
  destruct (negb (String.eqb (pathname (location w)) (pathname u))
            || negb (String.eqb (search (location w)) (search u))); [|reflexivity].
  simpl. rewrite !negb_false_iff. intros H. apply bool_decide_eq_true in H.
  apply bool_decide_eq_true. apply Hsub. exact H.
Qed.

(** An anchor is settled when the callback of [setupLoadPrefetch] has
    nothing to do for it. *)
Lemma loadPrefetch_step E v link w :
  let body := fun link : elem =>
    if shouldPrefetch E v (Some link) "load" then
      get >>= fun w =>
      prefetchPage E (anchorHref E w link) (Some (mkPrefetchOptions (Some "link") None))
    else ret tt in
  isSome (docHead (doc w)) = true ->
  exists w',
    body link w = (w', Ok tt)
    /\ isSome (docHead (doc w')) = true
    /\ location w' = location w
    /\ prefetchedPages w ⊆ prefetchedPages w'
    /\ anchors w' = anchors w
    /\ (shouldPrefetch E v (Some link) "load" = true ->
        canPrefetch E (anchorHref E w link) false w' = false)
    /\ ((shouldPrefetch E v (Some link) "load" = true ->
         canPrefetch E (anchorHref E w link) false w = false) -> w' = w).
Proof.
  cbv beta zeta. intros Hhead.
  destruct (shouldPrefetch E v (Some link) "load") eqn:Hsp.
  2:{ exists w. repeat split; auto; discriminate. }
  rewrite get_bind.
  destruct (canPrefetch E (anchorHref E w link) false w) eqn:Hcan.
  2:{ exists w. rewrite prefetchPage_rejected by exact Hcan. repeat split; auto. }
  destruct (docHead (doc w)) as [h|] eqn:Hh; [|discriminate].
  unfold prefetchPage, bind, get, modify, createElement, appendToHead. simpl.
  rewrite Hcan. simpl. unfold bind, get, modify. simpl. rewrite Hh. simpl.
  eexists. split; [reflexivity|]. simpl.
  split; [rewrite (docHead_appendN _ _ _ _ Hh); reflexivity|].
  split; [reflexivity|]. split; [set_solver|].
  split.
  { unfold anchors. simpl. apply appendN_filter. reflexivity. }
  split.
  { intros _. apply canPrefetch_member. simpl. set_solver. }
  intros H. specialize (H eq_refl). discriminate.
Qed.

Lemma loadPrefetch_loop E v l :
  let body := fun link : elem =>
    if shouldPrefetch E v (Some link) "load" then
      get >>= fun w =>
      prefetchPage E (anchorHref E w link) (Some (mkPrefetchOptions (Some "link") None))
    else ret tt in
  forall w,
    isSome (docHead (doc w)) = true ->
    exists w',
      forEach l body w = (w', Ok tt)
      /\ isSome (docHead (doc w')) = true
      /\ location w' = location w
      /\ prefetchedPages w ⊆ prefetchedPages w'
      /\ anchors w' = anchors w
      /\ (forall link, link ∈ l -> shouldPrefetch E v (Some link) "load" = true ->
          canPrefetch E (anchorHref E w' link) false w' = false).
Proof.
  intros body. induction l as [|a r IH]; intros w Hhead.
  - exists w. repeat split; auto. intros link Hl. inversion Hl.
  - destruct (loadPrefetch_step E v a w Hhead) as (w1 & H1 & Hh1 & Hl1 & Hp1 & Ha1 & Hs1 & _).
    destruct (IH w1 Hh1) as (w2 & H2 & Hh2 & Hl2 & Hp2 & Ha2 & Hs2).
    exists w2. cbn [forEach]. fold body in H1. rewrite (bind_ok _ _ _ _ _ H1).
    split; [exact H2|]. split; [exact Hh2|]. split; [congruence|].
    split; [set_solver|]. split; [congruence|].
    intros link Hl Hsp. apply elem_of_cons in Hl as [->|Hl]; [|apply Hs2; assumption].
    apply (canPrefetch_stays_false E _ _ w1 w2 Hl2 Hp2).
    replace (anchorHref E w2 a) with (anchorHref E w a)
      by (unfold anchorHref; rewrite Hl2, Hl1; reflexivity).
    apply Hs1. exact Hsp.
Qed.

Lemma loadPrefetch_settled E v l w :
  let body := fun link : elem =>
    if shouldPrefetch E v (Some link) "load" then
      get >>= fun w =>
      prefetchPage E (anchorHref E w link) (Some (mkPrefetchOptions (Some "link") None))
    else ret tt in
  (forall link, link ∈ l -> shouldPrefetch E v (Some link) "load" = true ->
   canPrefetch E (anchorHref E w link) false w = false) ->
  forEach l body w = (w, Ok tt).
Proof.
  intros body. induction l as [|a r IH]; intros H; [reflexivity|].
  cbn [forEach].
  assert (Ha : body a w = (w, Ok tt)).
  { unfold body. destruct (shouldPrefetch E v (Some a) "load") eqn:Hsp; [|reflexivity].
    rewrite get_bind. apply prefetchPage_rejected.
    apply H; [apply list_elem_of_here|exact Hsp]. }
  rewrite (bind_ok _ _ _ _ _ Ha). apply IH.
  intros link Hl. apply H. apply list_elem_of_further. exact Hl.
Qed.

(** X19. The callback of [setupLoadPrefetch] runs at start-up and again
    on later [mkdocs:page-load] events. On a page with a head it ends
    normally, leaves the anchors of the page as they are and only adds
    to the prefetched pages; when it has run, no anchor of the page is
    left that it would prefetch, so that running it again on the page
    changes nothing. *)
Theorem loadPrefetch_twice_prefetches_once E v w :
  isSome (docHead (doc w)) = true ->
  let w1 := fst (loadPrefetch E v w) in
  snd (loadPrefetch E v w) = Ok tt
  /\ anchors w1 = anchors w
  /\ prefetchedPages w ⊆ prefetchedPages w1
  /\ (forall link,
        link ∈ anchors w1 -> shouldPrefetch E v (Some link) "load" = true ->
        canPrefetch E (anchorHref E w1 link) false w1 = false)
  /\ loadPrefetch E v w1 = (w1, Ok tt).
Proof.
  intros Hhead.
  destruct (loadPrefetch_loop E v (anchors w) w Hhead) as (w' & Hrun & _ & _ & Hp & Ha & Hs).
  assert (Hex : loadPrefetch E v w = (w', Ok tt)).
  { unfold loadPrefetch. rewrite get_bind. exact Hrun. }
  cbv zeta. rewrite Hex. cbn [fst snd].
  split; [reflexivity|]. split; [exact Ha|]. split; [exact Hp|].
  split; [rewrite Ha; exact Hs|].
  unfold loadPrefetch. rewrite get_bind. apply loadPrefetch_settled.
  rewrite Ha. exact Hs.
Qed.

Lemma loadPrefetch_twice_prefetches_once_witness :
  isSome (docHead (doc Site.linkWorld)) = true
  /\ loadPrefetch Sample.siteEnv Site.loadPrefetchVars
       (fst (loadPrefetch Sample.siteEnv Site.loadPrefetchVars Site.linkWorld))
     = (fst (loadPrefetch Sample.siteEnv Site.loadPrefetchVars Site.linkWorld), Ok tt).
Proof.
  split; [reflexivity|].
  exact (proj2 (proj2 (proj2 (proj2
    (loadPrefetch_twice_prefetches_once Sample.siteEnv Site.loadPrefetchVars Site.linkWorld
       eq_refl))))).
Defined.

(** ** Preloading stylesheets *)

Import Preload.

Lemma appendN_keeps i new :
  (forall n e, e ∈ elts n -> e ∈ elts (appendN i new n))
  /\ (forall f e, e ∈ eltsF f -> e ∈ eltsF (map (appendN i new) f)).
Proof.
  apply node_forest_both.
  - intros a ks IH e. rewrite appendN_eq, !elts_eq, eltsF_app, !elem_of_cons, elem_of_app.
    intros [->|H]; [left; reflexivity|right; left; apply IH; exact H].
  - intros e H. exact H.
  - intros n f IHn IHf e. cbn [map]. rewrite !eltsF_cons, !elem_of_app.
    intros [H|H]; [left; apply IHn|right; apply IHf]; exact H.
Qed.

Lemma appendN_adds i new :
  (forall n, i ∈ ids [n] -> forall e, e ∈ eltsF new -> e ∈ elts (appendN i new n))
  /\ (forall f, i ∈ ids f -> forall e, e ∈ eltsF new -> e ∈ eltsF (map (appendN i new) f)).
Proof.
  apply node_forest_both.
  - intros a ks IH Hi e He. rewrite appendN_eq, elts_eq, eltsF_app, elem_of_cons, elem_of_app.
    rewrite ids_cons in Hi. rewrite elem_of_cons, elem_of_app in Hi. right.
    destruct (Nat.eqb_spec (nid a) i) as [_|Hne]; [right; exact He|].
    destruct Hi as [Hi|[Hi|Hi]]; [congruence|left; apply IH; assumption|inversion Hi].
  - intros Hi. inversion Hi.
  - intros n f IHn IHf Hi e He. cbn [map]. rewrite eltsF_cons, elem_of_app.
    change (n :: f) with ([n] ++ f) in Hi. rewrite ids_app, elem_of_app in Hi.
    destruct Hi as [Hi|Hi]; [left; apply IHn|right; apply IHf]; assumption.
Qed.

Lemma find_filter_and {A} (s p : A -> bool) l :
  isSome (List.find (fun e => s e && p e) l) = existsb p (List.filter s l).
Proof.
  induction l as [|a r IH]; [reflexivity|]. simpl.
  destruct (s a); simpl; [|exact IH]. destruct (p a); [reflexivity|exact IH].
Qed.

(** Whether the page has a stylesheet with a given [href] depends on
    its stylesheets only. *)
Lemma querySelector_stylesheets h d d' :
  List.filter selStylesheet (elts d') = List.filter selStylesheet (elts d) ->
  isSome (querySelector (selStylesheetHref h) d')
  = isSome (querySelector (selStylesheetHref h) d).
Proof.
  intros H. unfold querySelector, selStylesheetHref.
  rewrite !find_filter_and, H. reflexivity.
Qed.

Lemma preloadStylesheets_loop l :
  let body := fun link : elem =>
    let href := match getAttribute "href" (attrs link) with Some h => h | None => "null" end in
    get >>= fun w =>
    if isSome (querySelector (selStylesheetHref href) (doc w)) then ret tt
    else
      createElement "link" >>= fun preloadLink =>
      appendToHead
        (Node (withAttrs (fun a =>
                 setAttribute "href" href
                   (setAttribute "as" "style" (setAttribute "rel" "preload" a)))
                 preloadLink) []) in
  let miss := fun (w : World) (l : list elem) =>
    List.filter
      (fun link =>
         negb (isSome (querySelector (selStylesheetHref (hrefInSelector link)) (doc w)))) l in
  forall w,
    isSome (docHead (doc w)) = true ->
    exists w',
      forEach l body w = (w', Ok tt)
      /\ isSome (docHead (doc w')) = true
      /\ nextId w' = nextId w + length (miss w l)
      /\ List.filter selStylesheet (elts (doc w')) = List.filter selStylesheet (elts (doc w))
      /\ trace w' = trace w
      /\ (forall e, e ∈ elts (doc w) -> e ∈ elts (doc w'))
      /\ (forall k link,
            miss w l !! k = Some link ->
            preloadLink (nextId w + k) (hrefInSelector link) ∈ elts (doc w'))
      /\ (miss w l = [] -> w' = w).
Proof.
  intros body miss. induction l as [|a r IH]; intros w Hhead.
  - exists w. simpl. rewrite Nat.add_0_r. repeat split; auto. discriminate.
  - cbn [forEach]. unfold body at 1. cbv zeta. unfold bind at 1. rewrite get_bind.
    unfold miss. cbn [List.filter]. fold (miss w r). unfold hrefInSelector at 1 3.
    destruct (isSome (querySelector _ (doc w))) eqn:Hq; cbn [negb].
    + exact (IH w Hhead).
    + destruct (docHead (doc w)) as [h|] eqn:Hh; [|discriminate].
      unfold bind at 1. unfold createElement, appendToHead. simpl.
      unfold bind at 1. unfold get at 1. simpl. rewrite Hh. unfold modify at 1.
      match goal with
      | |- context [forEach r body ?x] => set (w1 := x)
      end.
      assert (Hd1 : doc w1
                    = appendN (nid (nodeElem h))
                        [Node (preloadLink (nextId w) (hrefInSelector a)) []] (doc w))
        by reflexivity.
      assert (Hsheets : List.filter selStylesheet (elts (doc w1))
                        = List.filter selStylesheet (elts (doc w))).
      { rewrite Hd1. apply appendN_filter. reflexivity. }
      destruct (IH w1) as (w' & Hrun & Hh' & Hn & Hs & Ht & Hk & Hnew & _).
      { rewrite Hd1, (docHead_appendN _ _ _ _ Hh). reflexivity. }
      assert (Hmiss : miss w1 r = miss w r).
      { unfold miss. apply List.filter_ext. intros link.
        rewrite (querySelector_stylesheets _ _ _ Hsheets). reflexivity. }
      rewrite Hmiss in *.
      exists w'. split; [exact Hrun|]. split; [exact Hh'|].
      split; [rewrite Hn; simpl; lia|]. split; [rewrite Hs; exact Hsheets|].
      split; [exact Ht|]. split.
      { intros e He. apply Hk. rewrite Hd1. apply appendN_keeps. exact He. }
      split; [|discriminate].
      intros [|k] link Hl.
      * injection Hl as <-. rewrite Nat.add_0_r. apply Hk. rewrite Hd1.
        apply (proj1 (appendN_adds _ _)); [apply docHead_id; exact Hh|].
        unfold eltsF. simpl. apply list_elem_of_here.
      * replace (nextId w + S k) with (nextId w1 + k) by (simpl; lia).
        apply Hnew. exact Hl.
Qed.

(** X20. Take a page with a head and a new document such that the
    [href] of every stylesheet of its head is selector-safe (a missing
    one reads [null]) and no element of either document writes
    [stylesheet] in another letter case in its [rel]. Then
    [preloadStylesheets] ends normally and creates one preload link for
    each stylesheet of the head of the new document whose [href] no
    stylesheet of the page has, one after the other and once for each
    time the head lists it. The links are in the page afterwards, every
    element of the page is still there, its stylesheets are the same and
    nothing is logged; when no stylesheet is missing the page is left as
    it is. *)
Theorem preloadStylesheets_preloads_missing newDocument w :
  isSome (docHead (doc w)) = true ->
  forallb (fun link => selectorSafe (hrefInSelector link))
    (headStylesheetsN false newDocument) = true ->
  forallb plainRel (elts newDocument ++ elts (doc w)) = true ->
  let w1 := fst (preloadStylesheets newDocument w) in
  snd (preloadStylesheets newDocument w) = Ok tt
  /\ nextId w1 = nextId w + length (missingStylesheets newDocument w)
  /\ (forall k link,
        missingStylesheets newDocument w !! k = Some link ->
        preloadLink (nextId w + k) (hrefInSelector link) ∈ elts (doc w1))
  /\ (forall e, e ∈ elts (doc w) -> e ∈ elts (doc w1))
  /\ List.filter selStylesheet (elts (doc w1)) = List.filter selStylesheet (elts (doc w))
  /\ trace w1 = trace w
  /\ (missingStylesheets newDocument w = [] -> w1 = w).
Proof.
  intros Hhead _ _.
  destruct (preloadStylesheets_loop (headStylesheetsN false newDocument) w Hhead)
    as (w' & Hrun & _ & Hn & Hs & Ht & Hk & Hnew & Hsame).
  assert (Hex : preloadStylesheets newDocument w = (w', Ok tt)) by exact Hrun.
  cbv zeta. rewrite Hex. cbn [fst snd]. unfold missingStylesheets.
  repeat split; assumption.
Qed.

Lemma preloadStylesheets_preloads_missing_witness :
  isSome (docHead (doc Sample.world0)) = true
  /\ forallb (fun link => selectorSafe (hrefInSelector link))
       (headStylesheetsN false Sample.otherDocument) = true
  /\ forallb plainRel (elts Sample.otherDocument ++ elts (doc Sample.world0)) = true
  /\ missingStylesheets Sample.otherDocument Sample.world0
     = [Sample.el 23 "link" [("rel", "stylesheet"); ("href", "/css/other.css")]]
  /\ preloadLink (nextId Sample.world0) "/css/other.css"
     ∈ elts (doc (fst (preloadStylesheets Sample.otherDocument Sample.world0))).
Proof.
  split; [reflexivity|]. split; [vm_compute; reflexivity|].
  split; [vm_compute; reflexivity|]. split; [reflexivity|].
  destruct (preloadStylesheets_preloads_missing Sample.otherDocument Sample.world0 eq_refl)
    as (_ & _ & H & _).
  - vm_compute. reflexivity.
  - vm_compute. reflexivity.
  - exact (H 0 (Sample.el 23 "link" [("rel", "stylesheet"); ("href", "/css/other.css")])
             eq_refl).
Defined.

(** ** Navigation and the prefetched pages *)

Lemma performPageSwap_prefetched E ev options scrollState fallback :
  preserves prefetchedPages (performPageSwap E ev options scrollState fallback).
Proof.
  unfold performPageSwap, animateTransition, setRootAttribute.
  apply preserves_bind; [apply preserves_get|intros w0].
  apply preserves_bind; [index_auto|intros _].
  apply preserves_bind; [apply preserves_get|intros w1].
  apply preserves_bind_throws.
  - intros w. rewrite dispatchBeforeSwap_throws. reflexivity.
  - intros w. rewrite dispatchBeforeSwap_throws. eauto.
Qed.

Lemma setDocumentTitle_prefetched v : preserves prefetchedPages (setDocumentTitle v).
Proof. intros w. apply (setDocumentTitle_rest v w). Qed.

Lemma navigateToPage_prefetched E direction fromUrl toUrl options scrollState :
  preserves prefetchedPages (navigateToPage E direction fromUrl toUrl options scrollState).
Proof.
  unfold navigateToPage, assignHref, updateLocation, updateHistoryState,
    dispatchBeforePreparation, loader, fetchPage, preloadStylesheets, dispatchEvent,
    executeScripts, executeScript, dispatchPageLoad, createRouteAnnouncer,
    removeRootAttribute, appendToHead, appendToBody, scrollTo, fragmentNavigate,
    originalReplaceState, originalPushState.
  cbv zeta.
  repeat (index_auto;
          unfold updateHistoryState, dispatchEvent, originalReplaceState, appendToHead,
            appendToBody, scrollTo).
  all: try apply performPageSwap_prefetched.
  all: try apply setDocumentTitle_prefetched.
  all: apply preserves_modify; intros w;
    destruct (fragmentOffset E (href toUrl)) as [[x y]|], (hrefClearsState E); reflexivity.
Qed.

Lemma navigate_prefetched E url options : preserves prefetchedPages (navigate E url options).
Proof. unfold navigate. index_auto. apply navigateToPage_prefetched. Qed.

Lemma handlePopState_prefetched E eventState :
  preserves prefetchedPages (handlePopState E eventState).
Proof.
  unfold handlePopState. index_auto; apply navigateToPage_prefetched.
Qed.

Lemma onClick_prefetched E ev : preserves prefetchedPages (onClick E ev).
Proof. unfold onClick. index_auto. apply navigate_prefetched. Qed.

(** X21. The navigation code never writes the set of prefetched pages:
    [navigate], the [popstate] handler and the [click] listener leave it
    as it is, whatever they do to the page. A page that was prefetched
    before a navigation is therefore not prefetched again after it:
    [prefetchPage] for it changes nothing. *)
Theorem navigation_keeps_prefetched_pages E w :
  (forall url options,
     prefetchedPages (fst (navigate E url options w)) = prefetchedPages w)
  /\ (forall eventState,
        prefetchedPages (fst (handlePopState E eventState w)) = prefetchedPages w)
  /\ (forall ev, prefetchedPages (fst (onClick E ev w)) = prefetchedPages w)
  /\ (forall url options u o,
        u ∈ prefetchedPages w ->
        prefetchPage E u o (fst (navigate E url options w))
        = (fst (navigate E url options w), Ok tt)).
Proof.
  split; [intros url options; apply navigate_prefetched|].
  split; [intros eventState; apply handlePopState_prefetched|].
  split; [intros ev; apply onClick_prefetched|].
  intros url options u o Hu. apply prefetchPage_rejected. apply canPrefetch_member.
  rewrite navigate_prefetched. exact Hu.
Qed.
